(** * SDSS bulk FITS downloader ([src/download-images.py])

    A shallow embedding of the sampler [generate_urls], of the coroutine
    [download_one] and of the fan-out done by [main], together with the
    properties of the bounded-concurrency fetch engine.

    Python integers are [Z]; the [progress] dictionary is a
    [gmap string Z]; [fields_picked] is a [gset] of triples; the
    destination filesystem is a [gmap] from paths to file contents.  The
    asyncio event loop is an interleaving of coroutine resumptions. *)

From Stdlib Require Import ZArith Lia List Ascii String.
From Stdlib.Init Require Import Byte.
From stdpp Require Import base gmap list strings pretty fin_sets.

Local Open Scope Z_scope.

(** ** Configuration constants (module level in the source) *)

Module Config.

Definition MAX_CONCURRENT : Z := 10.
Definition NUM_FIELDS : Z := 500.
Definition BANDS : list string := ["r"%string].
Definition RERUN : Z := 301.

(** [(run, camcol, max_field)] triples. *)
Definition SDSS_RUNS : list (Z * Z * Z) :=
  [ (752, 1, 500); (752, 2, 500); (752, 3, 500);
    (756, 1, 400); (756, 2, 400);
    (1033, 1, 500); (1033, 3, 500);
    (1140, 1, 250); (1140, 4, 250);
    (1231, 2, 300); (1231, 5, 300);
    (1336, 1, 400); (1336, 3, 400);
    (1339, 2, 350); (1339, 4, 350);
    (1356, 1, 300); (1356, 6, 300);
    (1359, 2, 250); (1359, 5, 250);
    (1740, 1, 400); (1740, 3, 400);
    (2078, 2, 300); (2078, 4, 300);
    (2190, 1, 250); (2190, 3, 250);
    (2505, 1, 350); (2505, 3, 350);
    (2570, 2, 300); (2570, 4, 300);
    (2583, 1, 250); (2583, 5, 250);
    (2662, 1, 300); (2662, 3, 300);
    (2700, 2, 250); (2700, 6, 250);
    (2728, 1, 300); (2728, 4, 300);
    (2820, 1, 250); (2820, 3, 250);
    (2873, 2, 300); (2873, 5, 300);
    (3225, 1, 200); (3225, 3, 200);
    (3325, 2, 250); (3325, 4, 250);
    (3388, 1, 300); (3388, 3, 300);
    (3434, 2, 200); (3434, 6, 200);
    (3437, 1, 250);
    (4128, 1, 250); (4128, 3, 250);
    (4145, 2, 200); (4145, 4, 200);
    (4157, 1, 200); (4157, 3, 200);
    (4184, 2, 250); (4184, 5, 250);
    (4188, 1, 200); (4188, 4, 200);
    (4198, 1, 200);
    (4207, 2, 200); (4207, 3, 200);
    (4263, 1, 200); (4263, 4, 200);
    (4288, 2, 200); (4288, 5, 200);
    (5314, 1, 200); (5314, 3, 200);
    (5566, 2, 200); (5566, 4, 200);
    (5590, 1, 200); (5590, 3, 200);
    (5597, 2, 150); (5597, 5, 150);
    (5610, 1, 200); (5610, 4, 200);
    (5633, 2, 150); (5633, 3, 150);
    (5642, 1, 150); (5642, 6, 150);
    (5646, 1, 150); (5646, 3, 150);
    (5709, 2, 200); (5709, 4, 200);
    (5744, 1, 200); (5744, 3, 200);
    (5759, 2, 150); (5759, 5, 150);
    (5770, 1, 150);
    (5776, 1, 200); (5776, 3, 200);
    (5781, 2, 200); (5781, 4, 200);
    (5792, 1, 150); (5792, 6, 150);
    (5800, 1, 200); (5800, 3, 200);
    (5813, 2, 150); (5813, 5, 150);
    (5823, 1, 150); (5823, 4, 150);
    (5836, 2, 200); (5836, 3, 200);
    (5853, 1, 150); (5853, 6, 150);
    (5866, 1, 200); (5866, 4, 200);
    (5878, 2, 150); (5878, 5, 150);
    (5898, 1, 150); (5898, 3, 150);
    (5905, 2, 200); (5905, 4, 200);
    (6074, 1, 200); (6074, 3, 200);
    (6162, 2, 150); (6162, 4, 150);
    (6283, 1, 150); (6283, 5, 150);
    (6314, 2, 200); (6314, 3, 200);
    (6383, 1, 150); (6383, 4, 150);
    (6442, 2, 150); (6442, 6, 150);
    (6462, 1, 200); (6462, 3, 200);
    (6476, 2, 150); (6476, 5, 150);
    (6501, 1, 150); (6501, 4, 150);
    (6513, 2, 200); (6513, 3, 200);
    (6537, 1, 150); (6537, 6, 150);
    (6548, 1, 200); (6548, 4, 200);
    (6564, 2, 150); (6564, 5, 150);
    (6580, 1, 150); (6580, 3, 150);
    (6596, 2, 200); (6596, 4, 200);
    (6614, 1, 150); (6614, 6, 150);
    (6625, 1, 200); (6625, 3, 200);
    (6640, 2, 150); (6640, 5, 150);
    (6648, 1, 150); (6648, 4, 150) ].

End Config.

(** ** Python exceptions

    Only subclasses of [Exception] are modelled: these are what the
    transport, the filesystem and the dictionary can raise. *)

Inductive exn :=
  | TimeoutError                 (* asyncio.TimeoutError *)
  | KeyError (key : string)      (* missing dictionary key *)
  | IndexError                   (* random.choice on an empty sequence *)
  | ValueError                   (* random.randint on an empty range *)
  | OtherException (msg : string). (* aiohttp.ClientError, OSError, ... *)

(** ** String formatting used by the URL template *)

Fixpoint zeros (n : nat) : string :=
  match n with
  | O => EmptyString
  | S n' => String "0"%char (zeros n')
  end.

(** [s.rjust(width, "0")] on a digit string. *)
Definition zero_pad (width : nat) (digits : string) : string :=
  zeros (width - String.length digits) +:+ digits.

(** [f"{x}"] for an integer. *)
Definition fmt_d (x : Z) : string := pretty x.

(** [f"{x:0<width>d}"]: the sign, when present, counts in the width. *)
Definition fmt_0d (width : nat) (x : Z) : string :=
  if x <? 0 then "-" +:+ zero_pad (width - 1) (pretty (- x))
  else zero_pad width (pretty x).

(** ** The key sampler [generate_urls] *)

Definition key : Type := Z * Z * Z.

(** One sampler outcome.  [Looping] is the loop still running when the
    supplied random draws are used up. *)
Inductive sampled (A : Type) :=
  | Returned (a : A)
  | Raised (e : exn)
  | Looping (urls : list string) (fields_picked : gset key).
Arguments Returned {A} a.
Arguments Raised {A} e.
Arguments Looping {A} urls fields_picked.

Section Sampler.

Variable SDSS_RUNS : list (Z * Z * Z).
Variable BANDS : list string.
Variable RERUN : Z.

(** [random.choice(seq)] is [seq[randbelow(len(seq))]] and raises
    [IndexError] on an empty sequence; the raw draw [r] is reduced
    modulo the length, so every element can be chosen. *)
Definition random_choice {A} (r : nat) (seq : list A) : exn + A :=
  match seq !! (r mod length seq)%nat with
  | Some x => inr x
  | None => inl IndexError
  end.

(** [random.randint(a, b)] is [a + randbelow(b - a + 1)] and raises
    [ValueError] when the range is empty. *)
Definition random_randint (r : nat) (a b : Z) : exn + Z :=
  if b - a + 1 <=? 0 then inl ValueError
  else inr (a + Z.of_nat r mod (b - a + 1)).

(** The f-string building one frame URL. *)
Definition frame_url (run camcol field : Z) (band : string) : string :=
  let run6 := fmt_0d 6 run in
  "https://data.sdss.org/sas/dr17/eboss/photoObj/frames/"
  +:+ fmt_d RERUN +:+ "/" +:+ fmt_d run +:+ "/" +:+ fmt_d camcol
  +:+ "/frame-" +:+ band +:+ "-" +:+ run6 +:+ "-" +:+ fmt_d camcol
  +:+ "-" +:+ fmt_0d 4 field +:+ ".fits.bz2".

(** The inner [for band in BANDS] loop: the URLs appended for one key. *)
Definition key_urls (k : key) : list string :=
  let '(run, camcol, field) := k in
  map (frame_url run camcol field) BANDS.

(** The [while len(fields_picked) < n_fields] loop.  Each iteration
    consumes one pair of raw random draws, the first for
    [random.choice] and the second for [random.randint]. *)
Fixpoint sample_loop (n_fields : Z) (draws : list (nat * nat))
    (urls : list string) (fields_picked : gset key)
    : sampled (list string * gset key) :=
  if bool_decide (Z.of_nat (size fields_picked) < n_fields) then
    match draws with
    | [] => Looping urls fields_picked
    | (r1, r2) :: draws' =>
        match random_choice r1 SDSS_RUNS with
        | inl e => Raised e
        | inr (run, camcol, max_field) =>
            match random_randint r2 11 (Z.min max_field 500) with
            | inl e => Raised e
            | inr field =>
                let k := (run, camcol, field) in
                if bool_decide (k ∈ fields_picked) then
                  sample_loop n_fields draws' urls fields_picked
                else
                  sample_loop n_fields draws' (urls ++ key_urls k)
                    ({[ k ]} ∪ fields_picked)
            end
        end
    end
  else Returned (urls, fields_picked).

Definition generate_urls (n_fields : Z) (draws : list (nat * nat))
    : sampled (list string) :=
  match sample_loop n_fields draws [] ∅ with
  | Returned (urls, _) => Returned urls
  | Raised e => Raised e
  | Looping urls picked => Looping urls picked
  end.

End Sampler.


(** ** The addressable key space and the sampler's loop invariant *)

(** The keys a pool can address:
    [{(run, camcol, m) | 11 <= m <= min(max_field, 500)}] over its entries. *)
Definition range_keys (r : Z * Z * Z) : gset key :=
  let '(run, camcol, max_field) := r in
  list_to_set
    (map (λ m, (run, camcol, m)) (seqZ 11 (Z.min max_field 500 - 10))).

Definition addressable (pool : list (Z * Z * Z)) : gset key :=
  ⋃ (map range_keys pool).

(** Every range of the pool has at least one valid field number. *)
Definition pool_ranges_valid (pool : list (Z * Z * Z)) : Prop :=
  Forall (λ r, 11 ≤ r.2) pool.

Definition is_looping {A} (r : sampled A) : Prop :=
  match r with Looping _ _ => True | _ => False end.

(** Loop invariant: the accepted keys, in acceptance order, are pairwise
    distinct, are exactly the members of [fields_picked], and [urls] is
    their expansion over [BANDS]. *)
Definition sampler_inv (SDSS_RUNS : list (Z * Z * Z)) (BANDS : list string)
    (RERUN : Z) (keys : list key) (urls : list string)
    (picked : gset key) : Prop :=
  NoDup keys ∧ picked = list_to_set keys
  ∧ urls = flat_map (key_urls BANDS RERUN) keys
  ∧ picked ⊆ addressable SDSS_RUNS.


(** ** Shared state of a run

    Everything the coroutines of one run share: the [progress]
    dictionary, the destination filesystem, the semaphore's counter of
    free permits, the console, and the GET requests handed to the
    session. *)

(** One printed line; the fields are the values the f-string
    interpolates ([size] is kept in bytes). *)
Inductive line :=
  | HttpErrorLine (status : Z) (filename : string)
  | TimeoutLine (filename : string)
  | ErrorLine (filename : string) (e : exn)
  | DoneLine (done target : Z) (filename : string) (size : Z).

Record world := World {
  progress : gmap string Z;
  fs : gmap string (list byte);
  sem_value : Z;
  stdout : list line;
  requests : list string;
}.

Definition set_progress (p : gmap string Z) (w : world) : world :=
  World p (fs w) (sem_value w) (stdout w) (requests w).
Definition set_fs (f : gmap string (list byte)) (w : world) : world :=
  World (progress w) f (sem_value w) (stdout w) (requests w).
Definition set_sem_value (v : Z) (w : world) : world :=
  World (progress w) (fs w) v (stdout w) (requests w).
Definition set_stdout (o : list line) (w : world) : world :=
  World (progress w) (fs w) (sem_value w) o (requests w).
Definition set_requests (r : list string) (w : world) : world :=
  World (progress w) (fs w) (sem_value w) (stdout w) r.

(** ** A state-and-exception monad for the synchronous code between
    two suspension points.  Like in Python, the effects done before an
    exception is raised stay. *)

Definition M (A : Type) : Type := world → world * (exn + A).

#[global] Instance M_ret : MRet M := λ A a w, (w, inr a).
#[global] Instance M_bind : MBind M := λ A B f m w,
  match m w with
  | (w', inr a) => f a w'
  | (w', inl e) => (w', inl e)
  end.

Definition raise {A} (e : exn) : M A := λ w, (w, inl e).

(** [try: m  except Exception as e: h e] *)
Definition try_except {A} (m : M A) (h : exn → M A) : M A := λ w,
  match m w with
  | (w', inl e) => h e w'
  | (w', inr a) => (w', inr a)
  end.

(** [d[k]] *)
Definition dict_get (k : string) : M Z := λ w,
  match progress w !! k with
  | Some v => (w, inr v)
  | None => (w, inl (KeyError k))
  end.

(** [d[k] += 1] *)
Definition dict_incr (k : string) : M unit := λ w,
  match progress w !! k with
  | Some v => (set_progress (<[k := v + 1]> (progress w)) w, inr tt)
  | None => (w, inl (KeyError k))
  end.

Definition print (l : line) : M unit := λ w,
  (set_stdout (stdout w ++ [l]) w, inr tt).

(** [os.path.exists(path)] *)
Definition os_path_exists (path : string) : M bool := λ w,
  (w, inr (bool_decide (is_Some (fs w !! path)))).

(** [open(path, "wb")]: creates or truncates the file, unless the
    operating system refuses ([err]). *)
Definition open_wb (path : string) (err : option exn) : M unit :=
  match err with
  | Some e => raise e
  | None => λ w, (set_fs (<[path := []]> (fs w)) w, inr tt)
  end.

(** [f.write(chunk)] on the file opened at [path]. *)
Definition file_write (path : string) (chunk : list byte) : M unit := λ w,
  (set_fs (<[path := default [] (fs w !! path) ++ chunk]> (fs w)) w, inr tt).

(** [session.get(url, ...)]: the request is handed to the transport. *)
Definition session_get (url : string) : M unit := λ w,
  (set_requests (requests w ++ [url]) w, inr tt).

(** ** Path helpers *)

(** [s.split(sep)] for a one-character separator. *)
Fixpoint split (sep : ascii) (s : string) : list string :=
  match s with
  | EmptyString => [EmptyString]
  | String c s' =>
      if Ascii.eqb c sep then EmptyString :: split sep s'
      else match split sep s' with
           | h :: t => String c h :: t
           | [] => [String c EmptyString]
           end
  end.

Definition starts_with_slash (s : string) : bool :=
  match s with
  | String c _ => Ascii.eqb c "/"
  | EmptyString => false
  end.

Fixpoint ends_with_slash (s : string) : bool :=
  match s with
  | EmptyString => false
  | String c EmptyString => Ascii.eqb c "/"
  | String _ s' => ends_with_slash s'
  end.

(** [os.path.join(a, b)] (posixpath). *)
Definition os_path_join (a b : string) : string :=
  if starts_with_slash b then b
  else if (String.length a =? 0)%nat || ends_with_slash a then a +:+ b
  else a +:+ "/" +:+ b.

(** ** The coroutine [download_one]

    A coroutine is where it is suspended, with the local variables
    that are live there. *)
Inductive coro :=
  | Created                                  (* waiting in [async with semaphore] *)
  | Acquired                                 (* permit granted, body not yet run *)
  | AwaitGet (filename filepath : string)    (* suspended in [session.get] *)
  | AwaitChunk (filename filepath : string) (size : Z)
                                             (* file open, suspended in [iter_chunked] *)
  | CoReturned                               (* the coroutine returned *)
  | CoRaised (e : exn).                      (* an exception left the coroutine *)

(** What the event loop resumes a coroutine with. *)
Inductive event :=
  | EvGrant                                  (* the semaphore hands over a permit *)
  | EvStart                                  (* the coroutine runs on from [acquire] *)
  | EvResponse (status : Z) (open_err : option exn)
                                             (* response headers arrived; [open_err]
                                                is what [open] will answer *)
  | EvChunk (chunk : list byte)              (* next block of the body *)
  | EvEndOfBody                              (* the body stream is exhausted *)
  | EvFault (e : exn).                       (* the pending await raises [e] *)

Section Worker.

Variable dest_dir : string.

(** The two [except] clauses. *)
Definition handler (filename : string) (e : exn) : M coro :=
  match e with
  | TimeoutError =>
      print (TimeoutLine filename);;
      dict_incr "failed";;
      mret CoReturned
  | _ =>
      print (ErrorLine filename e);;
      dict_incr "failed";;
      mret CoReturned
  end.

(** [filename = url.split("/")[-1]] and
    [filepath = os.path.join(dest_dir, filename)] *)
Definition filename_of (url : string) : string :=
  List.last (split "/" url) EmptyString.
Definition filepath_of (url : string) : string :=
  os_path_join dest_dir (filename_of url).

(** From the permit to the first await: resume check, then the request. *)
Definition body_start (url : string) : M coro :=
  let filename := filename_of url in
  let filepath := filepath_of url in
  found ← os_path_exists filepath;
  if found : bool then
    dict_incr "skipped";;
    mret CoReturned
  else
    try_except
      (session_get url;;
       mret (AwaitGet filename filepath))
      (handler filename).

(** Resumed with the response: status classification, then [open]. *)
Definition on_response (filename filepath : string) (status : Z)
    (open_err : option exn) : M coro :=
  try_except
    (if status =? 404 then
       dict_incr "missing";;
       mret CoReturned
     else if negb (status =? 200) then
       print (HttpErrorLine status filename);;
       dict_incr "failed";;
       mret CoReturned
     else
       open_wb filepath open_err;;
       mret (AwaitChunk filename filepath 0))
    (handler filename).

(** One iteration of [async for chunk in ...]. *)
Definition on_chunk (filename filepath : string) (size : Z)
    (chunk : list byte) : M coro :=
  try_except
    (file_write filepath chunk;;
     mret (AwaitChunk filename filepath (size + Z.of_nat (length chunk))))
    (handler filename).

(** The body stream ended: the file is closed and the task is done. *)
Definition on_end_of_body (filename filepath : string) (size : Z) : M coro :=
  try_except
    (dict_incr "done";;
     d ← dict_get "done";
     f ← dict_get "failed";
     m ← dict_get "missing";
     let total := d + f + m in
     d' ← dict_get "done";
     t ← dict_get "target";
     print (DoneLine d' t filename size);;
     mret CoReturned)
    (handler filename).

(** The pending await raised inside the [try]. *)
Definition on_fault (filename : string) (e : exn) : M coro :=
  try_except (raise e) (handler filename).

(** [async with semaphore]: the permit goes back when the block is left,
    by [return] or by an exception. *)
Definition release (w : world) : world := set_sem_value (sem_value w + 1) w.

Definition run_segment (m : M coro) (w : world) : world * coro :=
  match m w with
  | (w', inr CoReturned) => (release w', CoReturned)
  | (w', inr c) => (w', c)
  | (w', inl e) => (release w', CoRaised e)
  end.

(** One resumption of [download_one(session, semaphore, url, dest_dir,
    progress)]; [None] when the event is not one the coroutine is
    waiting for (a permit is granted only while one is free). *)
Definition resume (url : string) (c : coro) (ev : event) (w : world)
    : option (world * coro) :=
  match c, ev with
  | Created, EvGrant =>
      if 0 <? sem_value w
      then Some (set_sem_value (sem_value w - 1) w, Acquired)
      else None
  | Acquired, EvStart => Some (run_segment (body_start url) w)
  | AwaitGet fn fp, EvResponse status open_err =>
      Some (run_segment (on_response fn fp status open_err) w)
  | AwaitGet fn fp, EvFault e => Some (run_segment (on_fault fn e) w)
  | AwaitChunk fn fp size, EvChunk chunk =>
      Some (run_segment (on_chunk fn fp size chunk) w)
  | AwaitChunk fn fp size, EvEndOfBody =>
      Some (run_segment (on_end_of_body fn fp size) w)
  | AwaitChunk fn fp size, EvFault e => Some (run_segment (on_fault fn e) w)
  | _, _ => None
  end.

(** ** The event loop running the gathered coroutines *)

Record loop := Loop {
  shared : world;
  coros : list (string * coro);
}.

(** The loop resumes coroutine [i] with [ev]. *)
Definition step (i : nat) (ev : event) (s : loop) : option loop :=
  '(url, c) ← coros s !! i;
  '(w', c') ← resume url c ev (shared s);
  Some (Loop w' (<[i := (url, c')]> (coros s))).

Fixpoint run (sched : list (nat * event)) (s : loop) : option loop :=
  match sched with
  | [] => Some s
  | (i, ev) :: sched' => s' ← step i ev s; run sched' s'
  end.

End Worker.

(** ** [main]: the semaphore, the progress record, one coroutine per URL *)

(** [asyncio.Semaphore(value)] *)
Definition Semaphore (value : Z) : exn + Z :=
  if value <? 0 then inl ValueError else inr value.

Definition initial_progress (total_files : Z) : gmap string Z :=
  {[ "done" := 0; "failed" := 0; "missing" := 0; "skipped" := 0;
     "target" := total_files ]}.

Definition main_init (MAX_CONCURRENT : Z) (file_urls : list string)
    (fs0 : gmap string (list byte)) : exn + loop :=
  let total_files := Z.of_nat (length file_urls) in
  match Semaphore MAX_CONCURRENT with
  | inl e => inl e
  | inr semaphore =>
      inr (Loop (World (initial_progress total_files) fs0 semaphore [] [])
                (map (λ url, (url, Created)) file_urls))
  end.

(** [asyncio.gather] is over once every coroutine has returned. *)
Definition is_returned (c : coro) : bool :=
  match c with CoReturned => true | _ => false end.

Definition gather_done (s : loop) : bool :=
  forallb (λ t, is_returned t.2) (coros s).

(** A coroutine holds a permit from the grant until it leaves the
    [async with] block. *)
Definition holds_permit (c : coro) : bool :=
  match c with
  | Acquired | AwaitGet _ _ | AwaitChunk _ _ _ => true
  | _ => false
  end.

(** The network-and-write phase: a request or a body transfer pending. *)
Definition in_network_phase (c : coro) : bool :=
  match c with
  | AwaitGet _ _ | AwaitChunk _ _ _ => true
  | _ => false
  end.

(** Number of coroutines whose state satisfies [P]. *)
Definition count_where (P : coro → bool) (cs : list (string * coro)) : nat :=
  sum_list_with (λ t, if P t.2 then 1%nat else 0%nat) cs.

Definition holders (s : loop) : nat := count_where holds_permit (coros s).
Definition in_flight (s : loop) : nat := count_where in_network_phase (coros s).

(** Reading a counter of the progress record. *)
Definition counter (k : string) (w : world) : Z :=
  default 0 (progress w !! k).

(** The record after [progress[k] += 1]. *)
Definition bump (k : string) (w : world) : world :=
  set_progress (<[k := counter k w + 1]> (progress w)) w.

(** The keys a worker increments. *)
Definition counter_keys : list string :=
  ["done"; "failed"; "missing"; "skipped"]%string.

(** [w'] differs from [w], in the progress record, on counters only. *)
Definition frame_eq (w w' : world) : Prop :=
  ∀ k, k ∉ counter_keys → progress w' !! k = progress w !! k.

(** A computation that writes the progress record on counters only,
    whether it returns or raises. *)
Definition framed {A} (m : M A) : Prop := ∀ w, frame_eq w (m w).1.

(** The five keys [main] puts in the record. *)
Definition wf_progress (p : gmap string Z) : Prop :=
  is_Some (p !! "done") ∧ is_Some (p !! "failed") ∧ is_Some (p !! "missing")
  ∧ is_Some (p !! "skipped") ∧ is_Some (p !! "target").

(** The line an [except] clause prints for [e]. *)
Definition fault_line (filename : string) (e : exn) : line :=
  match e with
  | TimeoutError => TimeoutLine filename
  | _ => ErrorLine filename e
  end.

(** What a fault does, whichever await it interrupts. *)
Definition failed_with (filename : string) (e : exn) (w : world) : world :=
  set_sem_value (sem_value w + 1)
    (bump "failed" (set_stdout (stdout w ++ [fault_line filename e]) w)).

(** Relational reading of one resumption, valid while the progress
    record has its five keys (see [resume_transition]). *)
Inductive transition (dest_dir url : string)
    : coro → event → world → world → coro → Prop :=
  | T_grant w :
      0 < sem_value w →
      transition dest_dir url Created EvGrant w
        (set_sem_value (sem_value w - 1) w) Acquired
  | T_skip w :
      is_Some (fs w !! filepath_of dest_dir url) →
      transition dest_dir url Acquired EvStart w
        (set_sem_value (sem_value w + 1) (bump "skipped" w)) CoReturned
  | T_request w :
      fs w !! filepath_of dest_dir url = None →
      transition dest_dir url Acquired EvStart w
        (set_requests (requests w ++ [url]) w)
        (AwaitGet (filename_of url) (filepath_of dest_dir url))
  | T_missing fn fp open_err w :
      transition dest_dir url (AwaitGet fn fp) (EvResponse 404 open_err) w
        (set_sem_value (sem_value w + 1) (bump "missing" w)) CoReturned
  | T_http_error fn fp status open_err w :
      status ≠ 404 → status ≠ 200 →
      transition dest_dir url (AwaitGet fn fp) (EvResponse status open_err) w
        (set_sem_value (sem_value w + 1)
           (bump "failed"
              (set_stdout (stdout w ++ [HttpErrorLine status fn]) w)))
        CoReturned
  | T_open fn fp w :
      transition dest_dir url (AwaitGet fn fp) (EvResponse 200 None) w
        (set_fs (<[fp := []]> (fs w)) w) (AwaitChunk fn fp 0)
  | T_open_fail fn fp e w :
      transition dest_dir url (AwaitGet fn fp) (EvResponse 200 (Some e)) w
        (failed_with fn e w) CoReturned
  | T_get_fault fn fp e w :
      transition dest_dir url (AwaitGet fn fp) (EvFault e) w
        (failed_with fn e w) CoReturned
  | T_chunk fn fp size chunk w :
      transition dest_dir url (AwaitChunk fn fp size) (EvChunk chunk) w
        (set_fs (<[fp := default [] (fs w !! fp) ++ chunk]> (fs w)) w)
        (AwaitChunk fn fp (size + Z.of_nat (length chunk)))
  | T_done fn fp size w :
      transition dest_dir url (AwaitChunk fn fp size) EvEndOfBody w
        (set_sem_value (sem_value w + 1)
           (set_stdout
              (stdout w ++ [DoneLine (counter "done" w + 1)
                              (counter "target" w) fn size])
              (bump "done" w)))
        CoReturned
  | T_chunk_fault fn fp size e w :
      transition dest_dir url (AwaitChunk fn fp size) (EvFault e) w
        (failed_with fn e w) CoReturned.

(** The states of a run: those the loop reaches from [main]'s initial
    state under some schedule of resumptions. *)
Definition reachable (dest_dir : string) (MAX_CONCURRENT : Z)
    (file_urls : list string) (fs0 : gmap string (list byte))
    (s : loop) : Prop :=
  ∃ s0 sched,
    main_init MAX_CONCURRENT file_urls fs0 = inr s0
    ∧ run dest_dir sched s0 = Some s.

(** ** Quantities and invariants of a run *)

(** Tasks accounted for by the four outcome counters. *)
Definition sum4 (w : world) : Z :=
  counter "done" w + counter "failed" w + counter "missing" w
  + counter "skipped" w.

Definition permit_of (c : coro) : Z := if holds_permit c then 1 else 0.

(** Exactly one outcome counter went up by one, nothing else in the
    progress record changed. *)
Definition one_counter_bumped (w w' : world) : Prop :=
  ∃ k, k ∈ counter_keys
       ∧ progress w' = <[k := counter k w + 1]> (progress w)
       ∧ counter k w' = counter k w + 1
       ∧ ∀ k', k' ≠ k → counter k' w' = counter k' w.

(** The names a suspended coroutine carries are those of its URL, and
    the file it streams into is on the filesystem. *)
Definition locals_ok (dest_dir : string) (w : world) (t : string * coro)
    : Prop :=
  match t.2 with
  | AwaitGet fn fp =>
      fn = filename_of t.1 ∧ fp = filepath_of dest_dir t.1
  | AwaitChunk fn fp _ =>
      fn = filename_of t.1 ∧ fp = filepath_of dest_dir t.1
      ∧ is_Some (fs w !! fp)
  | _ => True
  end.

Record run_inv (dest_dir : string) (MAX_CONCURRENT : Z)
    (file_urls : list string) (s : loop) : Prop := RunInv {
  inv_wf : wf_progress (progress (shared s));
  inv_target :
    progress (shared s) !! "target" = Some (Z.of_nat (length file_urls));
  inv_urls : (coros s).*1 = file_urls;
  inv_sum : sum4 (shared s) = Z.of_nat (count_where is_returned (coros s));
  inv_sem : sem_value (shared s) + Z.of_nat (holders s) = MAX_CONCURRENT;
  inv_sem_nonneg : 0 ≤ sem_value (shared s);
  inv_live : Forall (λ t, ∀ e, t.2 ≠ CoRaised e) (coros s);
  inv_locals : Forall (locals_ok dest_dir (shared s)) (coros s);
}.

(** Every task's destination file is on the filesystem [f]. *)
Definition all_present (dest_dir : string) (file_urls : list string)
    (f : gmap string (list byte)) : Prop :=
  ∀ url, url ∈ file_urls → is_Some (f !! filepath_of dest_dir url).

(** What holds throughout a run that starts with every file present. *)
Record skip_inv (fs0 : gmap string (list byte)) (s : loop) : Prop := SkipInv {
  skip_fs : fs (shared s) = fs0;
  skip_requests : requests (shared s) = [];
  skip_idle : Forall (λ t, in_network_phase t.2 = false) (coros s);
  skip_done : counter "done" (shared s) = 0;
  skip_failed : counter "failed" (shared s) = 0;
  skip_missing : counter "missing" (shared s) = 0;
}.

(** The reading of the concurrency model in which the resume check is
    not gated: permits are taken by the coroutines in their
    network-and-write phase and by no other. *)
Definition resume_check_ungated (dest_dir : string) (MAX_CONCURRENT : Z)
    (file_urls : list string) (fs0 : gmap string (list byte)) : Prop :=
  ∀ s, reachable dest_dir MAX_CONCURRENT file_urls fs0 s →
       sem_value (shared s) + Z.of_nat (in_flight s) = MAX_CONCURRENT.

(** The sampler as the specification words it for a pool that cannot
    supply the target: whatever the draws, the loop is still running. *)
Definition exhaustion_never_terminates (pool : list (Z * Z * Z)) : Prop :=
  ∀ BANDS RERUN n_fields draws,
    Z.of_nat (size (addressable pool)) < n_fields →
    is_looping (generate_urls pool BANDS RERUN n_fields draws).

(** ** Concrete runs used to exercise the statements *)

Module Demo.

Definition dir : string := "/data/raw".

Definition url1 : string :=
  "https://data.sdss.org/sas/dr17/eboss/photoObj/frames/301/752/1/frame-r-000752-1-0011.fits.bz2".
Definition url2 : string :=
  "https://data.sdss.org/sas/dr17/eboss/photoObj/frames/301/756/2/frame-r-000756-2-0123.fits.bz2".
Definition urls : list string := [url1; url2].

Definition path1 : string := "/data/raw/frame-r-000752-1-0011.fits.bz2".
Definition path2 : string := "/data/raw/frame-r-000756-2-0123.fits.bz2".

(** Both files already downloaded. *)
Definition fs_full : gmap string (list byte) :=
  {[ path1 := [x01; x02; x03]%byte; path2 := [x04]%byte ]}.

(** Only the second file already downloaded. *)
Definition fs_second : gmap string (list byte) := {[ path2 := [x04]%byte ]}.

(** The state [main] starts the loop in. *)
Definition start (MAX_CONCURRENT : Z) (fs0 : gmap string (list byte)) : loop :=
  match main_init MAX_CONCURRENT urls fs0 with
  | inr s0 => s0
  | inl _ => Loop (World ∅ ∅ 0 [] []) []
  end.

(** The state after running [sched] from it. *)
Definition after (MAX_CONCURRENT : Z) (fs0 : gmap string (list byte))
    (sched : list (nat * event)) : loop :=
  default (start MAX_CONCURRENT fs0)
    (run dir sched (start MAX_CONCURRENT fs0)).

(** Task 0 gets the permit and sends its request. *)
Definition to_request : list (nat * event) :=
  [(0, EvGrant); (0, EvStart)]%nat.

(** ... the response is a 200 and one block of the body is written. *)
Definition to_streaming : list (nat * event) :=
  to_request ++ [(0, EvResponse 200 None); (0, EvChunk [x0a; x0b]%byte)]%nat.

(** ... the transfer times out; then task 1 runs and gets a 404. *)
Definition to_completion : list (nat * event) :=
  to_streaming
  ++ [(0, EvFault TimeoutError);
      (1, EvGrant); (1, EvStart); (1, EvResponse 404 None)]%nat.

(** Task 0 gets the permit, nothing more. *)
Definition to_acquired : list (nat * event) := [(0, EvGrant)]%nat.

(** Both tasks, one after the other, find their file. *)
Definition both_skipped : list (nat * event) :=
  [(0, EvGrant); (0, EvStart); (1, EvGrant); (1, EvStart)]%nat.

(** The states the statements below are exercised on. *)
Definition requested : loop := after 1 ∅ to_request.
Definition streaming : loop := after 1 ∅ to_streaming.
Definition completed : loop := after 1 ∅ to_completion.
Definition acquired : loop := after 1 fs_full to_acquired.
Definition all_skipped : loop := after 1 fs_full both_skipped.

End Demo.

(** ** Further quantities of a run *)

(** The coroutine is past its resume check. *)
Definition past_check (c : coro) : bool :=
  match c with
  | AwaitGet _ _ | AwaitChunk _ _ _ | CoReturned => true
  | _ => false
  end.

(** The resumptions that carry one transfer of task [i] from the
    response to the end of the body. *)
Definition transfer (i : nat) (chunks : list (list byte))
    : list (nat * event) :=
  (i, EvResponse 200 None)
  :: map (λ chunk, (i, EvChunk chunk)) chunks ++ [(i, EvEndOfBody)].

(** [main] up to the point where the coroutines are gathered:
    [generate_urls(NUM_FIELDS)], then the semaphore, the progress record
    and one coroutine per URL. *)
Definition main_start (SDSS_RUNS : list (Z * Z * Z)) (BANDS : list string)
    (RERUN NUM_FIELDS MAX_CONCURRENT : Z) (draws : list (nat * nat))
    (fs0 : gmap string (list byte)) : sampled (exn + loop) :=
  match generate_urls SDSS_RUNS BANDS RERUN NUM_FIELDS draws with
  | Returned file_urls => Returned (main_init MAX_CONCURRENT file_urls fs0)
  | Raised e => Raised e
  | Looping urls picked => Looping urls picked
  end.

(** Task 0 has sent its request; the file of task 1 is already there. *)
Definition demo_requested_second : loop :=
  Demo.after 1 Demo.fs_second Demo.to_request.

(** What the requests and the console add up to. *)
Definition accounts (file_urls : list string) (s : loop) : Prop :=
  Z.of_nat (length (requests (shared s))) + counter "skipped" (shared s)
  = Z.of_nat (count_where past_check (coros s))
  ∧ Z.of_nat (length (stdout (shared s)))
    = counter "done" (shared s) + counter "failed" (shared s)
  ∧ (∀ url, url ∈ requests (shared s) → url ∈ file_urls).


(** Task 0 was streaming and timed out: a partial file is left. *)
Definition demo_aborted : loop :=
  Demo.after 1 ∅ (Demo.to_streaming ++ [(0, EvFault TimeoutError)]%nat).

(** A second run over what the first left; task 0 has its permit. *)
Definition demo_rerun : loop :=
  Demo.after 1 (fs (shared demo_aborted)) Demo.to_acquired.

(** The shipped configuration, two fields, one permit. *)
Definition demo_pipeline_start : loop :=
  match main_start Config.SDSS_RUNS Config.BANDS Config.RERUN 2 1
          [(0, 0); (152, 490); (151, 138)]%nat ∅ with
  | Returned (inr s0) => s0
  | _ => Loop (World ∅ ∅ 0 [] []) []
  end.

(** Task 1 downloads one block, then task 0 gets a 404. *)
Definition demo_pipeline_sched : list (nat * event) :=
  [(1, EvGrant); (1, EvStart)]%nat ++ transfer 1 [[x2a]%byte]
  ++ [(0, EvGrant); (0, EvStart); (0, EvResponse 404 None)]%nat.

Definition demo_pipeline_end : loop :=
  default demo_pipeline_start
    (run Demo.dir demo_pipeline_sched demo_pipeline_start).

Definition demo_two_urls : list string :=
  [ "https://data.sdss.org/sas/dr17/eboss/photoObj/frames/301/100/1/frame-r-000100-1-0011.fits.bz2";
    "https://data.sdss.org/sas/dr17/eboss/photoObj/frames/301/100/1/frame-r-000100-1-0012.fits.bz2"
  ]%string.

(** ** Characters in strings *)

(** [c in s] for a one-character [c]. *)
Fixpoint occurs (c : ascii) (s : string) : bool :=
  match s with
  | EmptyString => false
  | String c' s' => Ascii.eqb c' c || occurs c s'
  end.

(** The directory part [os.path.join(dest_dir, _)] puts before a
    relative name. *)
Definition dir_prefix (dest_dir : string) : string :=
  if (String.length dest_dir =? 0)%nat || ends_with_slash dest_dir
  then dest_dir else dest_dir +:+ "/".

(** The f-string's last path component. *)
Definition frame_name (run camcol field : Z) (band : string) : string :=
  "frame-" +:+ band +:+ "-" +:+ fmt_0d 6 run +:+ "-" +:+ fmt_d camcol
  +:+ "-" +:+ fmt_0d 4 field +:+ ".fits.bz2".

Definition demo_four_urls : list string :=
  [ "https://data.sdss.org/sas/dr17/eboss/photoObj/frames/301/100/1/frame-g-000100-1-0011.fits.bz2";
    "https://data.sdss.org/sas/dr17/eboss/photoObj/frames/301/100/1/frame-r-000100-1-0011.fits.bz2";
    "https://data.sdss.org/sas/dr17/eboss/photoObj/frames/301/100/1/frame-g-000100-1-0012.fits.bz2";
    "https://data.sdss.org/sas/dr17/eboss/photoObj/frames/301/100/1/frame-r-000100-1-0012.fits.bz2"
  ]%string.

(** The URLs of the two fields drawn in [demo_pipeline_start]. *)
Definition demo_pipeline_urls : list string :=
  match generate_urls Config.SDSS_RUNS Config.BANDS Config.RERUN 2
          [(0, 0); (152, 490); (151, 138)]%nat with
  | Returned urls => urls
  | _ => []
  end.

(** Task 1 has its response pending, task 0 has not started. *)
Definition demo_pipeline_requested : loop :=
  default demo_pipeline_start
    (run Demo.dir [(1, EvGrant); (1, EvStart)]%nat demo_pipeline_start).

(** The resumptions a coroutine needs at most to reach its end when
    nothing delays it: the grant, the start, one response. *)
Definition steps_left (c : coro) : nat :=
  match c with
  | Created => 3
  | Acquired => 2
  | AwaitGet _ _ | AwaitChunk _ _ _ => 1
  | CoReturned | CoRaised _ => 0
  end.

Definition work_left (s : loop) : nat :=
  sum_list_with (λ t, steps_left t.2) (coros s).
Example generate_urls_scenario_A :
  generate_urls [(100, 1, 50)] ["r"%string] 301 3
    [(0, 0); (0, 0); (7, 41); (2, 39)]%nat
  = Returned
      [ "https://data.sdss.org/sas/dr17/eboss/photoObj/frames/301/100/1/frame-r-000100-1-0011.fits.bz2";
        "https://data.sdss.org/sas/dr17/eboss/photoObj/frames/301/100/1/frame-r-000100-1-0012.fits.bz2";
        "https://data.sdss.org/sas/dr17/eboss/photoObj/frames/301/100/1/frame-r-000100-1-0050.fits.bz2"
      ]%string.
Proof. vm_compute. reflexivity. Qed.

(** ** Properties of the sampler *)

Section SamplerFacts.

Variable SDSS_RUNS : list (Z * Z * Z).
Variable BANDS : list string.
Variable RERUN : Z.

Abbreviation sample_loop := (sample_loop SDSS_RUNS BANDS RERUN).
Abbreviation generate_urls := (generate_urls SDSS_RUNS BANDS RERUN).
Abbreviation key_urls := (key_urls BANDS RERUN).
Abbreviation sampler_inv := (sampler_inv SDSS_RUNS BANDS RERUN).

Lemma sample_loop_unfold n draws urls picked :
  sample_loop n draws urls picked =
  if bool_decide (Z.of_nat (size picked) < n) then
    match draws with
    | [] => Looping urls picked
    | (r1, r2) :: draws' =>
        match random_choice r1 SDSS_RUNS with
        | inl e => Raised e
        | inr (run, camcol, max_field) =>
            match random_randint r2 11 (Z.min max_field 500) with
            | inl e => Raised e
            | inr field =>
                if bool_decide ((run, camcol, field) ∈ picked) then
                  sample_loop n draws' urls picked
                else
                  sample_loop n draws' (urls ++ key_urls (run, camcol, field))
                    ({[ (run, camcol, field) ]} ∪ picked)
            end
        end
    end
  else Returned (urls, picked).
Proof. destruct draws; reflexivity. Qed.

Lemma length_key_urls k : length (key_urls k) = length BANDS.
Proof. destruct k as [[run camcol] field]. apply length_map. Qed.

Lemma length_flat_map_key_urls keys :
  length (flat_map key_urls keys) = (length keys * length BANDS)%nat.
Proof.
  induction keys as [|k keys IH]; [reflexivity|].
  cbn [flat_map]. rewrite length_app, length_key_urls, IH. simpl. lia.
Qed.

Lemma random_choice_elem {A} r (seq : list A) x :
  random_choice r seq = inr x → x ∈ seq.
Proof.
  unfold random_choice. destruct (seq !! _) eqn:E; [|discriminate].
  intros [= <-]. eapply list_elem_of_lookup_2, E.
Qed.

Lemma random_choice_nonempty {A} r (seq : list A) :
  seq ≠ [] → ∃ x, random_choice r seq = inr x.
Proof.
  intros Hne. unfold random_choice.
  destruct (seq !! _) eqn:E; [eauto|].
  apply lookup_ge_None in E. destruct seq; [done|].
  pose proof (Nat.mod_upper_bound r (length (a :: seq))) as Hlt.
  simpl in *. lia.
Qed.

Lemma random_randint_range r a b x :
  random_randint r a b = inr x → a ≤ x ≤ b.
Proof.
  unfold random_randint. destruct (Z.leb_spec (b - a + 1) 0); [discriminate|].
  intros [= <-].
  pose proof (Z.mod_pos_bound (Z.of_nat r) (b - a + 1)). lia.
Qed.

Lemma random_randint_nonempty r a b :
  a ≤ b → ∃ x, random_randint r a b = inr x.
Proof.
  intros Hab. unfold random_randint.
  destruct (Z.leb_spec (b - a + 1) 0); [lia|eauto].
Qed.

Lemma elem_of_range_keys run camcol max_field k :
  k ∈ range_keys (run, camcol, max_field) ↔
  ∃ m, k = (run, camcol, m) ∧ 11 ≤ m ≤ Z.min max_field 500.
Proof.
  unfold range_keys. rewrite elem_of_list_to_set, list_elem_of_fmap.
  split.
  - intros (m & -> & Hm). apply elem_of_seqZ in Hm. exists m. split; [done|lia].
  - intros (m & -> & Hm). exists m. split; [done|]. apply elem_of_seqZ. lia.
Qed.

Lemma elem_of_addressable pool k :
  k ∈ addressable pool ↔
  ∃ run camcol max_field m,
    (run, camcol, max_field) ∈ pool ∧ k = (run, camcol, m)
    ∧ 11 ≤ m ≤ Z.min max_field 500.
Proof.
  unfold addressable. rewrite elem_of_union_list. split.
  - intros (X & HX & Hk). apply list_elem_of_fmap in HX as ([[run camcol] mf] & -> & Hin).
    apply elem_of_range_keys in Hk as (m & -> & Hm). by exists run, camcol, mf, m.
  - intros (run & camcol & mf & m & Hin & -> & Hm).
    exists (range_keys (run, camcol, mf)). split.
    + apply list_elem_of_fmap. by exists (run, camcol, mf).
    + apply elem_of_range_keys. by exists m.
Qed.

Lemma sampler_inv_size keys urls picked :
  sampler_inv keys urls picked → size picked = length keys.
Proof.
  intros (Hnd & -> & _ & _). by apply size_list_to_set.
Qed.

Lemma sampler_inv_init : sampler_inv [] [] ∅.
Proof.
  split; [constructor|]. split; [done|]. split; [done|]. set_solver.
Qed.

Lemma sampler_inv_accept keys urls picked run camcol max_field field :
  sampler_inv keys urls picked →
  (run, camcol, max_field) ∈ SDSS_RUNS →
  11 ≤ field ≤ Z.min max_field 500 →
  (run, camcol, field) ∉ picked →
  sampler_inv (keys ++ [(run, camcol, field)])
    (urls ++ key_urls (run, camcol, field))
    ({[ (run, camcol, field) ]} ∪ picked).
Proof.
  intros (Hnd & -> & -> & Hsub) Hin Hf Hnew.
  split; [|split; [|split]].
  - apply NoDup_app. split; [done|]. split; [|apply NoDup_singleton].
    intros x Hx ->%list_elem_of_singleton. apply Hnew.
    by apply elem_of_list_to_set.
  - rewrite list_to_set_snoc_L. apply union_comm_L.
  - rewrite flat_map_app. simpl. by rewrite app_nil_r.
  - apply union_subseteq. split; [|done].
    apply singleton_subseteq_l, elem_of_addressable.
    by exists run, camcol, max_field, field.
Qed.

Lemma sample_loop_returned n draws : ∀ keys urls picked urls' picked',
  sampler_inv keys urls picked →
  Z.of_nat (size picked) ≤ n →
  sample_loop n draws urls picked = Returned (urls', picked') →
  ∃ keys', sampler_inv keys' urls' picked' ∧ Z.of_nat (size picked') = n.
Proof.
  induction draws as [|[r1 r2] draws IH]; intros keys urls picked urls' picked' Hinv Hle;
    rewrite sample_loop_unfold; case_bool_decide as Hlt; try discriminate.
  - intros [= <- <-]. exists keys. split; [done|lia].
  - destruct (random_choice r1 SDSS_RUNS) as [e|[[run camcol] mf]] eqn:Hc;
      [discriminate|].
    destruct (random_randint r2 11 (Z.min mf 500)) as [e|field] eqn:Hr;
      [discriminate|].
    case_bool_decide as Hdup.
    + by apply IH with keys.
    + apply IH with (keys ++ [(run, camcol, field)]).
      * apply sampler_inv_accept with mf; eauto using random_choice_elem, random_randint_range.
      * rewrite size_union by (by apply disjoint_singleton_l).
        rewrite size_singleton. lia.
  - intros [= <- <-]. exists keys. split; [done|lia].
Qed.

Lemma sample_loop_exhausted n draws : ∀ keys urls picked,
  SDSS_RUNS ≠ [] → pool_ranges_valid SDSS_RUNS →
  Z.of_nat (size (addressable SDSS_RUNS)) < n →
  sampler_inv keys urls picked →
  ∃ urls' picked',
    sample_loop n draws urls picked = Looping urls' picked'
    ∧ Z.of_nat (size picked') < n.
Proof.
  intros keys urls picked Hne Hvalid Hn. revert keys urls picked.
  induction draws as [|[r1 r2] draws IH]; intros keys urls picked Hinv;
    rewrite sample_loop_unfold;
    (assert (Z.of_nat (size picked) < n) as Hlt
      by (destruct Hinv as (_ & _ & _ & Hsub);
          apply subseteq_size in Hsub; lia));
    rewrite bool_decide_eq_true_2 by done.
  - eauto.
  - destruct (random_choice_nonempty r1 SDSS_RUNS Hne) as ([[run camcol] mf] & Hc).
    rewrite Hc. pose proof (random_choice_elem _ _ _ Hc) as Hin.
    assert (11 ≤ mf) as Hmf.
    { unfold pool_ranges_valid in Hvalid. rewrite Forall_forall in Hvalid.
      apply (Hvalid _ Hin). }
    destruct (random_randint_nonempty r2 11 (Z.min mf 500)) as (field & Hr); [lia|].
    rewrite Hr. case_bool_decide as Hdup.
    + by apply IH with keys.
    + apply IH with (keys ++ [(run, camcol, field)]).
      apply sampler_inv_accept with mf; eauto using random_randint_range.
Qed.

(** Draws that keep hitting an accepted key are rejected one after the
    other, with no bound on how many. *)
Lemma sample_loop_rejects n r1 r2 run camcol max_field field j urls picked :
  random_choice r1 SDSS_RUNS = inr (run, camcol, max_field) →
  random_randint r2 11 (Z.min max_field 500) = inr field →
  (run, camcol, field) ∈ picked →
  Z.of_nat (size picked) < n →
  sample_loop n (replicate j (r1, r2)) urls picked = Looping urls picked.
Proof.
  intros Hc Hr Hin Hlt.
  induction j as [|j IH]; cbn [replicate]; rewrite sample_loop_unfold;
    rewrite bool_decide_eq_true_2 by done; [done|].
  rewrite Hc, Hr. by rewrite bool_decide_eq_true_2.
Qed.

Lemma sample_loop_first_then_rejects n j :
  SDSS_RUNS ≠ [] → pool_ranges_valid SDSS_RUNS → 2 ≤ n →
  ∃ k, sample_loop n (replicate (S j) (0, 0)%nat) [] ∅
       = Looping (key_urls k) {[ k ]}.
Proof.
  intros Hne Hvalid Hn.
  destruct (random_choice_nonempty 0 SDSS_RUNS Hne) as ([[run camcol] mf] & Hc).
  pose proof (random_choice_elem _ _ _ Hc) as Hin.
  assert (11 ≤ mf) as Hmf.
  { unfold pool_ranges_valid in Hvalid. rewrite Forall_forall in Hvalid.
    apply (Hvalid _ Hin). }
  destruct (random_randint_nonempty 0 11 (Z.min mf 500)) as (field & Hr); [lia|].
  exists (run, camcol, field).
  cbn [replicate]. rewrite sample_loop_unfold.
  rewrite size_empty, bool_decide_eq_true_2 by lia.
  rewrite Hc, Hr, bool_decide_eq_false_2 by apply not_elem_of_empty.
  rewrite union_empty_r_L, app_nil_l.
  eapply sample_loop_rejects; eauto.
  - by apply elem_of_singleton.
  - rewrite size_singleton. lia.
Qed.

Lemma addressable_nonempty :
  SDSS_RUNS ≠ [] → pool_ranges_valid SDSS_RUNS →
  (1 ≤ size (addressable SDSS_RUNS))%nat.
Proof.
  intros Hne Hvalid.
  destruct (random_choice_nonempty 0 SDSS_RUNS Hne) as ([[run camcol] mf] & Hc).
  pose proof (random_choice_elem _ _ _ Hc) as Hin.
  assert (11 ≤ mf) as Hmf.
  { unfold pool_ranges_valid in Hvalid. rewrite Forall_forall in Hvalid.
    apply (Hvalid _ Hin). }
  assert ((run, camcol, 11) ∈ addressable SDSS_RUNS) as Hk.
  { apply elem_of_addressable. exists run, camcol, mf, 11.
    split; [done|]. split; [done|]. lia. }
  rewrite <- (size_singleton (C:=gset key) (run, camcol, 11)).
  apply subseteq_size. by apply singleton_subseteq_l.
Qed.

Lemma size_list_to_set_le (l : list key) :
  (size (list_to_set l : gset key) ≤ length l)%nat.
Proof.
  induction l as [|k l IH]; cbn [list_to_set length].
  - by rewrite size_empty.
  - rewrite size_union_alt, size_singleton.
    assert (size (list_to_set l ∖ {[k]} : gset key)
            ≤ size (list_to_set l : gset key))%nat
      by (apply subseteq_size, subseteq_difference_l; done).
    lia.
Qed.

Lemma size_range_keys r : (size (range_keys r) ≤ 490)%nat.
Proof.
  destruct r as [[run camcol] mf]. unfold range_keys.
  etransitivity; [apply size_list_to_set_le|].
  rewrite length_map, length_seqZ. lia.
Qed.

End SamplerFacts.

(** A pool addresses at most 490 keys per entry. *)
Lemma size_addressable_le pool :
  (size (addressable pool) ≤ 490 * length pool)%nat.
Proof.
  unfold addressable. induction pool as [|r pool IH]; cbn [map length].
  - rewrite union_list_nil, size_empty. lia.
  - rewrite union_list_cons, size_union_alt.
    pose proof (size_range_keys r) as Hr.
    assert (size (⋃ map range_keys pool ∖ range_keys r)
            ≤ size (⋃ map range_keys pool))%nat
      by (apply subseteq_size, subseteq_difference_l; done).
    lia.
Qed.

Section SamplerFacts2.

Variable SDSS_RUNS : list (Z * Z * Z).
Variable BANDS : list string.
Variable RERUN : Z.

Abbreviation sample_loop := (sample_loop SDSS_RUNS BANDS RERUN).
Abbreviation sampler_inv := (sampler_inv SDSS_RUNS BANDS RERUN).

(** A pool that cannot supply [n] keys never lets the loop return. *)
Lemma sample_loop_never_returns n draws urls picked :
  Z.of_nat (size (addressable SDSS_RUNS)) < n →
  sample_loop n draws [] ∅ ≠ Returned (urls, picked).
Proof.
  intros Hn Hret.
  destruct (sample_loop_returned SDSS_RUNS BANDS RERUN n draws [] [] ∅
              urls picked (sampler_inv_init _ _ _))
    as (keys & (_ & _ & _ & Hsub) & Hsize); [rewrite size_empty; lia|done|].
  apply subseteq_size in Hsub. lia.
Qed.

End SamplerFacts2.

(** The pool and the bands the program ships with. *)
Example shipped_pool_valid :
  Config.SDSS_RUNS ≠ [] ∧ pool_ranges_valid Config.SDSS_RUNS.
Proof.
  split; [discriminate|].
  assert (forallb (λ r : Z * Z * Z, 11 <=? r.2) Config.SDSS_RUNS = true)
    as Hall by (vm_compute; reflexivity).
  apply Forall_forall. intros r Hr%list_elem_of_In.
  apply Z.leb_le. exact (proj1 (forallb_forall _ _) Hall r Hr).
Qed.

Example shipped_sample :
  generate_urls Config.SDSS_RUNS Config.BANDS Config.RERUN 2
    [(0, 0); (152, 490); (151, 138)]%nat
  = Returned
      [ "https://data.sdss.org/sas/dr17/eboss/photoObj/frames/301/752/1/frame-r-000752-1-0011.fits.bz2";
        "https://data.sdss.org/sas/dr17/eboss/photoObj/frames/301/6648/4/frame-r-006648-4-0149.fits.bz2"
      ]%string.
Proof. vm_compute. reflexivity. Qed.

(** ** The monadic code against its relational reading *)

Section WorkerFacts.

Variable dest_dir : string.

Ltac unfold_monad :=
  unfold run_segment, body_start, on_response, on_chunk, on_end_of_body,
    on_fault, try_except, handler, raise, open_wb, file_write, session_get,
    os_path_exists, print, dict_incr, dict_get, mbind, M_bind, mret, M_ret.

Ltac fold_world :=
  unfold failed_with, bump, counter, release; cbn.

Lemma run_body_start_skip url w :
  wf_progress (progress w) →
  is_Some (fs w !! filepath_of dest_dir url) →
  run_segment (body_start dest_dir url) w
  = (set_sem_value (sem_value w + 1) (bump "skipped" w), CoReturned).
Proof.
  intros (_ & _ & _ & [sk Hs] & _) Hex. unfold_monad. cbn.
  rewrite bool_decide_eq_true_2 by done. cbn. rewrite Hs. cbn.
  fold_world. by rewrite Hs.
Qed.

Lemma run_body_start_request url w :
  fs w !! filepath_of dest_dir url = None →
  run_segment (body_start dest_dir url) w
  = (set_requests (requests w ++ [url]) w,
     AwaitGet (filename_of url) (filepath_of dest_dir url)).
Proof.
  intros Hno. unfold_monad. cbn.
  rewrite bool_decide_eq_false_2; [done|].
  rewrite Hno. by intros [? ?].
Qed.

Lemma run_on_response_404 fn fp open_err w :
  wf_progress (progress w) →
  run_segment (on_response fn fp 404 open_err) w
  = (set_sem_value (sem_value w + 1) (bump "missing" w), CoReturned).
Proof.
  intros (_ & _ & [m Hm] & _ & _). unfold_monad. cbn. rewrite Hm. cbn.
  fold_world. by rewrite Hm.
Qed.

Lemma run_on_response_error fn fp status open_err w :
  wf_progress (progress w) → status ≠ 404 → status ≠ 200 →
  run_segment (on_response fn fp status open_err) w
  = (set_sem_value (sem_value w + 1)
       (bump "failed" (set_stdout (stdout w ++ [HttpErrorLine status fn]) w)),
     CoReturned).
Proof.
  intros (_ & [f Hf] & _ & _ & _) H404 H200. unfold_monad.
  destruct (Z.eqb_spec status 404); [done|].
  destruct (Z.eqb_spec status 200); [done|]. cbn. rewrite Hf. cbn.
  fold_world. by rewrite Hf.
Qed.

Lemma run_on_response_open fn fp w :
  run_segment (on_response fn fp 200 None) w
  = (set_fs (<[fp := []]> (fs w)) w, AwaitChunk fn fp 0).
Proof. reflexivity. Qed.

Lemma run_handler_fault fn e w :
  wf_progress (progress w) →
  run_segment (handler fn e) w = (failed_with fn e w, CoReturned).
Proof.
  intros (_ & [f Hf] & _ & _ & _). unfold_monad.
  destruct e; cbn; rewrite Hf; cbn; fold_world; by rewrite Hf.
Qed.

Lemma run_on_response_open_fail fn fp e w :
  wf_progress (progress w) →
  run_segment (on_response fn fp 200 (Some e)) w
  = (failed_with fn e w, CoReturned).
Proof. intros Hwf. by rewrite <- (run_handler_fault fn e w Hwf). Qed.

Lemma run_on_fault fn e w :
  wf_progress (progress w) →
  run_segment (on_fault fn e) w = (failed_with fn e w, CoReturned).
Proof. intros Hwf. by rewrite <- (run_handler_fault fn e w Hwf). Qed.

Lemma run_on_chunk fn fp size chunk w :
  run_segment (on_chunk fn fp size chunk) w
  = (set_fs (<[fp := default [] (fs w !! fp) ++ chunk]> (fs w)) w,
     AwaitChunk fn fp (size + Z.of_nat (length chunk))).
Proof. reflexivity. Qed.

Lemma run_on_end_of_body fn fp size w :
  wf_progress (progress w) →
  run_segment (on_end_of_body fn fp size) w
  = (set_sem_value (sem_value w + 1)
       (set_stdout
          (stdout w ++ [DoneLine (counter "done" w + 1) (counter "target" w)
                          fn size])
          (bump "done" w)),
     CoReturned).
Proof.
  intros ([d Hd] & [f Hf] & [m Hm] & _ & [t Ht]). unfold_monad. cbn.
  rewrite Hd. cbn.
  repeat (progress (rewrite ?lookup_insert_eq, ?Hf, ?Hm, ?Ht;
                    try rewrite !lookup_insert_ne by done; cbn)).
  fold_world. by rewrite Hd, Ht.
Qed.

(** With the five keys present, [resume] does exactly what
    [transition] says. *)
Lemma resume_transition url c ev w w' c' :
  wf_progress (progress w) →
  resume dest_dir url c ev w = Some (w', c') →
  transition dest_dir url c ev w w' c'.
Proof.
  intros Hwf H.
  destruct c, ev; simpl in H; try discriminate; revert H.
  - destruct (Z.ltb_spec 0 (sem_value w)); [|discriminate].
    intros [= <- <-]. by constructor.
  - destruct (fs w !! filepath_of dest_dir url) as [content|] eqn:Hex.
    + rewrite run_body_start_skip by (by rewrite ?Hex). intros [= <- <-].
      constructor. by rewrite Hex.
    + rewrite run_body_start_request by done. intros [= <- <-]. by constructor.
  - destruct (decide (status = 404)) as [->|H404].
    { rewrite run_on_response_404 by done. intros [= <- <-]. constructor. }
    destruct (decide (status = 200)) as [->|H200].
    + destruct open_err as [e|].
      * rewrite run_on_response_open_fail by done. intros [= <- <-]. constructor.
      * rewrite run_on_response_open. intros [= <- <-]. constructor.
    + rewrite run_on_response_error by done. intros [= <- <-]. by constructor.
  - rewrite run_on_fault by done. intros [= <- <-]. constructor.
  - rewrite run_on_chunk. intros [= <- <-]. constructor.
  - rewrite run_on_end_of_body by done. intros [= <- <-]. constructor.
  - rewrite run_on_fault by done. intros [= <- <-]. constructor.
Qed.

Lemma transition_resume url c ev w w' c' :
  wf_progress (progress w) →
  transition dest_dir url c ev w w' c' →
  resume dest_dir url c ev w = Some (w', c').
Proof.
  intros Hwf H. destruct H; simpl.
  - by rewrite (proj2 (Z.ltb_lt _ _)).
  - by rewrite run_body_start_skip.
  - by rewrite run_body_start_request.
  - by rewrite run_on_response_404.
  - by rewrite run_on_response_error.
  - by rewrite run_on_response_open.
  - by rewrite run_on_response_open_fail.
  - by rewrite run_on_fault.
  - by rewrite run_on_chunk.
  - by rewrite run_on_end_of_body.
  - by rewrite run_on_fault.
Qed.

End WorkerFacts.

Example demo_paths :
  filepath_of Demo.dir Demo.url1 = Demo.path1
  ∧ filepath_of Demo.dir Demo.url2 = Demo.path2
  ∧ os_path_join "out/" "a.fits" = "out/a.fits"%string
  ∧ os_path_join "out" "/abs/a.fits" = "/abs/a.fits"%string
  ∧ split "/" "a//b" = ["a"; EmptyString; "b"]%string.
Proof. repeat split; vm_compute; reflexivity. Qed.

(** ** Frame: which keys of the progress record the worker writes *)

Section Frame.

Variable dest_dir : string.

Lemma frame_eq_refl w : frame_eq w w.
Proof. by intros k _. Qed.

Lemma frame_eq_trans w1 w2 w3 :
  frame_eq w1 w2 → frame_eq w2 w3 → frame_eq w1 w3.
Proof. intros H12 H23 k Hk. by rewrite H23, H12. Qed.

Lemma framed_ret {A} (a : A) : framed (mret a).
Proof. intros w. apply frame_eq_refl. Qed.

Lemma framed_raise {A} e : framed (@raise A e).
Proof. intros w. apply frame_eq_refl. Qed.

Lemma framed_bind {A B} (m : M A) (f : A → M B) :
  framed m → (∀ a, framed (f a)) → framed (m ≫= f).
Proof.
  intros Hm Hf w. specialize (Hm w). unfold mbind, M_bind.
  destruct (m w) as [w1 [e|a]]; [done|].
  eapply frame_eq_trans; [exact Hm|apply Hf].
Qed.

Lemma framed_try_except {A} (m : M A) (h : exn → M A) :
  framed m → (∀ e, framed (h e)) → framed (try_except m h).
Proof.
  intros Hm Hh w. specialize (Hm w). unfold try_except.
  destruct (m w) as [w1 [e|a]]; [|done].
  eapply frame_eq_trans; [exact Hm|apply Hh].
Qed.

Lemma framed_dict_incr k : k ∈ counter_keys → framed (dict_incr k).
Proof.
  intros Hk w. unfold dict_incr.
  destruct (progress w !! k) as [v|]; [|apply frame_eq_refl].
  intros k' Hk'. cbn. apply lookup_insert_ne. by intros ->.
Qed.

Lemma framed_dict_get k : framed (dict_get k).
Proof.
  intros w. unfold dict_get.
  destruct (progress w !! k); apply frame_eq_refl.
Qed.

Lemma framed_print l : framed (print l).
Proof. by intros w k _. Qed.

Lemma framed_os_path_exists p : framed (os_path_exists p).
Proof. by intros w k _. Qed.

Lemma framed_open_wb p err : framed (open_wb p err).
Proof. destruct err; by intros w k _. Qed.

Lemma framed_file_write p chunk : framed (file_write p chunk).
Proof. by intros w k _. Qed.

Lemma framed_session_get url : framed (session_get url).
Proof. by intros w k _. Qed.

Create HintDb framed discriminated.

#[local] Hint Resolve framed_ret framed_raise framed_dict_get framed_print
  framed_os_path_exists framed_open_wb framed_file_write framed_session_get
  : framed.
#[local] Hint Extern 1 (framed (dict_incr _)) =>
  apply framed_dict_incr; unfold counter_keys; set_solver : framed.
#[local] Hint Extern 2 (framed (_ ≫= _)) =>
  apply framed_bind; [|intros ?] : framed.
#[local] Hint Extern 2 (framed (try_except _ _)) =>
  apply framed_try_except; [|intros ?] : framed.

Lemma framed_handler fn e : framed (handler fn e).
Proof. unfold handler. destruct e; auto 10 with framed. Qed.

#[local] Hint Resolve framed_handler : framed.

Lemma framed_body_start url : framed (body_start dest_dir url).
Proof.
  unfold body_start. apply framed_bind; [auto with framed|].
  intros []; auto 10 with framed.
Qed.

Lemma framed_on_response fn fp status open_err :
  framed (on_response fn fp status open_err).
Proof.
  unfold on_response. apply framed_try_except; [|auto with framed].
  destruct (status =? 404); [auto 10 with framed|].
  destruct (negb (status =? 200)); auto 10 with framed.
Qed.

Lemma framed_on_chunk fn fp size chunk : framed (on_chunk fn fp size chunk).
Proof. unfold on_chunk. auto 10 with framed. Qed.

Lemma framed_on_end_of_body fn fp size : framed (on_end_of_body fn fp size).
Proof. unfold on_end_of_body. auto 20 with framed. Qed.

Lemma framed_on_fault fn e : framed (on_fault fn e).
Proof. unfold on_fault. auto with framed. Qed.

Lemma frame_run_segment (m : M coro) w :
  framed m → frame_eq w (run_segment m w).1.
Proof.
  intros Hm. specialize (Hm w). unfold run_segment.
  destruct (m w) as [w1 [e|[]]]; exact Hm.
Qed.

Lemma frame_resume url c ev w w' c' :
  resume dest_dir url c ev w = Some (w', c') → frame_eq w w'.
Proof.
  intros H. unfold resume in H.
  destruct c, ev; try discriminate; cbv beta iota in H;
    try (apply (inj Some) in H; apply (f_equal fst) in H; cbn [fst] in H;
         subst w'; apply frame_run_segment).
  - destruct (0 <? sem_value w); [|discriminate].
    injection H as <- <-. by intros k _.
  - apply framed_body_start.
  - apply framed_on_response.
  - apply framed_on_fault.
  - apply framed_on_chunk.
  - apply framed_on_end_of_body.
  - apply framed_on_fault.
Qed.

End Frame.

(** ** Effects of one transition *)

Section TransitionFacts.

Variable dest_dir : string.

Lemma counter_bump k k' w :
  counter k (bump k' w)
  = if decide (k' = k) then counter k' w + 1 else counter k w.
Proof.
  unfold bump, counter at 1. cbn. rewrite lookup_insert.
  by destruct (decide (k' = k)).
Qed.

Lemma bump_one_counter k w w' :
  k ∈ counter_keys → progress w' = progress (bump k w) →
  one_counter_bumped w w'.
Proof.
  intros Hk Hp. exists k. split; [done|]. split; [done|].
  unfold counter at 1 3. rewrite Hp. split.
  - fold (counter k (bump k w)). rewrite counter_bump. by rewrite decide_True.
  - intros k' Hne. fold (counter k' (bump k w)). rewrite counter_bump.
    by rewrite decide_False.
Qed.

Lemma wf_progress_insert k v p :
  wf_progress p → wf_progress (<[k := v]> p).
Proof.
  intros (Hd & Hf & Hm & Hs & Ht).
  repeat split; (rewrite lookup_insert; case_decide; [by eexists|done]).
Qed.

Lemma one_counter_bumped_wf w w' :
  one_counter_bumped w w' → wf_progress (progress w) →
  wf_progress (progress w').
Proof. intros (k & _ & -> & _) Hwf. by apply wf_progress_insert. Qed.

Lemma one_counter_bumped_sum4 w w' :
  one_counter_bumped w w' → sum4 w' = sum4 w + 1.
Proof.
  intros (k & Hk & _ & Heq & Hne). unfold sum4, counter_keys in *.
  repeat (apply elem_of_cons in Hk as [->|Hk];
    [rewrite Heq, !Hne by done; lia|]).
  by apply elem_of_nil in Hk.
Qed.

(** A transition that ends the coroutine increments exactly one
    counter; any other leaves the progress record alone. *)
Lemma transition_progress url c ev w w' c' :
  transition dest_dir url c ev w w' c' →
  if is_returned c' then one_counter_bumped w w'
  else progress w' = progress w.
Proof.
  destruct 1; cbn [is_returned]; try reflexivity;
    (eapply bump_one_counter; [|reflexivity]);
    unfold counter_keys; set_solver.
Qed.

Lemma transition_sem url c ev w w' c' :
  transition dest_dir url c ev w w' c' →
  sem_value w' + permit_of c' = sem_value w + permit_of c
  ∧ (0 ≤ sem_value w → 0 ≤ sem_value w').
Proof. destruct 1; cbn; lia. Qed.

Lemma transition_live url c ev w w' c' :
  transition dest_dir url c ev w w' c' →
  is_returned c = false ∧ ∀ e, c' ≠ CoRaised e.
Proof. destruct 1; split; done. Qed.

Lemma transition_fs_mono url c ev w w' c' path :
  transition dest_dir url c ev w w' c' →
  is_Some (fs w !! path) → is_Some (fs w' !! path).
Proof.
  destruct 1; cbn; try done; intros Hp;
    (rewrite lookup_insert; case_decide; [by eexists|done]).
Qed.

Lemma transition_locals url c ev w w' c' :
  transition dest_dir url c ev w w' c' →
  locals_ok dest_dir w (url, c) → locals_ok dest_dir w' (url, c').
Proof.
  destruct 1; unfold locals_ok; cbn; try done.
  - intros (-> & ->). by rewrite lookup_insert_eq.
  - intros (-> & -> & _). by rewrite lookup_insert_eq.
Qed.

Lemma locals_ok_mono w w' t :
  (∀ path, is_Some (fs w !! path) → is_Some (fs w' !! path)) →
  locals_ok dest_dir w t → locals_ok dest_dir w' t.
Proof.
  intros Hmono. unfold locals_ok. destruct (t.2); try done.
  intros (? & ? & ?). auto.
Qed.

Lemma transition_created url ev w w' c' :
  transition dest_dir url Created ev w w' c' →
  ev = EvGrant ∧ 0 < sem_value w
  ∧ w' = set_sem_value (sem_value w - 1) w ∧ c' = Acquired.
Proof. inversion 1; subst. by repeat split. Qed.

Lemma transition_start url c w w' c' :
  transition dest_dir url c EvStart w w' c' →
  c = Acquired
  ∧ ((is_Some (fs w !! filepath_of dest_dir url)
      ∧ w' = set_sem_value (sem_value w + 1) (bump "skipped" w)
      ∧ c' = CoReturned)
     ∨ (fs w !! filepath_of dest_dir url = None
        ∧ w' = set_requests (requests w ++ [url]) w
        ∧ c' = AwaitGet (filename_of url) (filepath_of dest_dir url))).
Proof. inversion 1; subst; (split; [done|]); [left|right]; by repeat split. Qed.

End TransitionFacts.

(** ** The invariant of a run *)

Section RunFacts.

Variable dest_dir : string.
Variable MAX_CONCURRENT : Z.
Variable file_urls : list string.
Variable fs0 : gmap string (list byte).

Lemma target_not_counter : "target"%string ∉ counter_keys.
Proof.
  unfold counter_keys. intros H.
  repeat (apply elem_of_cons in H as [?|H]; [done|]).
  by apply elem_of_nil in H.
Qed.

Lemma step_unfold i ev s s' :
  step dest_dir i ev s = Some s' ↔
  ∃ url c w' c',
    coros s !! i = Some (url, c)
    ∧ resume dest_dir url c ev (shared s) = Some (w', c')
    ∧ s' = Loop w' (<[i := (url, c')]> (coros s)).
Proof.
  unfold step. split.
  - destruct (coros s !! i) as [[url c]|] eqn:Hi; [|done]. cbn.
    destruct (resume dest_dir url c ev (shared s)) as [[w' c']|] eqn:Hr;
      [|done]. cbn.
    intros [= <-]. by exists url, c, w', c'.
  - intros (url & c & w' & c' & -> & Hr & ->). cbn. by rewrite Hr.
Qed.

Lemma count_where_insert P (cs : list (string * coro)) i url c c' :
  cs !! i = Some (url, c) →
  (count_where P (<[i := (url, c')]> cs) + (if P c then 1 else 0)
   = count_where P cs + (if P c' then 1 else 0))%nat.
Proof.
  unfold count_where. revert i.
  induction cs as [|t cs IH]; intros [|i] Hi; try done.
  - injection Hi as Ht. subst t.
    change (<[0%nat := (url, c')]> ((url, c) :: cs)) with ((url, c') :: cs).
    cbn [sum_list_with snd]. clear IH.
    generalize (sum_list_with (λ t : string * coro, if P t.2 then 1 else 0)%nat cs).
    intros n. destruct (P c), (P c'); lia.
  - specialize (IH i Hi). revert IH.
    change (<[S i := (url, c')]> (t :: cs)) with (t :: <[i := (url, c')]> cs).
    cbn [sum_list_with].
    generalize (sum_list_with (λ t : string * coro, if P t.2 then 1 else 0)%nat cs).
    generalize (sum_list_with (λ t : string * coro, if P t.2 then 1 else 0)%nat
                  (<[i:=(url, c')]> cs)).
    intros n m. destruct (P t.2), (P c), (P c'); lia.
Qed.

Lemma count_where_le P (cs : list (string * coro)) :
  (count_where P cs ≤ length cs)%nat.
Proof.
  unfold count_where. induction cs as [|t cs IH]; cbn; [lia|].
  destruct (P t.2); lia.
Qed.

Lemma count_where_mono (P Q : coro → bool) (cs : list (string * coro)) :
  (∀ c, P c = true → Q c = true) →
  (count_where P cs ≤ count_where Q cs)%nat.
Proof.
  intros HPQ. unfold count_where. induction cs as [|t cs IH]; cbn; [lia|].
  destruct (P t.2) eqn:HP; [rewrite (HPQ _ HP)|destruct (Q t.2)]; lia.
Qed.

Lemma count_where_all P (cs : list (string * coro)) :
  forallb (λ t, P t.2) cs = true → count_where P cs = length cs.
Proof.
  unfold count_where. induction cs as [|t cs IH]; cbn; [done|].
  intros [Ht Hcs]%andb_prop. rewrite Ht, IH by done. lia.
Qed.

Lemma count_where_created P (urls : list string) :
  P Created = false →
  count_where P (map (λ url, (url, Created)) urls) = 0%nat.
Proof.
  intros HP. unfold count_where. induction urls as [|u urls IH]; cbn; [done|].
  by rewrite HP, IH.
Qed.

Lemma main_init_inv s0 :
  main_init MAX_CONCURRENT file_urls fs0 = inr s0 →
  run_inv dest_dir MAX_CONCURRENT file_urls s0.
Proof.
  unfold main_init, Semaphore.
  destruct (Z.ltb_spec MAX_CONCURRENT 0); [done|]. intros [= <-].
  split; cbn [shared coros progress sem_value].
  - unfold wf_progress, initial_progress. repeat split; by eexists.
  - done.
  - change map with (@fmap list _). rewrite <- list_fmap_compose.
    apply list_fmap_id.
  - by rewrite count_where_created.
  - unfold holders. cbn [coros]. rewrite count_where_created by done. lia.
  - done.
  - apply Forall_forall. intros t [url [-> _]]%list_elem_of_fmap. done.
  - apply Forall_forall. intros t [url [-> _]]%list_elem_of_fmap. done.
Qed.

Lemma step_inv i ev s s' :
  run_inv dest_dir MAX_CONCURRENT file_urls s →
  step dest_dir i ev s = Some s' →
  run_inv dest_dir MAX_CONCURRENT file_urls s'.
Proof.
  intros [Hwf Htgt Hurls Hsum Hsem Hnn Hlive Hloc]
    (url & c & w' & c' & Hi & Hr & ->)%step_unfold.
  pose proof (frame_resume _ _ _ _ _ _ _ Hr) as Hframe.
  apply resume_transition in Hr; [|done].
  pose proof (transition_progress _ _ _ _ _ _ _ Hr) as Hprog.
  pose proof (transition_sem _ _ _ _ _ _ _ Hr) as [Hs1 Hs2].
  pose proof (transition_live _ _ _ _ _ _ _ Hr) as [Hsrc Hdst].
  pose proof (count_where_insert is_returned _ _ _ _ c' Hi) as Hcr.
  pose proof (count_where_insert holds_permit _ _ _ _ c' Hi) as Hch.
  rewrite Hsrc in Hcr.
  split; cbn [shared coros].
  - destruct (is_returned c'); [by eapply one_counter_bumped_wf|by rewrite Hprog].
  - rewrite Hframe; [done|]. apply target_not_counter.
  - rewrite list_fmap_insert. cbn. rewrite list_insert_id; [done|].
    by rewrite list_lookup_fmap, Hi.
  - clear Hch. destruct (is_returned c'); cbv iota in Hcr.
    + rewrite (one_counter_bumped_sum4 _ _ Hprog). lia.
    + unfold sum4, counter in *. rewrite Hprog. lia.
  - unfold holders, permit_of in *. cbn [coros] in *.
    destruct (holds_permit c), (holds_permit c'); lia.
  - auto.
  - apply Forall_insert; [done|]. exact Hdst.
  - apply Forall_insert.
    + eapply Forall_impl; [exact Hloc|]. intros t. apply locals_ok_mono.
      intros path. by eapply transition_fs_mono.
    + eapply transition_locals; [exact Hr|].
      rewrite Forall_forall in Hloc. apply Hloc.
      by eapply list_elem_of_lookup_2.
Qed.

Lemma run_inv_run sched : ∀ s s',
  run_inv dest_dir MAX_CONCURRENT file_urls s →
  run dest_dir sched s = Some s' →
  run_inv dest_dir MAX_CONCURRENT file_urls s'.
Proof.
  induction sched as [|[i ev] sched IH]; intros s s' Hinv; cbn.
  - by intros [= <-].
  - destruct (step dest_dir i ev s) as [s1|] eqn:Hstep; [|done]. cbn.
    apply IH. by eapply step_inv.
Qed.

Lemma reachable_inv s :
  reachable dest_dir MAX_CONCURRENT file_urls fs0 s →
  run_inv dest_dir MAX_CONCURRENT file_urls s.
Proof.
  intros (s0 & sched & Hinit & Hrun).
  eapply run_inv_run; [|exact Hrun]. by apply main_init_inv.
Qed.

Lemma reachable_step i ev s s' :
  reachable dest_dir MAX_CONCURRENT file_urls fs0 s →
  step dest_dir i ev s = Some s' →
  reachable dest_dir MAX_CONCURRENT file_urls fs0 s'.
Proof.
  intros (s0 & sched & Hinit & Hrun) Hstep.
  exists s0, (sched ++ [(i, ev)]). split; [done|].
  clear Hinit. revert s0 Hrun.
  induction sched as [|[j ev'] sched IH]; intros s0; cbn.
  - intros [= ->]. by rewrite Hstep.
  - destruct (step dest_dir j ev' s0) as [s1|]; [|done]. cbn. apply IH.
Qed.

(** In a reachable state a resumption is possible exactly when the
    relational reading allows it. *)
Lemma reachable_step_transition i url c ev s w' c' :
  reachable dest_dir MAX_CONCURRENT file_urls fs0 s →
  coros s !! i = Some (url, c) →
  transition dest_dir url c ev (shared s) w' c' →
  step dest_dir i ev s = Some (Loop w' (<[i := (url, c')]> (coros s))).
Proof.
  intros Hreach Hi Ht. apply step_unfold. exists url, c, w', c'.
  split; [done|]. split; [|done].
  apply transition_resume; [|done]. by apply reachable_inv.
Qed.

Lemma gather_done_count s :
  gather_done s = true →
  count_where is_returned (coros s) = length (coros s).
Proof. apply count_where_all. Qed.

End RunFacts.

(** ** Steps of a run, read through [transition] *)

Section StepFacts.

Variable dest_dir : string.
Variable MAX_CONCURRENT : Z.
Variable file_urls : list string.
Variable fs0 : gmap string (list byte).

Lemma step_transition i ev s s' :
  reachable dest_dir MAX_CONCURRENT file_urls fs0 s →
  step dest_dir i ev s = Some s' →
  ∃ url c c',
    coros s !! i = Some (url, c)
    ∧ coros s' !! i = Some (url, c')
    ∧ transition dest_dir url c ev (shared s) (shared s') c'
    ∧ ∀ j, j ≠ i → coros s' !! j = coros s !! j.
Proof.
  intros Hreach (url & c & w' & c' & Hi & Hr & ->)%step_unfold.
  exists url, c, c'. cbn [shared coros]. split; [done|]. split; [|split].
  - apply list_lookup_insert_eq. by eapply lookup_lt_Some.
  - apply resume_transition; [|done]. by apply (reachable_inv _ _ _ _ _ Hreach).
  - intros j Hj. by apply list_lookup_insert_ne.
Qed.

Lemma step_enabled i url c ev s w' c' :
  reachable dest_dir MAX_CONCURRENT file_urls fs0 s →
  coros s !! i = Some (url, c) →
  transition dest_dir url c ev (shared s) w' c' →
  ∃ s', step dest_dir i ev s = Some s'
        ∧ shared s' = w' ∧ coros s' !! i = Some (url, c').
Proof.
  intros Hreach Hi Ht. eexists. split.
  - by eapply reachable_step_transition.
  - cbn [shared coros]. split; [done|].
    apply list_lookup_insert_eq. by eapply lookup_lt_Some.
Qed.

Lemma reachable_url i url c s :
  reachable dest_dir MAX_CONCURRENT file_urls fs0 s →
  coros s !! i = Some (url, c) → url ∈ file_urls.
Proof.
  intros Hreach Hi. rewrite <- (inv_urls _ _ _ _ (reachable_inv _ _ _ _ _ Hreach)).
  apply list_elem_of_fmap. exists (url, c). split; [done|].
  by eapply list_elem_of_lookup_2.
Qed.

Lemma reachable_locals i url c s :
  reachable dest_dir MAX_CONCURRENT file_urls fs0 s →
  coros s !! i = Some (url, c) → locals_ok dest_dir (shared s) (url, c).
Proof.
  intros Hreach Hi.
  pose proof (inv_locals _ _ _ _ (reachable_inv _ _ _ _ _ Hreach)) as Hloc.
  rewrite Forall_forall in Hloc. apply Hloc. by eapply list_elem_of_lookup_2.
Qed.

(** Once [gather] is over the four counters add up to the number of
    tasks, which is what ["target"] holds. *)
Lemma completion_sum s :
  reachable dest_dir MAX_CONCURRENT file_urls fs0 s →
  gather_done s = true →
  sum4 (shared s) = Z.of_nat (length file_urls)
  ∧ counter "target" (shared s) = Z.of_nat (length file_urls).
Proof.
  intros Hreach Hdone.
  destruct (reachable_inv _ _ _ _ _ Hreach)
    as [Hwf Htgt Hurls Hsum Hsem Hnn Hlive Hloc].
  split.
  - rewrite Hsum, (gather_done_count _ Hdone), <- Hurls.
    by rewrite length_fmap.
  - unfold counter. by rewrite Htgt.
Qed.

End StepFacts.

(** ** Reading counters through the updates of the world *)

Lemma counter_set_sem_value k v w : counter k (set_sem_value v w) = counter k w.
Proof. reflexivity. Qed.

Lemma counter_set_stdout k o w : counter k (set_stdout o w) = counter k w.
Proof. reflexivity. Qed.

Lemma counter_set_fs k f w : counter k (set_fs f w) = counter k w.
Proof. reflexivity. Qed.

Lemma counter_set_requests k r w : counter k (set_requests r w) = counter k w.
Proof. reflexivity. Qed.

Ltac counter_simpl :=
  unfold failed_with;
  repeat first
    [ rewrite counter_set_sem_value | rewrite counter_set_stdout
    | rewrite counter_set_fs | rewrite counter_set_requests
    | rewrite counter_bump ];
  repeat first
    [ rewrite decide_True by done | rewrite decide_False by done ].

(** * The properties of the fetch engine *)

Lemma demo_reachable MAX_CONCURRENT fs0 sched :
  0 ≤ MAX_CONCURRENT →
  is_Some (run Demo.dir sched (Demo.start MAX_CONCURRENT fs0)) →
  reachable Demo.dir MAX_CONCURRENT Demo.urls fs0
    (Demo.after MAX_CONCURRENT fs0 sched).
Proof.
  intros Hmax [s Hs]. exists (Demo.start MAX_CONCURRENT fs0), sched. split.
  - unfold Demo.start, main_init, Semaphore.
    by destruct (Z.ltb_spec MAX_CONCURRENT 0); [lia|].
  - unfold Demo.after. by rewrite Hs.
Defined.

(** C1 — Counter conservation.  In every state a run reaches,
    [progress["target"]] is the number of tasks [main] submitted and
    the four outcome counters add up to the number of coroutines that
    have returned; every resumption that ends a task increments exactly
    one of the four counters by one (and a returned coroutine is never
    resumed again), every other resumption leaves the record alone.
    Hence once [gather] is over,
    [done + failed + missing + skipped = target], whatever the
    responses and their interleaving were. *)
Theorem counter_conservation dest_dir MAX_CONCURRENT file_urls fs0 s :
  reachable dest_dir MAX_CONCURRENT file_urls fs0 s →
  progress (shared s) !! "target" = Some (Z.of_nat (length file_urls))
  ∧ sum4 (shared s) = Z.of_nat (count_where is_returned (coros s))
  ∧ (∀ i ev s', step dest_dir i ev s = Some s' →
       ∃ url c c',
         coros s !! i = Some (url, c) ∧ coros s' !! i = Some (url, c')
         ∧ is_returned c = false
         ∧ if is_returned c' then one_counter_bumped (shared s) (shared s')
           else progress (shared s') = progress (shared s))
  ∧ (gather_done s = true →
       counter "done" (shared s) + counter "failed" (shared s)
       + counter "missing" (shared s) + counter "skipped" (shared s)
       = counter "target" (shared s)
       ∧ counter "target" (shared s) = Z.of_nat (length file_urls)).
Proof.
  intros Hreach.
  pose proof (reachable_inv _ _ _ _ _ Hreach) as Hinv.
  destruct Hinv as [Hwf Htgt Hurls Hsum Hsem Hnn Hlive Hloc].
  split; [done|]. split; [done|]. split.
  - intros i ev s' Hstep.
    destruct (step_transition _ _ _ _ _ _ _ _ Hreach Hstep)
      as (url & c & c' & Hi & Hi' & Ht & _).
    exists url, c, c'. split; [done|]. split; [done|]. split.
    + by apply (transition_live _ _ _ _ _ _ _ Ht).
    + by apply (transition_progress _ _ _ _ _ _ _ Ht).
  - intros Hdone.
    destruct (completion_sum _ _ _ _ _ Hreach Hdone) as [Hs Ht].
    split; [|done]. fold (sum4 (shared s)). by rewrite Hs, Ht.
Qed.

Lemma counter_conservation_witness :
  reachable Demo.dir 1 Demo.urls ∅ Demo.completed
  ∧ gather_done Demo.completed = true
  ∧ counter "done" (shared Demo.completed) + counter "failed" (shared Demo.completed)
    + counter "missing" (shared Demo.completed) + counter "skipped" (shared Demo.completed)
    = counter "target" (shared Demo.completed)
  ∧ counter "failed" (shared Demo.completed) = 1 ∧ counter "missing" (shared Demo.completed) = 1
  ∧ counter "target" (shared Demo.completed) = 2.
Proof.
  assert (reachable Demo.dir 1 Demo.urls ∅ Demo.completed) as Hreach.
  { apply demo_reachable; [lia|]. vm_compute. eexists. reflexivity. }
  assert (gather_done Demo.completed = true) as Hdone by (vm_compute; reflexivity).
  split; [exact Hreach|]. split; [exact Hdone|].
  destruct (counter_conservation _ _ _ _ _ Hreach) as (_ & _ & _ & Hsum).
  destruct (Hsum Hdone) as [Hs Ht].
  split; [exact Hs|]. repeat split; vm_compute; reflexivity.
Defined.

(** C3 — Concurrency bound.  In every state a run reaches, the free
    permits of the semaphore and the coroutines inside the
    [async with semaphore] block add up to [MAX_CONCURRENT], and the
    free permits are never negative: at most [MAX_CONCURRENT]
    coroutines hold a permit, so at most that many are in their
    network-and-write phase.  A coroutine in that phase keeps its permit
    while it stays there, and gives it back on the resumption that
    takes it out, whichever it is: end of body, 404, other status,
    timeout or any other exception. *)
Theorem concurrency_bound dest_dir MAX_CONCURRENT file_urls fs0 s :
  reachable dest_dir MAX_CONCURRENT file_urls fs0 s →
  sem_value (shared s) + Z.of_nat (holders s) = MAX_CONCURRENT
  ∧ 0 ≤ sem_value (shared s)
  ∧ Z.of_nat (holders s) ≤ MAX_CONCURRENT
  ∧ Z.of_nat (in_flight s) ≤ MAX_CONCURRENT
  ∧ (∀ i url c, coros s !! i = Some (url, c) →
       in_network_phase c = true → holds_permit c = true)
  ∧ (∀ i ev s' url c c',
       step dest_dir i ev s = Some s' →
       coros s !! i = Some (url, c) → coros s' !! i = Some (url, c') →
       in_network_phase c = true →
       (in_network_phase c' = true
        ∧ sem_value (shared s') = sem_value (shared s))
       ∨ (c' = CoReturned
          ∧ sem_value (shared s') = sem_value (shared s) + 1)).
Proof.
  intros Hreach.
  pose proof (reachable_inv _ _ _ _ _ Hreach) as Hinv.
  destruct Hinv as [Hwf Htgt Hurls Hsum Hsem Hnn Hlive Hloc].
  assert (in_flight s ≤ holders s)%nat as Hle.
  { apply count_where_mono. by intros []. }
  split; [done|]. split; [done|]. split; [lia|]. split; [lia|]. split.
  - by intros i url [].
  - intros i ev s' url c c' Hstep Hi Hi' Hnet.
    destruct (step_transition _ _ _ _ _ _ _ _ Hreach Hstep)
      as (url0 & c0 & c0' & Hi0 & Hi0' & Ht & _).
    rewrite Hi in Hi0. rewrite Hi' in Hi0'.
    injection Hi0 as <- <-. injection Hi0' as <-.
    destruct Ht; try discriminate; cbn; auto.
Qed.

Lemma concurrency_bound_witness :
  reachable Demo.dir 1 Demo.urls ∅ Demo.streaming
  ∧ sem_value (shared Demo.streaming) = 0 ∧ holders Demo.streaming = 1%nat ∧ in_flight Demo.streaming = 1%nat
  ∧ Z.of_nat (in_flight Demo.streaming) ≤ 1.
Proof.
  assert (reachable Demo.dir 1 Demo.urls ∅ Demo.streaming) as Hreach.
  { apply demo_reachable; [lia|]. vm_compute. eexists. reflexivity. }
  split; [exact Hreach|].
  destruct (concurrency_bound _ _ _ _ _ Hreach) as (_ & _ & _ & Hfl & _).
  split; [vm_compute; reflexivity|]. split; [vm_compute; reflexivity|].
  split; [vm_compute; reflexivity|]. exact Hfl.
Defined.

(** C10 — Frame on [target].  No resumption of [download_one], from
    any coroutine state, with any event and on any progress record,
    changes a key of the record other than ["done"], ["failed"],
    ["missing"] and ["skipped"]; in particular ["target"] keeps the
    value [main] gave it, the number of submitted tasks, throughout a
    run. *)
Theorem target_never_written dest_dir MAX_CONCURRENT file_urls fs0 s :
  reachable dest_dir MAX_CONCURRENT file_urls fs0 s →
  progress (shared s) !! "target" = Some (Z.of_nat (length file_urls))
  ∧ (∀ url c ev w w' c',
       resume dest_dir url c ev w = Some (w', c') →
       progress w' !! "target" = progress w !! "target"
       ∧ ∀ k, k ∉ counter_keys → progress w' !! k = progress w !! k)
  ∧ (∀ i ev s', step dest_dir i ev s = Some s' →
       progress (shared s') !! "target" = progress (shared s) !! "target").
Proof.
  intros Hreach. split; [|split].
  - apply (inv_target _ _ _ _ (reachable_inv _ _ _ _ _ Hreach)).
  - intros url c ev w w' c' Hr.
    pose proof (frame_resume _ _ _ _ _ _ _ Hr) as Hframe.
    split; [|exact Hframe]. apply Hframe, target_not_counter.
  - intros i ev s' (url & c & w' & c' & _ & Hr & ->)%step_unfold.
    cbn [shared]. apply (frame_resume _ _ _ _ _ _ _ Hr), target_not_counter.
Qed.

Lemma target_never_written_witness :
  reachable Demo.dir 1 Demo.urls ∅ Demo.completed
  ∧ progress (shared Demo.completed) !! "target" = Some 2.
Proof.
  assert (reachable Demo.dir 1 Demo.urls ∅ Demo.completed) as Hreach.
  { apply demo_reachable; [lia|]. vm_compute. eexists. reflexivity. }
  split; [exact Hreach|].
  exact (proj1 (target_never_written _ _ _ _ _ Hreach)).
Defined.

(** C5 — Status classification.  For a coroutine of a run that is
    waiting for its response: a 404 increments ["missing"] alone, prints
    nothing, leaves the filesystem as it is and ends the coroutine; a
    status other than 200 and 404 prints the diagnostic, increments
    ["failed"] alone, leaves the filesystem as it is and ends the
    coroutine; a 200 touches no counter and opens the destination file
    for the streamed write.  From the streamed write, the end of the
    body increments ["done"] alone and ends the coroutine; and no
    resumption other than that one ever changes ["done"]. *)
Theorem status_classification dest_dir MAX_CONCURRENT file_urls fs0 s i url fn fp :
  reachable dest_dir MAX_CONCURRENT file_urls fs0 s →
  coros s !! i = Some (url, AwaitGet fn fp) →
  (∀ open_err, ∃ s',
      step dest_dir i (EvResponse 404 open_err) s = Some s'
      ∧ coros s' !! i = Some (url, CoReturned)
      ∧ progress (shared s') = progress (bump "missing" (shared s))
      ∧ fs (shared s') = fs (shared s)
      ∧ stdout (shared s') = stdout (shared s))
  ∧ (∀ status open_err, status ≠ 200 → status ≠ 404 → ∃ s',
      step dest_dir i (EvResponse status open_err) s = Some s'
      ∧ coros s' !! i = Some (url, CoReturned)
      ∧ progress (shared s') = progress (bump "failed" (shared s))
      ∧ fs (shared s') = fs (shared s)
      ∧ stdout (shared s') = stdout (shared s) ++ [HttpErrorLine status fn])
  ∧ (∃ s',
      step dest_dir i (EvResponse 200 None) s = Some s'
      ∧ coros s' !! i = Some (url, AwaitChunk fn fp 0)
      ∧ progress (shared s') = progress (shared s)
      ∧ fs (shared s') = <[fp := []]> (fs (shared s))
      ∧ ∃ s'',
          step dest_dir i EvEndOfBody s' = Some s''
          ∧ coros s'' !! i = Some (url, CoReturned)
          ∧ progress (shared s'') = progress (bump "done" (shared s)))
  ∧ (∀ j ev s', step dest_dir j ev s = Some s' →
      counter "done" (shared s') ≠ counter "done" (shared s) →
      ev = EvEndOfBody
      ∧ ∃ url' fn' fp' size, coros s !! j = Some (url', AwaitChunk fn' fp' size)).
Proof.
  intros Hreach Hi. split; [|split; [|split]].
  - intros open_err.
    destruct (step_enabled _ _ _ _ _ _ _ _ _ _ _ Hreach Hi
                (T_missing dest_dir url fn fp open_err (shared s)))
      as (s' & Hstep & Hw & Hc).
    exists s'. rewrite Hw. by repeat split.
  - intros status open_err H200 H404.
    destruct (step_enabled _ _ _ _ _ _ _ _ _ _ _ Hreach Hi
                (T_http_error dest_dir url fn fp status open_err (shared s)
                   H404 H200))
      as (s' & Hstep & Hw & Hc).
    exists s'. rewrite Hw. by repeat split.
  - destruct (step_enabled _ _ _ _ _ _ _ _ _ _ _ Hreach Hi
                (T_open dest_dir url fn fp (shared s)))
      as (s' & Hstep & Hw & Hc).
    exists s'. rewrite Hw. do 4 (split; [done|]).
    pose proof (reachable_step _ _ _ _ _ _ _ _ Hreach Hstep) as Hreach'.
    destruct (step_enabled _ _ _ _ _ _ _ _ _ _ _ Hreach' Hc
                (T_done dest_dir url fn fp 0 (shared s')))
      as (s'' & Hstep' & Hw' & Hc').
    exists s''. rewrite Hw', Hw. by repeat split.
  - intros j ev s' Hstep Hne.
    destruct (step_transition _ _ _ _ _ _ _ _ Hreach Hstep)
      as (url' & c & c' & Hj & Hj' & Ht & _).
    destruct Ht; try (exfalso; apply Hne; by counter_simpl).
    split; [done|]. by exists url', fn0, fp0, size.
Qed.

Lemma status_classification_witness :
  reachable Demo.dir 1 Demo.urls ∅ Demo.requested
  ∧ coros Demo.requested !! 0%nat
    = Some (Demo.url1, AwaitGet "frame-r-000752-1-0011.fits.bz2" Demo.path1)
  ∧ ∃ s', step Demo.dir 0 (EvResponse 503 None) Demo.requested = Some s'
          ∧ coros s' !! 0%nat = Some (Demo.url1, CoReturned)
          ∧ progress (shared s') = progress (bump "failed" (shared Demo.requested))
          ∧ fs (shared s') = fs (shared Demo.requested)
          ∧ stdout (shared s')
            = stdout (shared Demo.requested)
              ++ [HttpErrorLine 503 "frame-r-000752-1-0011.fits.bz2"].
Proof.
  assert (reachable Demo.dir 1 Demo.urls ∅ Demo.requested) as Hreach.
  { apply demo_reachable; [lia|]. vm_compute. eexists. reflexivity. }
  assert (coros Demo.requested !! 0%nat
          = Some (Demo.url1,
                  AwaitGet "frame-r-000752-1-0011.fits.bz2" Demo.path1))
    as Hi by (vm_compute; reflexivity).
  split; [exact Hreach|]. split; [exact Hi|].
  destruct (status_classification _ _ _ _ _ _ _ _ _ Hreach Hi)
    as (_ & Herr & _).
  apply (Herr 503 None); lia.
Defined.

(** C6 — Failure isolation.  In a run, an exception raised by the
    pending await of a coroutine in its network-and-write phase - a
    timeout or any other [Exception] - and an exception raised by
    [open] are caught by the coroutine itself: it prints the line
    naming the file and, for a non-timeout, the cause, increments
    ["failed"] alone and returns.  No coroutine of a run ever ends with
    an exception, so [gather] never sees one. *)
Theorem failure_isolation dest_dir MAX_CONCURRENT file_urls fs0 s :
  reachable dest_dir MAX_CONCURRENT file_urls fs0 s →
  (∀ i url e, coros s !! i ≠ Some (url, CoRaised e))
  ∧ (∀ i url c e,
       coros s !! i = Some (url, c) → in_network_phase c = true →
       ∃ s', step dest_dir i (EvFault e) s = Some s'
             ∧ coros s' !! i = Some (url, CoReturned)
             ∧ progress (shared s') = progress (bump "failed" (shared s))
             ∧ stdout (shared s')
               = stdout (shared s) ++ [fault_line (filename_of url) e])
  ∧ (∀ i url fn fp e,
       coros s !! i = Some (url, AwaitGet fn fp) →
       ∃ s', step dest_dir i (EvResponse 200 (Some e)) s = Some s'
             ∧ coros s' !! i = Some (url, CoReturned)
             ∧ progress (shared s') = progress (bump "failed" (shared s))
             ∧ stdout (shared s')
               = stdout (shared s) ++ [fault_line (filename_of url) e]).
Proof.
  intros Hreach. split; [|split].
  - intros i url e Hi.
    pose proof (inv_live _ _ _ _ (reachable_inv _ _ _ _ _ Hreach)) as Hlive.
    rewrite Forall_forall in Hlive.
    apply (Hlive (url, CoRaised e) (list_elem_of_lookup_2 _ _ _ Hi) e).
    reflexivity.
  - intros i url c e Hi Hnet.
    pose proof (reachable_locals _ _ _ _ _ _ _ _ Hreach Hi) as Hloc.
    destruct c as [| |fn fp|fn fp size| |]; try discriminate;
      unfold locals_ok in Hloc; cbn in Hloc.
    + destruct Hloc as [-> ->].
      destruct (step_enabled _ _ _ _ _ _ _ _ _ _ _ Hreach Hi
                  (T_get_fault dest_dir url _ _ e (shared s)))
        as (s' & Hstep & Hw & Hc).
      exists s'. rewrite Hw. by repeat split.
    + destruct Hloc as (-> & -> & _).
      destruct (step_enabled _ _ _ _ _ _ _ _ _ _ _ Hreach Hi
                  (T_chunk_fault dest_dir url _ _ size e (shared s)))
        as (s' & Hstep & Hw & Hc).
      exists s'. rewrite Hw. by repeat split.
  - intros i url fn fp e Hi.
    pose proof (reachable_locals _ _ _ _ _ _ _ _ Hreach Hi) as Hloc.
    unfold locals_ok in Hloc; cbn in Hloc. destruct Hloc as [-> ->].
    destruct (step_enabled _ _ _ _ _ _ _ _ _ _ _ Hreach Hi
                (T_open_fail dest_dir url _ _ e (shared s)))
      as (s' & Hstep & Hw & Hc).
    exists s'. rewrite Hw. by repeat split.
Qed.

Lemma failure_isolation_witness :
  reachable Demo.dir 1 Demo.urls ∅ Demo.requested
  ∧ ∃ s', step Demo.dir 0 (EvFault (OtherException "Connection reset")) Demo.requested
          = Some s'
          ∧ coros s' !! 0%nat = Some (Demo.url1, CoReturned)
          ∧ progress (shared s') = progress (bump "failed" (shared Demo.requested))
          ∧ stdout (shared s')
            = stdout (shared Demo.requested)
              ++ [ErrorLine "frame-r-000752-1-0011.fits.bz2"
                    (OtherException "Connection reset")].
Proof.
  assert (reachable Demo.dir 1 Demo.urls ∅ Demo.requested) as Hreach.
  { apply demo_reachable; [lia|]. vm_compute. eexists. reflexivity. }
  split; [exact Hreach|].
  destruct (failure_isolation _ _ _ _ _ Hreach) as (_ & Hfault & _).
  apply (Hfault 0%nat Demo.url1
           (AwaitGet "frame-r-000752-1-0011.fits.bz2" Demo.path1)
           (OtherException "Connection reset"));
    vm_compute; reflexivity.
Defined.

(** C9 — Partial-write residue.  In a run, when the pending read of a
    coroutine that is streaming into its destination file raises (a
    timeout or any other exception), the coroutine increments
    ["failed"] alone and returns, and the filesystem is exactly what it
    was: the file at the destination path, which exists since [open],
    keeps the blocks written so far; nothing deletes or truncates it. *)
Theorem partial_write_residue dest_dir MAX_CONCURRENT file_urls fs0 s i url fn fp size e :
  reachable dest_dir MAX_CONCURRENT file_urls fs0 s →
  coros s !! i = Some (url, AwaitChunk fn fp size) →
  fp = filepath_of dest_dir url
  ∧ is_Some (fs (shared s) !! fp)
  ∧ ∃ s', step dest_dir i (EvFault e) s = Some s'
          ∧ coros s' !! i = Some (url, CoReturned)
          ∧ fs (shared s') = fs (shared s)
          ∧ progress (shared s') = progress (bump "failed" (shared s))
          ∧ counter "failed" (shared s') = counter "failed" (shared s) + 1.
Proof.
  intros Hreach Hi.
  pose proof (reachable_locals _ _ _ _ _ _ _ _ Hreach Hi) as Hloc.
  unfold locals_ok in Hloc; cbn in Hloc. destruct Hloc as (-> & -> & Hex).
  split; [done|]. split; [done|].
  destruct (step_enabled _ _ _ _ _ _ _ _ _ _ _ Hreach Hi
              (T_chunk_fault dest_dir url _ _ size e (shared s)))
    as (s' & Hstep & Hw & Hc).
  exists s'. rewrite Hw. do 4 (split; [done|]). by counter_simpl.
Qed.

Lemma partial_write_residue_witness :
  reachable Demo.dir 1 Demo.urls ∅ Demo.streaming
  ∧ coros Demo.streaming !! 0%nat
    = Some (Demo.url1,
            AwaitChunk "frame-r-000752-1-0011.fits.bz2" Demo.path1 2)
  ∧ fs (shared Demo.streaming) !! Demo.path1 = Some [x0a; x0b]%byte
  ∧ ∃ s', step Demo.dir 0 (EvFault TimeoutError) Demo.streaming = Some s'
          ∧ coros s' !! 0%nat = Some (Demo.url1, CoReturned)
          ∧ fs (shared s') = fs (shared Demo.streaming)
          ∧ progress (shared s') = progress (bump "failed" (shared Demo.streaming))
          ∧ counter "failed" (shared s') = counter "failed" (shared Demo.streaming) + 1.
Proof.
  assert (reachable Demo.dir 1 Demo.urls ∅ Demo.streaming) as Hreach.
  { apply demo_reachable; [lia|]. vm_compute. eexists. reflexivity. }
  assert (coros Demo.streaming !! 0%nat
          = Some (Demo.url1,
                  AwaitChunk "frame-r-000752-1-0011.fits.bz2" Demo.path1 2))
    as Hi by (vm_compute; reflexivity).
  split; [exact Hreach|]. split; [exact Hi|].
  split; [vm_compute; reflexivity|].
  apply (partial_write_residue _ _ _ _ _ _ _ _ _ _ TimeoutError Hreach Hi).
Defined.

Section SkipFacts.

Variable dest_dir : string.
Variable MAX_CONCURRENT : Z.
Variable file_urls : list string.
Variable fs0 : gmap string (list byte).

(** Induction over the states of a run. *)
Lemma reachable_induction (P : loop → Prop) :
  (∀ s0, main_init MAX_CONCURRENT file_urls fs0 = inr s0 → P s0) →
  (∀ s i ev s',
     reachable dest_dir MAX_CONCURRENT file_urls fs0 s → P s →
     step dest_dir i ev s = Some s' → P s') →
  ∀ s, reachable dest_dir MAX_CONCURRENT file_urls fs0 s → P s.
Proof.
  intros Hinit Hstep s (s0 & sched & Hs0 & Hrun).
  assert (reachable dest_dir MAX_CONCURRENT file_urls fs0 s0) as Hr0
    by (by exists s0, []).
  specialize (Hinit s0 Hs0). clear Hs0. revert s0 Hr0 Hinit Hrun.
  induction sched as [|[i ev] sched IH]; intros s0 Hr0 HP; cbn.
  - by intros [= <-].
  - destruct (step dest_dir i ev s0) as [s1|] eqn:Hs1; [|done]. cbn.
    apply IH; [by eapply reachable_step|by eapply Hstep].
Qed.

Lemma count_where_none P (cs : list (string * coro)) :
  Forall (λ t, P t.2 = false) cs → count_where P cs = 0%nat.
Proof.
  unfold count_where. induction 1 as [|t cs Ht _ IH]; cbn; [done|].
  by rewrite Ht, IH.
Qed.

Lemma skip_inv_reachable s :
  all_present dest_dir file_urls fs0 →
  reachable dest_dir MAX_CONCURRENT file_urls fs0 s → skip_inv fs0 s.
Proof.
  intros Hall. revert s. apply reachable_induction.
  - intros s0. unfold main_init. destruct (Semaphore MAX_CONCURRENT); [done|].
    intros [= <-]. split; cbn [shared coros fs requests]; try done.
    apply Forall_forall. by intros t [url [-> _]]%list_elem_of_fmap.
  - intros s i ev s' Hreach [Hfs Hreq Hidle Hd Hf Hm] Hstep.
    destruct (step_transition _ _ _ _ _ _ _ _ Hreach Hstep)
      as (url & c & c' & Hi & Hi' & Ht & Hother).
    pose proof (reachable_url _ _ _ _ _ _ _ _ Hreach Hi) as Hurl.
    assert (in_network_phase c = false) as Hc.
    { rewrite Forall_forall in Hidle.
      apply (Hidle (url, c)). by eapply list_elem_of_lookup_2. }
    assert (in_network_phase c' = false
            ∧ fs (shared s') = fs (shared s)
            ∧ requests (shared s') = requests (shared s)
            ∧ counter "done" (shared s') = counter "done" (shared s)
            ∧ counter "failed" (shared s') = counter "failed" (shared s)
            ∧ counter "missing" (shared s') = counter "missing" (shared s))
      as (Hc' & Hfs' & Hreq' & Hd' & Hf' & Hm').
    { destruct Ht; try discriminate.
      - by repeat split.
      - repeat split; by counter_simpl.
      - exfalso. specialize (Hall _ Hurl). rewrite <- Hfs in Hall.
        match goal with H : _ = None |- _ => rewrite H in Hall end.
        by destruct Hall. }
    split; try congruence.
    apply step_unfold in Hstep as (url1 & c1 & w1 & c1' & Hi1 & _ & ->).
    cbn [coros] in *. apply Forall_insert; [done|].
    rewrite Hi in Hi1. injection Hi1 as <- <-.
    rewrite list_lookup_insert_eq in Hi' by (by eapply lookup_lt_Some).
    by injection Hi' as <-.
Qed.

End SkipFacts.

(** C4 — Resume and skip.  In a run, a coroutine that has its permit
    and whose destination file exists can only be resumed by running
    its body, and doing so increments ["skipped"] alone, hands no
    request to the session, leaves the filesystem as it is and returns.
    If every destination file is there when the run starts, then
    throughout the run no request is issued, the filesystem stays what
    it was and no coroutine is in its network-and-write phase; once
    [gather] is over, ["skipped"] equals ["target"], the number of
    tasks. *)
Theorem resume_skip dest_dir MAX_CONCURRENT file_urls fs0 s :
  reachable dest_dir MAX_CONCURRENT file_urls fs0 s →
  (∀ i url,
     coros s !! i = Some (url, Acquired) →
     is_Some (fs (shared s) !! filepath_of dest_dir url) →
     (∀ ev s', step dest_dir i ev s = Some s' → ev = EvStart)
     ∧ ∃ s', step dest_dir i EvStart s = Some s'
             ∧ coros s' !! i = Some (url, CoReturned)
             ∧ progress (shared s') = progress (bump "skipped" (shared s))
             ∧ requests (shared s') = requests (shared s)
             ∧ fs (shared s') = fs (shared s)
             ∧ stdout (shared s') = stdout (shared s))
  ∧ (all_present dest_dir file_urls fs0 →
     requests (shared s) = []
     ∧ fs (shared s) = fs0
     ∧ in_flight s = 0%nat
     ∧ (gather_done s = true →
        counter "skipped" (shared s) = counter "target" (shared s)
        ∧ counter "skipped" (shared s) = Z.of_nat (length file_urls)
        ∧ counter "done" (shared s) = 0)).
Proof.
  intros Hreach. split.
  - intros i url Hi Hex. split.
    + intros ev s' Hstep.
      destruct (step_transition _ _ _ _ _ _ _ _ Hreach Hstep)
        as (url0 & c & c' & Hi0 & _ & Ht & _).
      rewrite Hi in Hi0. injection Hi0 as <- <-. by inversion Ht.
    + destruct (step_enabled _ _ _ _ _ _ _ _ _ _ _ Hreach Hi
                  (T_skip dest_dir url (shared s) Hex))
        as (s' & Hstep & Hw & Hc).
      exists s'. rewrite Hw. by repeat split.
  - intros Hall.
    destruct (skip_inv_reachable _ _ _ _ _ Hall Hreach)
      as [Hfs Hreq Hidle Hd Hf Hm].
    split; [done|]. split; [done|]. split.
    { by apply count_where_none. }
    intros Hdone.
    destruct (completion_sum _ _ _ _ _ Hreach Hdone) as [Hs Ht].
    unfold sum4 in Hs. rewrite Hd, Hf, Hm in Hs.
    split; [lia|]. split; [lia|done].
Qed.

Lemma resume_skip_witness :
  reachable Demo.dir 1 Demo.urls Demo.fs_full Demo.all_skipped
  ∧ all_present Demo.dir Demo.urls Demo.fs_full
  ∧ gather_done Demo.all_skipped = true
  ∧ requests (shared Demo.all_skipped) = []
  ∧ fs (shared Demo.all_skipped) = Demo.fs_full
  ∧ counter "skipped" (shared Demo.all_skipped) = 2.
Proof.
  assert (reachable Demo.dir 1 Demo.urls Demo.fs_full Demo.all_skipped) as Hreach.
  { apply demo_reachable; [lia|]. vm_compute. eexists. reflexivity. }
  assert (all_present Demo.dir Demo.urls Demo.fs_full) as Hall.
  { intros url Hin. unfold Demo.urls in Hin.
    apply elem_of_cons in Hin as [->|Hin];
      [vm_compute; eexists; reflexivity|].
    apply elem_of_cons in Hin as [->|Hin];
      [vm_compute; eexists; reflexivity|].
    by apply elem_of_nil in Hin. }
  assert (gather_done Demo.all_skipped = true) as Hdone by (vm_compute; reflexivity).
  split; [exact Hreach|]. split; [exact Hall|]. split; [exact Hdone|].
  destruct (resume_skip _ _ _ _ _ Hreach) as [_ Hrun].
  destruct (Hrun Hall) as (Hreq & Hfs & _ & Hfin).
  destruct (Hfin Hdone) as (_ & Hsk & _).
  split; [exact Hreq|]. split; [exact Hfs|]. exact Hsk.
Defined.

(** C7 (as stated) fails — the resume check is gated.  With one
    permit and both files present, once task 0 has been granted the
    permit no coroutine is in its network-and-write phase, yet the
    semaphore has no free permit left: task 0 runs its resume check
    (and is skipped) holding it, and task 1, whose file exists too,
    cannot be resumed at all until the permit comes back. *)
Lemma resume_check_gated_counterexample :
  reachable Demo.dir 1 Demo.urls Demo.fs_full Demo.acquired
  ∧ in_flight Demo.acquired = 0%nat
  ∧ sem_value (shared Demo.acquired) = 0
  ∧ coros Demo.acquired !! 0%nat = Some (Demo.url1, Acquired)
  ∧ coros Demo.acquired !! 1%nat = Some (Demo.url2, Created)
  ∧ is_Some (fs (shared Demo.acquired) !! filepath_of Demo.dir Demo.url2)
  ∧ (∀ ev, step Demo.dir 1 ev Demo.acquired = None)
  ∧ ¬ resume_check_ungated Demo.dir 1 Demo.urls Demo.fs_full.
Proof.
  assert (reachable Demo.dir 1 Demo.urls Demo.fs_full Demo.acquired) as Hreach.
  { apply demo_reachable; [lia|]. vm_compute. eexists. reflexivity. }
  split; [exact Hreach|].
  split; [vm_compute; reflexivity|]. split; [vm_compute; reflexivity|].
  split; [vm_compute; reflexivity|]. split; [vm_compute; reflexivity|].
  split; [vm_compute; eexists; reflexivity|]. split.
  - intros []; vm_compute; reflexivity.
  - intros Hclaim. specialize (Hclaim Demo.acquired Hreach). vm_compute in Hclaim.
    discriminate.
Qed.

(** C7 (amended) — Permit gating scope.  In a run, a coroutine leaves
    [Created] only by being granted a permit, which needs a free one
    and takes it; with no free permit it cannot be resumed, whether its
    destination file exists or not.  The resume check is run by the
    resumption that follows the grant, while the permit is held: at
    that moment at most [MAX_CONCURRENT - 1] permits are free.  The
    permit is held for the whole body - resume check, request, status
    classification, streamed write - and goes back when the coroutine
    returns, on the skip path like on the others. *)
Theorem resume_check_gated dest_dir MAX_CONCURRENT file_urls fs0 s :
  reachable dest_dir MAX_CONCURRENT file_urls fs0 s →
  sem_value (shared s) + Z.of_nat (holders s) = MAX_CONCURRENT
  ∧ (∀ i url ev s',
       coros s !! i = Some (url, Created) →
       step dest_dir i ev s = Some s' →
       ev = EvGrant ∧ 0 < sem_value (shared s)
       ∧ sem_value (shared s') = sem_value (shared s) - 1
       ∧ coros s' !! i = Some (url, Acquired))
  ∧ (∀ i url ev,
       coros s !! i = Some (url, Created) → sem_value (shared s) ≤ 0 →
       step dest_dir i ev s = None)
  ∧ (∀ i url c s',
       coros s !! i = Some (url, c) →
       step dest_dir i EvStart s = Some s' →
       c = Acquired ∧ holds_permit c = true
       ∧ sem_value (shared s) ≤ MAX_CONCURRENT - 1
       ∧ (is_Some (fs (shared s) !! filepath_of dest_dir url) →
          coros s' !! i = Some (url, CoReturned)
          ∧ sem_value (shared s') = sem_value (shared s) + 1)
       ∧ (fs (shared s) !! filepath_of dest_dir url = None →
          coros s' !! i
          = Some (url, AwaitGet (filename_of url) (filepath_of dest_dir url))
          ∧ sem_value (shared s') = sem_value (shared s))).
Proof.
  intros Hreach.
  destruct (reachable_inv _ _ _ _ _ Hreach)
    as [Hwf Htgt Hurls Hsum Hsem Hnn Hlive Hloc].
  split; [done|]. split; [|split].
  - intros i url ev s' Hi Hstep.
    destruct (step_transition _ _ _ _ _ _ _ _ Hreach Hstep)
      as (url0 & c & c' & Hi0 & Hi' & Ht & _).
    rewrite Hi in Hi0. injection Hi0 as <- <-.
    apply transition_created in Ht as (-> & Hpos & Hw & ->).
    rewrite Hw. by repeat split.
  - intros i url ev Hi Hsem0.
    destruct (step dest_dir i ev s) as [s'|] eqn:Hstep; [|done].
    destruct (step_transition _ _ _ _ _ _ _ _ Hreach Hstep)
      as (url0 & c & c' & Hi0 & Hi' & Ht & _).
    rewrite Hi in Hi0. injection Hi0 as <- <-.
    apply transition_created in Ht as (_ & Hpos & _). lia.
  - intros i url c s' Hi Hstep.
    destruct (step_transition _ _ _ _ _ _ _ _ Hreach Hstep)
      as (url0 & c0 & c' & Hi0 & Hi' & Ht & _).
    rewrite Hi in Hi0. injection Hi0 as <- <-.
    apply transition_start in Ht as (-> & Hcases).
    assert (1 ≤ holders s)%nat as Hh.
    { pose proof (count_where_insert holds_permit _ _ _ _ CoReturned Hi) as Hc.
      unfold holders. cbn in Hc. lia. }
    split; [done|]. split; [done|]. split; [lia|].
    destruct Hcases as [(Hex & Hw & ->)|(Hno & Hw & ->)]; rewrite Hw; split.
    + by intros _.
    + intros Hno. rewrite Hno in Hex. by destruct Hex.
    + intros Hex. rewrite Hno in Hex. by destruct Hex.
    + by intros _.
Qed.

Lemma resume_check_gated_witness :
  reachable Demo.dir 1 Demo.urls Demo.fs_full Demo.acquired
  ∧ coros Demo.acquired !! 1%nat = Some (Demo.url2, Created)
  ∧ sem_value (shared Demo.acquired) ≤ 0
  ∧ step Demo.dir 1 EvGrant Demo.acquired = None
  ∧ sem_value (shared Demo.acquired) + Z.of_nat (holders Demo.acquired) = 1.
Proof.
  assert (reachable Demo.dir 1 Demo.urls Demo.fs_full Demo.acquired) as Hreach.
  { apply demo_reachable; [lia|]. vm_compute. eexists. reflexivity. }
  assert (coros Demo.acquired !! 1%nat = Some (Demo.url2, Created)) as Hi
    by (vm_compute; reflexivity).
  assert (sem_value (shared Demo.acquired) ≤ 0) as Hsem
    by (vm_compute; discriminate).
  split; [exact Hreach|]. split; [exact Hi|]. split; [exact Hsem|].
  destruct (resume_check_gated _ _ _ _ _ Hreach) as (Hsum & _ & Hblocked & _).
  split; [exact (Hblocked 1%nat Demo.url2 EvGrant Hi Hsem)|exact Hsum].
Defined.

(** C2 — Sampler uniqueness and fan-out.  For a non-negative
    [n_fields], when [generate_urls] returns, the keys it accepted, in
    the order it accepted them, are pairwise distinct, are exactly the
    members of [fields_picked], are [n_fields] in number and lie in
    the addressable space of the pool; the returned list is their
    expansion, one URL per key per band, so it has
    [n_fields * len(BANDS)] entries. *)
Theorem sampler_unique_fanout SDSS_RUNS BANDS RERUN n_fields draws urls :
  0 ≤ n_fields →
  generate_urls SDSS_RUNS BANDS RERUN n_fields draws = Returned urls →
  ∃ keys picked,
    sample_loop SDSS_RUNS BANDS RERUN n_fields draws [] ∅
    = Returned (urls, picked)
    ∧ NoDup keys
    ∧ picked = list_to_set keys
    ∧ Z.of_nat (size picked) = n_fields
    ∧ Z.of_nat (length keys) = n_fields
    ∧ (∀ k, k ∈ keys → k ∈ addressable SDSS_RUNS)
    ∧ urls = flat_map (key_urls BANDS RERUN) keys
    ∧ Z.of_nat (length urls) = n_fields * Z.of_nat (length BANDS).
Proof.
  intros Hn. unfold generate_urls.
  destruct (sample_loop SDSS_RUNS BANDS RERUN n_fields draws [] ∅)
    as [[urls' picked]|e|urls' picked] eqn:Hloop; try discriminate.
  intros [= ->].
  destruct (sample_loop_returned SDSS_RUNS BANDS RERUN n_fields draws
              [] [] ∅ urls picked (sampler_inv_init _ _ _))
    as (keys & Hinv & Hsize); [rewrite size_empty; lia|done|].
  pose proof (sampler_inv_size _ _ _ _ _ _ Hinv) as Hlen.
  destruct Hinv as (Hnd & Hset & Hurls & Hsub).
  exists keys, picked. split; [done|]. split; [done|]. split; [done|].
  split; [done|]. split; [lia|]. split; [|split; [done|]].
  - intros k Hk. apply Hsub. rewrite Hset. by apply elem_of_list_to_set.
  - rewrite Hurls, length_flat_map_key_urls. lia.
Qed.

Lemma sampler_unique_fanout_witness :
  (0 ≤ 3)
  ∧ ∃ urls,
      generate_urls [(100, 1, 50)] ["r"%string] 301 3
        [(0, 0); (0, 0); (7, 41); (2, 39)]%nat = Returned urls
      ∧ ∃ (keys : list key) (picked : gset key),
          NoDup keys ∧ picked = list_to_set keys
          ∧ Z.of_nat (size picked) = 3
          ∧ Z.of_nat (length urls) = 3 * Z.of_nat (length ["r"%string]).
Proof.
  split; [lia|]. eexists. split; [vm_compute; reflexivity|].
  edestruct (sampler_unique_fanout [(100, 1, 50)] ["r"%string] 301 3
               [(0, 0); (0, 0); (7, 41); (2, 39)]%nat)
    as (keys & picked & _ & Hnd & Hset & Hsize & _ & _ & _ & Hlen);
    [lia|vm_compute; reflexivity|].
  exists keys, picked. by repeat split.
Defined.

(** C8 (as stated) fails — a pool that cannot supply the target does
    not always make the loop spin.  With an empty pool and a target of
    one, [random.choice] raises [IndexError] at the first draw; with a
    range whose [max_field] is below 11, [random.randint] raises
    [ValueError]: the sampler terminates, by an exception. *)
Lemma sampler_exhaustion_counterexample :
  Z.of_nat (size (addressable [])) < 1
  ∧ generate_urls [] ["r"%string] 301 1 [(0, 0)%nat] = Raised IndexError
  ∧ Z.of_nat (size (addressable [(100, 1, 5)])) < 1
  ∧ generate_urls [(100, 1, 5)] ["r"%string] 301 1 [(0, 0)%nat]
    = Raised ValueError
  ∧ ¬ exhaustion_never_terminates [].
Proof.
  split; [vm_compute; reflexivity|]. split; [vm_compute; reflexivity|].
  split; [vm_compute; reflexivity|]. split; [vm_compute; reflexivity|].
  intros Hclaim.
  specialize (Hclaim ["r"%string] 301 1 [(0, 0)%nat]).
  apply Hclaim. vm_compute. reflexivity.
Qed.

(** C8 (amended) — Sampler exhaustion.  When [n_fields] exceeds the
    number of keys the pool can address, [generate_urls] never returns.
    If moreover the pool is not empty and each of its ranges has a
    valid field number ([max_field >= 11]), no draw raises and the loop
    never ends: after any finite number of draws it is still running,
    with fewer than [n_fields] keys.  The loop has no retry cap: for
    every [j] there are [j + 1] draws after which it has accepted one
    key and rejected [j] draws in a row, and goes on. *)
Theorem sampler_exhaustion SDSS_RUNS BANDS RERUN n_fields :
  Z.of_nat (size (addressable SDSS_RUNS)) < n_fields →
  (∀ draws urls,
     generate_urls SDSS_RUNS BANDS RERUN n_fields draws ≠ Returned urls)
  ∧ (SDSS_RUNS ≠ [] → pool_ranges_valid SDSS_RUNS →
     (∀ draws, ∃ urls picked,
        generate_urls SDSS_RUNS BANDS RERUN n_fields draws
        = Looping urls picked
        ∧ Z.of_nat (size picked) < n_fields)
     ∧ (∀ j, ∃ draws urls picked,
          length draws = S j
          ∧ generate_urls SDSS_RUNS BANDS RERUN n_fields draws
            = Looping urls picked
          ∧ size picked = 1%nat)).
Proof.
  intros Hn. split.
  - intros draws urls. unfold generate_urls.
    destruct (sample_loop SDSS_RUNS BANDS RERUN n_fields draws [] ∅)
      as [[urls' picked]|e|urls' picked] eqn:Hloop; try discriminate.
    by apply sample_loop_never_returns in Hloop.
  - intros Hne Hvalid. split.
    + intros draws.
      destruct (sample_loop_exhausted SDSS_RUNS BANDS RERUN n_fields draws
                  [] [] ∅ Hne Hvalid Hn (sampler_inv_init _ _ _))
        as (urls & picked & Hloop & Hlt).
      exists urls, picked. unfold generate_urls. by rewrite Hloop.
    + intros j.
      pose proof (addressable_nonempty SDSS_RUNS Hne Hvalid) as Hsize.
      destruct (sample_loop_first_then_rejects SDSS_RUNS BANDS RERUN
                  n_fields j Hne Hvalid) as (k & Hloop); [lia|].
      exists (replicate (S j) (0, 0)%nat), (key_urls BANDS RERUN k), {[ k ]}.
      split; [apply length_replicate|]. split.
      * unfold generate_urls. by rewrite Hloop.
      * apply size_singleton.
Qed.

Lemma sampler_exhaustion_witness :
  Z.of_nat (size (addressable Config.SDSS_RUNS)) < 100000
  ∧ Config.SDSS_RUNS ≠ []
  ∧ pool_ranges_valid Config.SDSS_RUNS
  ∧ ∀ draws, ∃ urls picked,
      generate_urls Config.SDSS_RUNS Config.BANDS Config.RERUN 100000 draws
      = Looping urls picked
      ∧ Z.of_nat (size picked) < 100000.
Proof.
  assert (Z.of_nat (size (addressable Config.SDSS_RUNS)) < 100000) as Hn.
  { pose proof (size_addressable_le Config.SDSS_RUNS) as Hle.
    change (length Config.SDSS_RUNS) with 152%nat in Hle.
    apply Nat2Z.inj_le in Hle. rewrite Nat2Z.inj_mul in Hle.
    change (Z.of_nat 490) with 490 in Hle.
    change (Z.of_nat 152) with 152 in Hle. lia. }
  assert (Config.SDSS_RUNS ≠ []) as Hne by discriminate.
  assert (pool_ranges_valid Config.SDSS_RUNS) as Hvalid.
  { assert (forallb (λ r : Z * Z * Z, 11 <=? r.2) Config.SDSS_RUNS = true)
      as Hall by (vm_compute; reflexivity).
    apply Forall_forall. intros r Hr%list_elem_of_In.
    apply Z.leb_le. exact (proj1 (forallb_forall _ _) Hall r Hr). }
  split; [exact Hn|]. split; [exact Hne|]. split; [exact Hvalid|].
  exact (proj1 (proj2 (sampler_exhaustion Config.SDSS_RUNS Config.BANDS
                         Config.RERUN 100000 Hn) Hne Hvalid)).
Defined.

(** * Further properties of the worker and of the event loop *)

Ltac solve_key :=
  unfold counter_keys; repeat first [ by left | right ].

Section RunExtras.

Variable dest_dir : string.
Variable MAX_CONCURRENT : Z.
Variable file_urls : list string.
Variable fs0 : gmap string (list byte).

Lemma run_app sched1 sched2 (s : loop) :
  run dest_dir (sched1 ++ sched2) s
  = run dest_dir sched1 s ≫= run dest_dir sched2.
Proof.
  revert s. induction sched1 as [|[i ev] sched1 IH]; intros s; cbn; [done|].
  destruct (step dest_dir i ev s) as [s1|]; cbn; [apply IH|done].
Qed.

Lemma reachable_run sched s s' :
  reachable dest_dir MAX_CONCURRENT file_urls fs0 s →
  run dest_dir sched s = Some s' →
  reachable dest_dir MAX_CONCURRENT file_urls fs0 s'.
Proof.
  intros (s0 & sched0 & Hinit & Hrun) Hrun'.
  exists s0, (sched0 ++ sched). split; [done|].
  rewrite run_app, Hrun. exact Hrun'.
Qed.

(** Induction over the steps of a run that starts in a reachable state. *)
Lemma run_induction (R : loop → loop → Prop) :
  (∀ s, R s s) →
  (∀ s1 s2 s3, R s1 s2 → R s2 s3 → R s1 s3) →
  (∀ s i ev s',
     reachable dest_dir MAX_CONCURRENT file_urls fs0 s →
     step dest_dir i ev s = Some s' → R s s') →
  ∀ sched s s',
    reachable dest_dir MAX_CONCURRENT file_urls fs0 s →
    run dest_dir sched s = Some s' → R s s'.
Proof.
  intros Hrefl Htrans Hstep.
  induction sched as [|[i ev] sched IH]; intros s s' Hreach; cbn.
  - intros [= <-]. apply Hrefl.
  - destruct (step dest_dir i ev s) as [s1|] eqn:Hs1; [|done]. cbn.
    intros Hrun. apply Htrans with s1; [by eapply Hstep|].
    apply IH; [by eapply reachable_step|done].
Qed.

Lemma transition_fs_frame url c ev w w' c' path :
  transition dest_dir url c ev w w' c' →
  locals_ok dest_dir w (url, c) →
  path ≠ filepath_of dest_dir url →
  fs w' !! path = fs w !! path.
Proof.
  destruct 1; unfold locals_ok; cbn; try done.
  - intros (_ & ->) Hne. by apply lookup_insert_ne.
  - intros (_ & -> & _) Hne. by apply lookup_insert_ne.
Qed.

Lemma counter_keys_nonneg_init s0 k :
  main_init MAX_CONCURRENT file_urls fs0 = inr s0 →
  k ∈ counter_keys → counter k (shared s0) = 0.
Proof.
  unfold main_init. destruct (Semaphore MAX_CONCURRENT); [done|].
  intros [= <-] Hk. unfold counter_keys in Hk.
  repeat (apply elem_of_cons in Hk as [->|Hk]; [done|]).
  by apply elem_of_nil in Hk.
Qed.

Lemma one_counter_bumped_le w w' k :
  one_counter_bumped w w' → counter k w ≤ counter k w'.
Proof.
  intros (k0 & _ & _ & Heq & Hne).
  destruct (decide (k = k0)) as [->|Hk]; [lia|]. by rewrite Hne.
Qed.

Lemma step_counter_le s i ev s' k :
  reachable dest_dir MAX_CONCURRENT file_urls fs0 s →
  step dest_dir i ev s = Some s' →
  counter k (shared s) ≤ counter k (shared s').
Proof.
  intros Hreach Hstep.
  destruct (step_transition _ _ _ _ _ _ _ _ Hreach Hstep)
    as (url & c & c' & _ & _ & Ht & _).
  pose proof (transition_progress _ _ _ _ _ _ _ Ht) as Hp.
  destruct (is_returned c').
  - by apply one_counter_bumped_le.
  - unfold counter. by rewrite Hp.
Qed.

Lemma counters_nonneg s k :
  reachable dest_dir MAX_CONCURRENT file_urls fs0 s →
  k ∈ counter_keys → 0 ≤ counter k (shared s).
Proof.
  intros Hreach Hk. revert s Hreach. apply reachable_induction.
  - intros s0 Hinit. by rewrite (counter_keys_nonneg_init _ _ Hinit Hk).
  - intros s i ev s' Hreach IH Hstep.
    pose proof (step_counter_le _ _ _ _ k Hreach Hstep). lia.
Qed.

End RunExtras.

(** X1 — The counters only grow.  Along any continuation of a run,
    every entry of the progress record is at least what it was; in
    every state of a run each of the four outcome counters lies
    between 0 and ["target"]. *)
Theorem counters_monotone dest_dir MAX_CONCURRENT file_urls fs0 s sched s' :
  reachable dest_dir MAX_CONCURRENT file_urls fs0 s →
  run dest_dir sched s = Some s' →
  (∀ k, counter k (shared s) ≤ counter k (shared s'))
  ∧ (∀ k, k ∈ counter_keys →
       0 ≤ counter k (shared s) ≤ counter "target" (shared s)).
Proof.
  intros Hreach Hrun. split.
  - intros k. revert sched s s' Hreach Hrun.
    apply (run_induction dest_dir MAX_CONCURRENT file_urls fs0
             (λ s s', counter k (shared s) ≤ counter k (shared s'))).
    + intros s. lia.
    + intros s1 s2 s3. lia.
    + intros s i ev s' Hreach Hstep. by eapply step_counter_le.
  - intros k Hk.
    pose proof (λ k' Hk', counters_nonneg _ _ _ _ s k' Hreach Hk') as Hnn.
    destruct (reachable_inv _ _ _ _ _ Hreach)
      as [Hwf Htgt Hurls Hsum Hsem Hsnn Hlive Hloc].
    pose proof (count_where_le is_returned (coros s)) as Hle.
    assert (length (coros s) = length file_urls) as Hlen
      by (by rewrite <- Hurls, length_fmap).
    assert (counter "target" (shared s) = Z.of_nat (length file_urls)) as Ht
      by (unfold counter; by rewrite Htgt).
    pose proof (Hnn "done"%string) as Hd.
    pose proof (Hnn "failed"%string) as Hf.
    pose proof (Hnn "missing"%string) as Hm.
    pose proof (Hnn "skipped"%string) as Hs.
    assert (0 ≤ counter "done" (shared s)) by (apply Hd; solve_key).
    assert (0 ≤ counter "failed" (shared s)) by (apply Hf; solve_key).
    assert (0 ≤ counter "missing" (shared s)) by (apply Hm; solve_key).
    assert (0 ≤ counter "skipped" (shared s)) by (apply Hs; solve_key).
    unfold sum4 in Hsum. unfold counter_keys in Hk.
    repeat (apply elem_of_cons in Hk as [->|Hk]; [lia|]).
    by apply elem_of_nil in Hk.
Qed.

Lemma counters_monotone_witness :
  reachable Demo.dir 1 Demo.urls ∅ Demo.streaming
  ∧ run Demo.dir [(0, EvFault TimeoutError)]%nat Demo.streaming
    = Some (Demo.after 1 ∅ (Demo.to_streaming ++ [(0, EvFault TimeoutError)]%nat))
  ∧ counter "failed" (shared Demo.streaming)
    ≤ counter "failed"
        (shared (Demo.after 1 ∅
                   (Demo.to_streaming ++ [(0, EvFault TimeoutError)]%nat))).
Proof.
  assert (reachable Demo.dir 1 Demo.urls ∅ Demo.streaming) as Hreach.
  { apply demo_reachable; [lia|]. vm_compute. eexists. reflexivity. }
  assert (run Demo.dir [(0, EvFault TimeoutError)]%nat Demo.streaming
          = Some (Demo.after 1 ∅
                    (Demo.to_streaming ++ [(0, EvFault TimeoutError)]%nat)))
    as Hrun by (vm_compute; reflexivity).
  split; [exact Hreach|]. split; [exact Hrun|].
  exact (proj1 (counters_monotone _ _ _ _ _ _ _ Hreach Hrun) "failed"%string).
Defined.

(** X2 — A worker writes its own file only, and nothing is ever
    deleted.  When a run resumes the coroutine of [url], every path
    other than [url]'s destination path keeps its content (or its
    absence), and every file that existed before still exists after. *)
Theorem worker_fs_frame dest_dir MAX_CONCURRENT file_urls fs0 s i ev s' url c :
  reachable dest_dir MAX_CONCURRENT file_urls fs0 s →
  step dest_dir i ev s = Some s' →
  coros s !! i = Some (url, c) →
  (∀ path, path ≠ filepath_of dest_dir url →
           fs (shared s') !! path = fs (shared s) !! path)
  ∧ (∀ path, is_Some (fs (shared s) !! path) →
             is_Some (fs (shared s') !! path)).
Proof.
  intros Hreach Hstep Hi.
  destruct (step_transition _ _ _ _ _ _ _ _ Hreach Hstep)
    as (url0 & c0 & c' & Hi0 & _ & Ht & _).
  rewrite Hi in Hi0. injection Hi0 as <- <-. split.
  - intros path Hne. eapply transition_fs_frame; [exact Ht| |exact Hne].
    by eapply reachable_locals.
  - intros path. by eapply transition_fs_mono.
Qed.

Lemma worker_fs_frame_witness :
  reachable Demo.dir 1 Demo.urls Demo.fs_second demo_requested_second
  ∧ step Demo.dir 0 (EvResponse 200 None) demo_requested_second
    = Some (Demo.after 1 Demo.fs_second
              (Demo.to_request ++ [(0, EvResponse 200 None)]%nat))
  ∧ coros demo_requested_second !! 0%nat
    = Some (Demo.url1, AwaitGet "frame-r-000752-1-0011.fits.bz2" Demo.path1)
  ∧ fs (shared (Demo.after 1 Demo.fs_second
                  (Demo.to_request ++ [(0, EvResponse 200 None)]%nat)))
    !! Demo.path2 = Some [x04]%byte.
Proof.
  assert (reachable Demo.dir 1 Demo.urls Demo.fs_second demo_requested_second)
    as Hreach.
  { apply demo_reachable; [lia|]. vm_compute. eexists. reflexivity. }
  assert (step Demo.dir 0 (EvResponse 200 None) demo_requested_second
          = Some (Demo.after 1 Demo.fs_second
                    (Demo.to_request ++ [(0, EvResponse 200 None)]%nat)))
    as Hstep by (vm_compute; reflexivity).
  assert (coros demo_requested_second !! 0%nat
          = Some (Demo.url1,
                  AwaitGet "frame-r-000752-1-0011.fits.bz2" Demo.path1))
    as Hi by (vm_compute; reflexivity).
  split; [exact Hreach|]. split; [exact Hstep|]. split; [exact Hi|].
  destruct (worker_fs_frame _ _ _ _ _ _ _ _ _ _ Hreach Hstep Hi) as [Hframe _].
  rewrite (Hframe Demo.path2); [vm_compute; reflexivity|].
  vm_compute. discriminate.
Defined.

Section Accounting.

Variable dest_dir : string.
Variable MAX_CONCURRENT : Z.
Variable file_urls : list string.
Variable fs0 : gmap string (list byte).

Abbreviation accounts := (accounts file_urls).

Lemma accounts_reachable s :
  reachable dest_dir MAX_CONCURRENT file_urls fs0 s → accounts s.
Proof.
  revert s. apply reachable_induction.
  - intros s0. unfold main_init. destruct (Semaphore MAX_CONCURRENT); [done|].
    intros [= <-]. unfold accounts. cbn [shared coros requests stdout length].
    rewrite count_where_created by done. repeat split; try done.
    intros url Hin. by apply elem_of_nil in Hin.
  - intros s i ev s' Hreach (Hreq & Hout & Hsub) Hstep.
    destruct (step_transition _ _ _ _ _ _ _ _ Hreach Hstep)
      as (url & c & c' & Hi & Hi' & Ht & _).
    pose proof (reachable_url _ _ _ _ _ _ _ _ Hreach Hi) as Hurl.
    apply step_unfold in Hstep as (url1 & c1 & w1 & c1' & Hi1 & _ & Hs').
    rewrite Hi in Hi1. injection Hi1 as <- <-. subst s'.
    cbn [shared coros] in *.
    rewrite list_lookup_insert_eq in Hi' by (by eapply lookup_lt_Some).
    injection Hi' as <-.
    pose proof (count_where_insert past_check _ _ _ _ c1' Hi) as Hcnt.
    unfold accounts. cbn [shared coros].
    destruct Ht; cbn [past_check] in Hcnt; counter_simpl;
      unfold bump, set_sem_value, set_stdout, set_progress, set_fs,
        set_requests;
      cbn [requests stdout]; rewrite ?length_app; cbn [length];
      (split; [lia|split; [lia|]]); try exact Hsub.
    intros u [Hu|Hu%list_elem_of_singleton]%elem_of_app; [by apply Hsub|].
    by subst u.
Qed.

End Accounting.

(** X3 — Every request is accounted for.  In every state of a run the
    number of GET requests handed to the session plus ["skipped"] is
    the number of coroutines past their resume check, and every
    requested URL is one of the submitted ones: a task issues at most
    one request, and none when it is skipped.  Once [gather] is over the
    number of requests is [done + failed + missing]. *)
Theorem requests_accounting dest_dir MAX_CONCURRENT file_urls fs0 s :
  reachable dest_dir MAX_CONCURRENT file_urls fs0 s →
  Z.of_nat (length (requests (shared s))) + counter "skipped" (shared s)
  = Z.of_nat (count_where past_check (coros s))
  ∧ (∀ url, url ∈ requests (shared s) → url ∈ file_urls)
  ∧ (gather_done s = true →
     Z.of_nat (length (requests (shared s)))
     = counter "done" (shared s) + counter "failed" (shared s)
       + counter "missing" (shared s)).
Proof.
  intros Hreach.
  destruct (accounts_reachable _ _ _ _ _ Hreach) as (Hreq & _ & Hsub).
  split; [done|]. split; [done|]. intros Hdone.
  destruct (completion_sum _ _ _ _ _ Hreach Hdone) as [Hsum _].
  assert (count_where past_check (coros s) = length (coros s)) as Hall.
  { apply count_where_all. unfold gather_done in Hdone.
    rewrite forallb_forall in *. intros t Ht. specialize (Hdone t Ht).
    by destruct (t.2). }
  assert (length (coros s) = length file_urls) as Hlen.
  { rewrite <- (inv_urls _ _ _ _ (reachable_inv _ _ _ _ _ Hreach)).
    by rewrite length_fmap. }
  unfold sum4 in Hsum. lia.
Qed.

Lemma requests_accounting_witness :
  reachable Demo.dir 1 Demo.urls ∅ Demo.completed
  ∧ gather_done Demo.completed = true
  ∧ Z.of_nat (length (requests (shared Demo.completed)))
    = counter "done" (shared Demo.completed)
      + counter "failed" (shared Demo.completed)
      + counter "missing" (shared Demo.completed)
  ∧ requests (shared Demo.completed) = [Demo.url1; Demo.url2].
Proof.
  assert (reachable Demo.dir 1 Demo.urls ∅ Demo.completed) as Hreach.
  { apply demo_reachable; [lia|]. vm_compute. eexists. reflexivity. }
  assert (gather_done Demo.completed = true) as Hdone
    by (vm_compute; reflexivity).
  split; [exact Hreach|]. split; [exact Hdone|].
  split; [|vm_compute; reflexivity].
  exact (proj2 (proj2 (requests_accounting _ _ _ _ _ Hreach)) Hdone).
Defined.

(** X4 — One line per success or failure.  In every state of a run
    the console holds exactly [done + failed] lines: a 404 and a skip
    print nothing, every other outcome prints one line. *)
Theorem stdout_accounting dest_dir MAX_CONCURRENT file_urls fs0 s :
  reachable dest_dir MAX_CONCURRENT file_urls fs0 s →
  Z.of_nat (length (stdout (shared s)))
  = counter "done" (shared s) + counter "failed" (shared s).
Proof.
  intros Hreach.
  by destruct (accounts_reachable _ _ _ _ _ Hreach) as (_ & Hout & _).
Qed.

Lemma stdout_accounting_witness :
  reachable Demo.dir 1 Demo.urls ∅ Demo.completed
  ∧ Z.of_nat (length (stdout (shared Demo.completed)))
    = counter "done" (shared Demo.completed)
      + counter "failed" (shared Demo.completed)
  ∧ stdout (shared Demo.completed)
    = [TimeoutLine "frame-r-000752-1-0011.fits.bz2"].
Proof.
  assert (reachable Demo.dir 1 Demo.urls ∅ Demo.completed) as Hreach.
  { apply demo_reachable; [lia|]. vm_compute. eexists. reflexivity. }
  split; [exact Hreach|]. split; [|vm_compute; reflexivity].
  exact (stdout_accounting _ _ _ _ _ Hreach).
Defined.

Section Liveness.

Variable dest_dir : string.
Variable MAX_CONCURRENT : Z.
Variable file_urls : list string.
Variable fs0 : gmap string (list byte).

Lemma forallb_false_lookup {A} (f : A → bool) (l : list A) :
  forallb f l = false → ∃ i x, l !! i = Some x ∧ f x = false.
Proof.
  induction l as [|x l IH]; cbn; [done|].
  destruct (f x) eqn:Hx; cbn.
  - intros (i & y & Hi & Hy)%IH. by exists (S i), y.
  - intros _. by exists 0%nat, x.
Qed.

Lemma count_where_pos P (cs : list (string * coro)) :
  (1 ≤ count_where P cs)%nat →
  ∃ i url c, cs !! i = Some (url, c) ∧ P c = true.
Proof.
  unfold count_where. induction cs as [|[url c] cs IH]; cbn; [lia|].
  destruct (P c) eqn:Hc.
  - intros _. by exists 0%nat, url, c.
  - intros (i & url' & c' & Hi & Hc')%IH. by exists (S i), url', c'.
Qed.

Lemma holder_can_step s i url c :
  reachable dest_dir MAX_CONCURRENT file_urls fs0 s →
  coros s !! i = Some (url, c) → holds_permit c = true →
  ∃ ev s', step dest_dir i ev s = Some s'.
Proof.
  intros Hreach Hi Hc.
  destruct c as [| |fn fp|fn fp size| |]; try discriminate.
  - destruct (fs (shared s) !! filepath_of dest_dir url) as [content|] eqn:Hex.
    + exists EvStart. eexists. eapply reachable_step_transition; [done..|].
      apply T_skip. by rewrite Hex.
    + exists EvStart. eexists. eapply reachable_step_transition; [done..|].
      by apply T_request.
  - exists (EvFault TimeoutError). eexists.
    eapply reachable_step_transition; [done..|]. apply T_get_fault.
  - exists (EvFault TimeoutError). eexists.
    eapply reachable_step_transition; [done..|]. apply T_chunk_fault.
Qed.

Lemma fs_mono_reachable s path :
  reachable dest_dir MAX_CONCURRENT file_urls fs0 s →
  is_Some (fs0 !! path) → is_Some (fs (shared s) !! path).
Proof.
  intros Hreach Hex. revert s Hreach. apply reachable_induction.
  - intros s0. unfold main_init. destruct (Semaphore MAX_CONCURRENT); [done|].
    by intros [= <-].
  - intros s i ev s' Hreach IH Hstep.
    destruct (step_transition _ _ _ _ _ _ _ _ Hreach Hstep)
      as (url & c & c' & _ & _ & Ht & _).
    by eapply transition_fs_mono.
Qed.

Lemma fs_mono_run sched s s' path :
  reachable dest_dir MAX_CONCURRENT file_urls fs0 s →
  run dest_dir sched s = Some s' →
  is_Some (fs (shared s) !! path) → is_Some (fs (shared s') !! path).
Proof.
  revert sched s s'.
  apply (run_induction dest_dir MAX_CONCURRENT file_urls fs0
           (λ s s', is_Some (fs (shared s) !! path) →
                    is_Some (fs (shared s') !! path))); [auto..|].
  intros s i ev s' Hreach Hstep.
  destruct (step_transition _ _ _ _ _ _ _ _ Hreach Hstep)
    as (url & c & c' & _ & _ & Ht & _).
  by eapply transition_fs_mono.
Qed.

End Liveness.

(** X5 — No deadlock.  With at least one permit, as long as [gather]
    is not over some coroutine of the run can be resumed: either a
    waiting one can be granted a permit, or one that holds a permit can
    run on. *)
Theorem no_deadlock dest_dir MAX_CONCURRENT file_urls fs0 s :
  1 ≤ MAX_CONCURRENT →
  reachable dest_dir MAX_CONCURRENT file_urls fs0 s →
  gather_done s = false →
  ∃ i ev s', step dest_dir i ev s = Some s'.
Proof.
  intros Hmax Hreach Hdone.
  destruct (reachable_inv _ _ _ _ _ Hreach)
    as [Hwf Htgt Hurls Hsum Hsem Hnn Hlive Hloc].
  destruct (forallb_false_lookup _ _ Hdone) as (i & [url c] & Hi & Hc).
  cbn in Hc.
  destruct (holds_permit c) eqn:Hhold.
  { destruct (holder_can_step _ _ _ _ _ _ _ _ Hreach Hi Hhold) as (ev & s' & H).
    by exists i, ev, s'. }
  destruct c as [| | | | |e]; try discriminate.
  - destruct (decide (0 < sem_value (shared s))) as [Hpos|Hzero].
    + exists i, EvGrant. eexists.
      eapply reachable_step_transition; [done..|]. by apply T_grant.
    + assert (1 ≤ holders s)%nat as Hh by lia.
      destruct (count_where_pos _ _ Hh) as (j & url' & c' & Hj & Hc').
      destruct (holder_can_step _ _ _ _ _ _ _ _ Hreach Hj Hc')
        as (ev & s' & H).
      by exists j, ev, s'.
  - rewrite Forall_forall in Hlive.
    destruct (Hlive (url, CoRaised e) (list_elem_of_lookup_2 _ _ _ Hi) e).
    reflexivity.
Qed.

Lemma no_deadlock_witness :
  1 ≤ 1
  ∧ reachable Demo.dir 1 Demo.urls ∅ Demo.streaming
  ∧ gather_done Demo.streaming = false
  ∧ ∃ i ev s', step Demo.dir i ev Demo.streaming = Some s'.
Proof.
  assert (reachable Demo.dir 1 Demo.urls ∅ Demo.streaming) as Hreach.
  { apply demo_reachable; [lia|]. vm_compute. eexists. reflexivity. }
  assert (gather_done Demo.streaming = false) as Hdone
    by (vm_compute; reflexivity).
  assert (1 ≤ 1) as Hmax by lia.
  split; [exact Hmax|]. split; [exact Hreach|]. split; [exact Hdone|].
  apply (no_deadlock _ _ _ _ _ Hmax Hreach Hdone).
Defined.

(** X6 — A semaphore of zero hangs the run.  With
    [MAX_CONCURRENT = 0] the run never leaves the state [main] built:
    no coroutine can be resumed, and with at least one task [gather]
    is never over.  A negative [MAX_CONCURRENT] does not even start:
    [asyncio.Semaphore] raises [ValueError]. *)
Theorem zero_permits_hang dest_dir file_urls fs0 s :
  reachable dest_dir 0 file_urls fs0 s →
  main_init 0 file_urls fs0 = inr s
  ∧ (∀ i ev, step dest_dir i ev s = None)
  ∧ (file_urls ≠ [] → gather_done s = false)
  ∧ (∀ MAX_CONCURRENT, MAX_CONCURRENT < 0 →
       main_init MAX_CONCURRENT file_urls fs0 = inl ValueError).
Proof.
  intros Hreach.
  assert (main_init 0 file_urls fs0 = inr s
          ∧ ∀ i ev, step dest_dir i ev s = None) as [Hinit Hstuck].
  { revert s Hreach. apply reachable_induction.
    - intros s0 Hinit. split; [done|]. intros i ev.
      destruct (step dest_dir i ev s0) as [s'|] eqn:Hstep; [|done].
      assert (reachable dest_dir 0 file_urls fs0 s0) as Hr0
        by (by exists s0, []).
      destruct (step_transition _ _ _ _ _ _ _ _ Hr0 Hstep)
        as (url & c & c' & Hi & _ & Ht & _).
      revert Hinit Hi Ht. unfold main_init. cbn. intros [= <-]. cbn.
      intros Hi Ht. apply list_elem_of_lookup_2 in Hi.
      apply list_elem_of_fmap in Hi as (u & [= -> ->] & _).
      apply transition_created in Ht as (_ & Hpos & _). cbn in Hpos. lia.
    - intros s i ev s' _ [_ Hstuck] Hstep. by rewrite Hstuck in Hstep. }
  split; [done|]. split; [done|]. split.
  - intros Hne. revert Hinit. unfold main_init. cbn. intros [= <-].
    unfold gather_done. cbn. by destruct file_urls.
  - intros MAX Hneg. unfold main_init, Semaphore.
    by destruct (Z.ltb_spec MAX 0); [|lia].
Qed.

Lemma zero_permits_hang_witness :
  reachable Demo.dir 0 Demo.urls ∅ (Demo.start 0 ∅)
  ∧ (∀ i ev, step Demo.dir i ev (Demo.start 0 ∅) = None)
  ∧ gather_done (Demo.start 0 ∅) = false.
Proof.
  assert (reachable Demo.dir 0 Demo.urls ∅ (Demo.start 0 ∅)) as Hreach.
  { exists (Demo.start 0 ∅), []. split; reflexivity. }
  split; [exact Hreach|].
  destruct (zero_permits_hang _ _ _ _ Hreach) as (_ & Hstuck & Hdone & _).
  split; [exact Hstuck|]. apply Hdone. discriminate.
Defined.

Section Transfer.

Variable dest_dir : string.
Variable MAX_CONCURRENT : Z.
Variable file_urls : list string.
Variable fs0 : gmap string (list byte).

(** From an open file to the end of the body. *)
Lemma streaming_to_end i url fn fp chunks : ∀ s size content,
  reachable dest_dir MAX_CONCURRENT file_urls fs0 s →
  coros s !! i = Some (url, AwaitChunk fn fp size) →
  fs (shared s) !! fp = Some content →
  ∃ s',
    run dest_dir (map (λ chunk, (i, EvChunk chunk)) chunks
                  ++ [(i, EvEndOfBody)]) s = Some s'
    ∧ coros s' = <[i := (url, CoReturned)]> (coros s)
    ∧ fs (shared s') = <[fp := content ++ concat chunks]> (fs (shared s))
    ∧ progress (shared s') = progress (bump "done" (shared s))
    ∧ stdout (shared s')
      = stdout (shared s)
        ++ [DoneLine (counter "done" (shared s) + 1)
              (counter "target" (shared s)) fn
              (size + Z.of_nat (length (concat chunks)))]
    ∧ requests (shared s') = requests (shared s)
    ∧ sem_value (shared s') = sem_value (shared s) + 1.
Proof.
  induction chunks as [|chunk chunks IH]; intros s size content Hreach Hi Hfp.
  - pose proof (reachable_step_transition _ _ _ _ _ _ _ _ _ _ _ Hreach Hi
                  (T_done dest_dir url fn fp size (shared s))) as Hstep.
    eexists. cbn [map app run]. rewrite Hstep. cbn.
    split; [reflexivity|]. split; [done|].
    rewrite app_nil_r, Z.add_0_r. repeat split; try done.
    symmetry. by apply insert_id.
  - pose proof (reachable_step_transition _ _ _ _ _ _ _ _ _ _ _ Hreach Hi
                  (T_chunk dest_dir url fn fp size chunk (shared s))) as Hstep.
    pose proof (reachable_step _ _ _ _ _ _ _ _ Hreach Hstep) as Hreach'.
    edestruct (IH _ (size + Z.of_nat (length chunk)) (content ++ chunk) Hreach')
      as (s' & Hrun & Hcoros & Hfs & Hprog & Hout & Hreq & Hsem).
    { cbn [coros]. apply list_lookup_insert_eq. by eapply lookup_lt_Some. }
    { cbn [shared fs set_fs]. rewrite Hfp. cbn. apply lookup_insert_eq. }
    exists s'. cbn [map app run]. rewrite Hstep. cbn.
    split; [exact Hrun|]. split.
    { rewrite Hcoros. cbn [coros]. apply list_insert_insert_eq. }
    split.
    { rewrite Hfs. cbn [shared fs set_fs]. rewrite Hfp. cbn.
      rewrite insert_insert_eq. by rewrite <- app_assoc. }
    split; [exact Hprog|]. split.
    { rewrite Hout. cbn [shared stdout set_fs]. rewrite length_app.
      do 3 f_equal. unfold counter; cbn. lia. }
    split; [exact Hreq|exact Hsem].
Qed.

End Transfer.

(** X7 — A completed transfer writes exactly the body.  In a run, when
    the coroutine of [url] that waits for its response gets a 200,
    then the blocks of the body one after the other, then the end of
    the body, it returns with ["done"] incremented; the destination
    file holds the concatenation of the blocks, whatever was at that
    path before; the line printed carries the new ["done"], ["target"]
    and the number of bytes of the body; no further request is issued,
    the permit goes back, and the other coroutines are untouched. *)
Theorem transfer_writes_body dest_dir MAX_CONCURRENT file_urls fs0 s i url fn fp chunks :
  reachable dest_dir MAX_CONCURRENT file_urls fs0 s →
  coros s !! i = Some (url, AwaitGet fn fp) →
  ∃ s',
    run dest_dir (transfer i chunks) s = Some s'
    ∧ coros s' = <[i := (url, CoReturned)]> (coros s)
    ∧ fs (shared s') = <[fp := concat chunks]> (fs (shared s))
    ∧ counter "done" (shared s') = counter "done" (shared s) + 1
    ∧ stdout (shared s')
      = stdout (shared s)
        ++ [DoneLine (counter "done" (shared s) + 1)
              (counter "target" (shared s)) fn
              (Z.of_nat (length (concat chunks)))]
    ∧ requests (shared s') = requests (shared s)
    ∧ sem_value (shared s') = sem_value (shared s) + 1.
Proof.
  intros Hreach Hi.
  pose proof (reachable_step_transition _ _ _ _ _ _ _ _ _ _ _ Hreach Hi
                (T_open dest_dir url fn fp (shared s))) as Hstep.
  pose proof (reachable_step _ _ _ _ _ _ _ _ Hreach Hstep) as Hreach'.
  edestruct (streaming_to_end dest_dir MAX_CONCURRENT file_urls fs0
               i url fn fp chunks _ 0 [] Hreach')
    as (s' & Hrun & Hcoros & Hfs & Hprog & Hout & Hreq & Hsem).
  { cbn [coros]. apply list_lookup_insert_eq. by eapply lookup_lt_Some. }
  { cbn [shared fs set_fs]. apply lookup_insert_eq. }
  exists s'. unfold transfer. cbn [run]. rewrite Hstep. cbn.
  split; [exact Hrun|]. split.
  { rewrite Hcoros. cbn [coros]. apply list_insert_insert_eq. }
  split.
  { rewrite Hfs. cbn [shared fs set_fs]. by rewrite insert_insert_eq. }
  split.
  { unfold counter at 1. rewrite Hprog. unfold bump. cbn.
    by rewrite lookup_insert_eq. }
  split; [|split; [exact Hreq|exact Hsem]].
  rewrite Hout. reflexivity.
Qed.

Lemma transfer_writes_body_witness :
  reachable Demo.dir 1 Demo.urls ∅ Demo.requested
  ∧ coros Demo.requested !! 0%nat
    = Some (Demo.url1, AwaitGet "frame-r-000752-1-0011.fits.bz2" Demo.path1)
  ∧ ∃ s',
      run Demo.dir (transfer 0 [[x01; x02]; [x03]]%byte) Demo.requested
      = Some s'
      ∧ fs (shared s')
        = <[Demo.path1 := [x01; x02; x03]%byte]> (fs (shared Demo.requested))
      ∧ counter "done" (shared s')
        = counter "done" (shared Demo.requested) + 1.
Proof.
  assert (reachable Demo.dir 1 Demo.urls ∅ Demo.requested) as Hreach.
  { apply demo_reachable; [lia|]. vm_compute. eexists. reflexivity. }
  assert (coros Demo.requested !! 0%nat
          = Some (Demo.url1,
                  AwaitGet "frame-r-000752-1-0011.fits.bz2" Demo.path1))
    as Hi by (vm_compute; reflexivity).
  split; [exact Hreach|]. split; [exact Hi|].
  destruct (transfer_writes_body _ _ _ _ _ _ _ _ _
              [[x01; x02]; [x03]]%byte Hreach Hi)
    as (s' & Hrun & _ & Hfs & Hdone & _).
  exists s'. split; [exact Hrun|]. split; [exact Hfs|exact Hdone].
Defined.

(** X8 — A partial file is never fetched again.  Once the coroutine of
    [url] has opened its destination file in a run, whatever happens
    next in that run (the transfer completing, or being cut short by a
    timeout or another fault), a later run over the filesystem the
    first one left, with the same destination directory, skips [url]:
    its resume check finds the file, ["skipped"] is incremented, no
    request is issued and the file is left as it is. *)
Theorem opened_file_skipped_on_rerun
    dest_dir MAX1 urls1 fs0 s1 i url fn fp size sched s1'
    MAX2 urls2 s2 j :
  reachable dest_dir MAX1 urls1 fs0 s1 →
  coros s1 !! i = Some (url, AwaitChunk fn fp size) →
  run dest_dir sched s1 = Some s1' →
  reachable dest_dir MAX2 urls2 (fs (shared s1')) s2 →
  coros s2 !! j = Some (url, Acquired) →
  ∃ s2',
    step dest_dir j EvStart s2 = Some s2'
    ∧ coros s2' !! j = Some (url, CoReturned)
    ∧ counter "skipped" (shared s2') = counter "skipped" (shared s2) + 1
    ∧ requests (shared s2') = requests (shared s2)
    ∧ fs (shared s2') = fs (shared s2).
Proof.
  intros Hreach1 Hi Hrun Hreach2 Hj.
  pose proof (reachable_locals _ _ _ _ _ _ _ _ Hreach1 Hi) as Hloc.
  unfold locals_ok in Hloc. cbn in Hloc. destruct Hloc as (_ & -> & Hex).
  pose proof (fs_mono_run _ _ _ _ _ _ _ _ Hreach1 Hrun Hex) as Hex1.
  pose proof (fs_mono_reachable _ _ _ _ _ _ Hreach2 Hex1) as Hex2.
  destruct (step_enabled _ _ _ _ _ _ _ _ _ _ _ Hreach2 Hj
              (T_skip dest_dir url (shared s2) Hex2))
    as (s2' & Hstep & Hw & Hc).
  exists s2'. rewrite Hw. split; [done|]. split; [done|].
  split; [by counter_simpl|]. by split.
Qed.

Lemma opened_file_skipped_on_rerun_witness :
  reachable Demo.dir 1 Demo.urls ∅ Demo.streaming
  ∧ coros Demo.streaming !! 0%nat
    = Some (Demo.url1,
            AwaitChunk "frame-r-000752-1-0011.fits.bz2" Demo.path1 2)
  ∧ run Demo.dir [(0, EvFault TimeoutError)]%nat Demo.streaming
    = Some demo_aborted
  ∧ reachable Demo.dir 1 Demo.urls (fs (shared demo_aborted)) demo_rerun
  ∧ coros demo_rerun !! 0%nat = Some (Demo.url1, Acquired)
  ∧ ∃ s2',
      step Demo.dir 0 EvStart demo_rerun = Some s2'
      ∧ coros s2' !! 0%nat = Some (Demo.url1, CoReturned)
      ∧ counter "skipped" (shared s2')
        = counter "skipped" (shared demo_rerun) + 1
      ∧ requests (shared s2') = requests (shared demo_rerun)
      ∧ fs (shared s2') = fs (shared demo_rerun).
Proof.
  assert (reachable Demo.dir 1 Demo.urls ∅ Demo.streaming) as Hreach.
  { apply demo_reachable; [lia|]. vm_compute. eexists. reflexivity. }
  assert (coros Demo.streaming !! 0%nat
          = Some (Demo.url1,
                  AwaitChunk "frame-r-000752-1-0011.fits.bz2" Demo.path1 2))
    as Hi by (vm_compute; reflexivity).
  assert (run Demo.dir [(0, EvFault TimeoutError)]%nat Demo.streaming
          = Some demo_aborted) as Hrun by (vm_compute; reflexivity).
  assert (reachable Demo.dir 1 Demo.urls (fs (shared demo_aborted)) demo_rerun)
    as Hreach2.
  { apply demo_reachable; [lia|]. vm_compute. eexists. reflexivity. }
  assert (coros demo_rerun !! 0%nat = Some (Demo.url1, Acquired)) as Hj
    by (vm_compute; reflexivity).
  split; [exact Hreach|]. split; [exact Hi|]. split; [exact Hrun|].
  split; [exact Hreach2|]. split; [exact Hj|].
  exact (opened_file_skipped_on_rerun _ _ _ _ _ _ _ _ _ _ _ _ _ _ _ _
           Hreach Hi Hrun Hreach2 Hj).
Defined.

(** * The worker on an arbitrary progress record *)

Ltac unfold_worker :=
  unfold run_segment, body_start, on_response, on_chunk, on_end_of_body,
    on_fault, try_except, handler, open_wb, file_write, session_get,
    os_path_exists, print, dict_incr, dict_get, raise, mbind, M_bind, mret,
    M_ret.

(** X9 — Permits are conserved and only [KeyError] escapes, whatever
    the progress record.  For any record passed as [progress], even
    one that lacks keys, a resumption that leaves the coroutine inside
    the [async with] block keeps its permit and one that takes it out,
    by return or by an exception, gives it back.  The only exceptions
    that leave [download_one] are the [KeyError]s of ["skipped"]
    (the increment on the skip path is outside the [try]) and of
    ["failed"] (the increment in the [except] clauses). *)
Theorem permits_and_escapes_any_progress dest_dir url c ev w w' c' :
  resume dest_dir url c ev w = Some (w', c') →
  sem_value w' + permit_of c' = sem_value w + permit_of c
  ∧ (∀ e, c' = CoRaised e →
          e = KeyError "skipped" ∨ e = KeyError "failed").
Proof.
  intros H. destruct c, ev; simpl in H; try discriminate; revert H.
  - destruct (0 <? sem_value w); [|discriminate].
    intros [= <- <-]. cbn. split; [lia|done].
  - unfold_worker. cbn.
    repeat (case_match; simplify_eq/=); intros [= <- <-]; cbn;
      (split; [lia|intros ? [= <-]; auto]).
  - unfold_worker. cbn.
    repeat (case_match; simplify_eq/=); intros [= <- <-]; cbn;
      (split; [lia|intros ? [= <-]; auto]).
  - unfold_worker. cbn.
    repeat (case_match; simplify_eq/=); intros [= <- <-]; cbn;
      (split; [lia|intros ? [= <-]; auto]).
  - unfold_worker. cbn. intros [= <- <-]. cbn. split; [lia|done].
  - unfold_worker. cbn.
    repeat (case_match; simplify_eq/=); intros [= <- <-]; cbn;
      (split; [lia|intros ? [= <-]; auto]).
  - unfold_worker. cbn.
    repeat (case_match; simplify_eq/=); intros [= <- <-]; cbn;
      (split; [lia|intros ? [= <-]; auto]).
Qed.

Lemma permits_and_escapes_any_progress_witness :
  resume Demo.dir Demo.url1 Acquired EvStart (World ∅ Demo.fs_full 0 [] [])
  = Some (World ∅ Demo.fs_full 1 [] [], CoRaised (KeyError "skipped"))
  ∧ 1 + permit_of (CoRaised (KeyError "skipped")) = 0 + permit_of Acquired.
Proof.
  assert (resume Demo.dir Demo.url1 Acquired EvStart
            (World ∅ Demo.fs_full 0 [] [])
          = Some (World ∅ Demo.fs_full 1 [] [], CoRaised (KeyError "skipped")))
    as Hr by (vm_compute; reflexivity).
  split; [exact Hr|].
  exact (proj1 (permits_and_escapes_any_progress _ _ _ _ _ _ _ Hr)).
Defined.

(** X10 — What a missing key does.  If the record has no ["skipped"]
    entry and the destination file exists, the coroutine ends with
    [KeyError("skipped")], having changed nothing but the semaphore,
    which gets its permit back.  If the record has no ["missing"] entry
    but has ["failed"], a 404 is caught by the [except Exception]
    clause instead: the error line is printed, ["failed"] is
    incremented and the coroutine returns. *)
Theorem missing_key_behaviour dest_dir url fn fp open_err w :
  (progress w !! "skipped" = None →
   is_Some (fs w !! filepath_of dest_dir url) →
   resume dest_dir url Acquired EvStart w
   = Some (set_sem_value (sem_value w + 1) w, CoRaised (KeyError "skipped")))
  ∧ (progress w !! "missing" = None →
     is_Some (progress w !! "failed") →
     resume dest_dir url (AwaitGet fn fp) (EvResponse 404 open_err) w
     = Some (failed_with fn (KeyError "missing") w, CoReturned)).
Proof.
  split.
  - intros Hno Hex. cbn. unfold_worker. cbn.
    rewrite bool_decide_eq_true_2 by done. cbn. by rewrite Hno.
  - intros Hno [f Hf]. cbn. unfold_worker. cbn. rewrite Hno. cbn.
    rewrite Hf. cbn. unfold failed_with, bump, counter. cbn. by rewrite Hf.
Qed.

Lemma missing_key_behaviour_witness :
  resume Demo.dir Demo.url1 Acquired EvStart (World ∅ Demo.fs_full 0 [] [])
  = Some (World ∅ Demo.fs_full 1 [] [], CoRaised (KeyError "skipped"))
  ∧ resume Demo.dir Demo.url1
      (AwaitGet "frame-r-000752-1-0011.fits.bz2" Demo.path1)
      (EvResponse 404 None) (World {[ "failed" := 0 ]} ∅ 0 [] [])
    = Some (failed_with "frame-r-000752-1-0011.fits.bz2" (KeyError "missing")
              (World {[ "failed" := 0 ]} ∅ 0 [] []),
            CoReturned).
Proof.
  split.
  - apply (proj1 (missing_key_behaviour Demo.dir Demo.url1 EmptyString
                    EmptyString None (World ∅ Demo.fs_full 0 [] []))).
    + reflexivity.
    + vm_compute. eexists. reflexivity.
  - apply (proj2 (missing_key_behaviour Demo.dir Demo.url1
                    "frame-r-000752-1-0011.fits.bz2" Demo.path1 None
                    (World {[ "failed" := 0 ]} ∅ 0 [] []))).
    + vm_compute. reflexivity.
    + vm_compute. eexists. reflexivity.
Defined.

Section Pipeline.

Variable SDSS_RUNS : list (Z * Z * Z).
Variable BANDS : list string.
Variable RERUN : Z.

Lemma generate_urls_length n_fields draws urls :
  0 ≤ n_fields →
  generate_urls SDSS_RUNS BANDS RERUN n_fields draws = Returned urls →
  Z.of_nat (length urls) = n_fields * Z.of_nat (length BANDS).
Proof.
  intros Hn. unfold generate_urls.
  destruct (sample_loop SDSS_RUNS BANDS RERUN n_fields draws [] ∅)
    as [[urls' picked]|e|urls' picked] eqn:Hloop; try discriminate.
  intros [= ->].
  destruct (sample_loop_returned SDSS_RUNS BANDS RERUN n_fields draws
              [] [] ∅ urls picked (sampler_inv_init _ _ _))
    as (keys & Hinv & Hsize); [rewrite size_empty; lia|done|].
  pose proof (sampler_inv_size _ _ _ _ _ _ Hinv) as Hlen.
  destruct Hinv as (_ & _ & -> & _).
  rewrite length_flat_map_key_urls. lia.
Qed.

End Pipeline.

(** X11 — The whole pipeline adds up.  When [main] samples
    [NUM_FIELDS >= 0] fields, gathers one coroutine per URL and the
    gather completes, [done + failed + missing + skipped] and
    ["target"] both equal [NUM_FIELDS * len(BANDS)], whatever the
    draws, the filesystem, the responses and their interleaving. *)
Theorem pipeline_total SDSS_RUNS BANDS RERUN NUM_FIELDS MAX_CONCURRENT
    draws fs0 dest_dir s0 sched s :
  0 ≤ NUM_FIELDS →
  main_start SDSS_RUNS BANDS RERUN NUM_FIELDS MAX_CONCURRENT draws fs0
  = Returned (inr s0) →
  run dest_dir sched s0 = Some s →
  gather_done s = true →
  sum4 (shared s) = NUM_FIELDS * Z.of_nat (length BANDS)
  ∧ counter "target" (shared s) = NUM_FIELDS * Z.of_nat (length BANDS)
  ∧ Z.of_nat (length (coros s)) = NUM_FIELDS * Z.of_nat (length BANDS).
Proof.
  intros Hn Hstart Hrun Hdone. unfold main_start in Hstart.
  destruct (generate_urls SDSS_RUNS BANDS RERUN NUM_FIELDS draws)
    as [urls| |] eqn:Hgen; try discriminate.
  injection Hstart as Hinit.
  pose proof (generate_urls_length _ _ _ _ _ _ Hn Hgen) as Hlen.
  assert (reachable dest_dir MAX_CONCURRENT urls fs0 s) as Hreach
    by (by exists s0, sched).
  destruct (completion_sum _ _ _ _ _ Hreach Hdone) as [Hsum Htgt].
  split; [lia|]. split; [lia|].
  rewrite <- Hlen, <- (inv_urls _ _ _ _ (reachable_inv _ _ _ _ _ Hreach)).
  by rewrite length_fmap.
Qed.

Lemma pipeline_total_witness :
  0 ≤ 2
  ∧ main_start Config.SDSS_RUNS Config.BANDS Config.RERUN 2 1
      [(0, 0); (152, 490); (151, 138)]%nat ∅
    = Returned (inr demo_pipeline_start)
  ∧ run Demo.dir demo_pipeline_sched demo_pipeline_start
    = Some demo_pipeline_end
  ∧ gather_done demo_pipeline_end = true
  ∧ sum4 (shared demo_pipeline_end) = 2 * Z.of_nat (length Config.BANDS).
Proof.
  assert (0 ≤ 2) as Hn by lia.
  assert (main_start Config.SDSS_RUNS Config.BANDS Config.RERUN 2 1
            [(0, 0); (152, 490); (151, 138)]%nat ∅
          = Returned (inr demo_pipeline_start)) as Hstart
    by (vm_compute; reflexivity).
  assert (run Demo.dir demo_pipeline_sched demo_pipeline_start
          = Some demo_pipeline_end) as Hrun by (vm_compute; reflexivity).
  assert (gather_done demo_pipeline_end = true) as Hdone
    by (vm_compute; reflexivity).
  split; [exact Hn|]. split; [exact Hstart|]. split; [exact Hrun|].
  split; [exact Hdone|].
  exact (proj1 (pipeline_total _ _ _ _ _ _ _ _ _ _ _ Hn Hstart Hrun Hdone)).
Defined.

(** ** How the sampler uses its draws *)

Section SamplerDraws.

Variable SDSS_RUNS : list (Z * Z * Z).
Variable BANDS : list string.
Variable RERUN : Z.

Abbreviation sample_loop := (sample_loop SDSS_RUNS BANDS RERUN).
Abbreviation generate_urls := (generate_urls SDSS_RUNS BANDS RERUN).
Abbreviation key_urls := (key_urls BANDS RERUN).

(** A loop that has ended is not affected by further draws. *)
Lemma sample_loop_extend n draws more : ∀ urls picked,
  ¬ is_looping (sample_loop n draws urls picked) →
  sample_loop n (draws ++ more) urls picked = sample_loop n draws urls picked.
Proof.
  induction draws as [|[r1 r2] draws IH]; intros urls picked;
    rewrite (sample_loop_unfold _ _ _ _ (_ ++ _)), (sample_loop_unfold _ _ _ _ _ urls);
    case_bool_decide as Hlt; try done.
  simpl. destruct (random_choice r1 SDSS_RUNS) as [e|[[run camcol] mf]]; [done|].
  destruct (random_randint r2 11 (Z.min mf 500)) as [e|field]; [done|].
  case_bool_decide; apply IH.
Qed.

(** Each iteration accepts at most one key. *)
Lemma sample_loop_draws n draws : ∀ urls picked urls' picked',
  sample_loop n draws urls picked = Returned (urls', picked') →
  n - Z.of_nat (size picked) ≤ Z.of_nat (length draws).
Proof.
  induction draws as [|[r1 r2] draws IH]; intros urls picked urls' picked';
    rewrite sample_loop_unfold; case_bool_decide as Hlt; try discriminate.
  - intros _. simpl. lia.
  - destruct (random_choice r1 SDSS_RUNS) as [e|[[run camcol] mf]];
      [discriminate|].
    destruct (random_randint r2 11 (Z.min mf 500)) as [e|field];
      [discriminate|].
    case_bool_decide as Hdup; intros Hloop; apply IH in Hloop.
    + simpl length. lia.
    + rewrite size_union in Hloop by (by apply disjoint_singleton_l).
      rewrite size_singleton in Hloop. simpl length. lia.
  - intros _. simpl length. lia.
Qed.

(** What a raising draw says about the pool. *)
Lemma sample_loop_raised n draws e : ∀ urls picked,
  sample_loop n draws urls picked = Raised e →
  0 < n
  ∧ ((SDSS_RUNS = [] ∧ e = IndexError)
     ∨ (∃ run camcol max_field,
          (run, camcol, max_field) ∈ SDSS_RUNS ∧ max_field < 11
          ∧ e = ValueError)).
Proof.
  induction draws as [|[r1 r2] draws IH]; intros urls picked;
    rewrite sample_loop_unfold; case_bool_decide as Hlt; try discriminate.
  destruct (random_choice r1 SDSS_RUNS) as [e'|[[run camcol] mf]] eqn:Hc.
  - intros [= ->]. split; [lia|]. left. unfold random_choice in Hc.
    destruct (SDSS_RUNS !! _) eqn:Hl; [discriminate|]. injection Hc as <-.
    split; [|done]. destruct SDSS_RUNS as [|r pool]; [done|].
    apply lookup_ge_None in Hl.
    pose proof (Nat.mod_upper_bound r1 (length (r :: pool))) as Hm.
    simpl in *. lia.
  - destruct (random_randint r2 11 (Z.min mf 500)) as [e'|field] eqn:Hr.
    + intros [= ->]. split; [lia|]. right. exists run, camcol, mf.
      unfold random_randint in Hr. case_match eqn:Hb; [|discriminate].
      injection Hr as <-. apply Z.leb_le in Hb.
      split; [by eapply random_choice_elem|]. split; [lia|done].
    + case_bool_decide; apply IH.
Qed.

(** From any state short of [n] keys with room left in the pool, some
    single draw is accepted. *)
Lemma fresh_draw picked :
  picked ⊆ addressable SDSS_RUNS →
  (size picked < size (addressable SDSS_RUNS))%nat →
  ∃ r1 r2 run camcol max_field field,
    random_choice r1 SDSS_RUNS = inr (run, camcol, max_field)
    ∧ random_randint r2 11 (Z.min max_field 500) = inr field
    ∧ (run, camcol, field) ∉ picked.
Proof.
  intros Hsub Hlt.
  assert (∃ k, k ∈ addressable SDSS_RUNS ∧ k ∉ picked) as (k & Hk & Hnk).
  { destruct (decide (addressable SDSS_RUNS ⊆ picked)) as [Hsup|Hnsup].
    - apply subseteq_size in Hsup. lia.
    - apply (not_set_Forall_Exists (λ k, k ∈ picked)) in Hnsup
        as (k & Hk & Hnk). by exists k. }
  apply elem_of_addressable in Hk as (run & camcol & mf & m & Hin & -> & Hm).
  apply list_elem_of_lookup in Hin as [i Hi].
  pose proof (lookup_lt_Some _ _ _ Hi) as Hlen.
  exists i, (Z.to_nat (m - 11)), run, camcol, mf, m. split; [|split; [|done]].
  - unfold random_choice. rewrite Nat.mod_small by done. by rewrite Hi.
  - unfold random_randint. rewrite (proj2 (Z.leb_gt _ _)) by lia.
    f_equal. rewrite Z2Nat.id by lia. rewrite Z.mod_small by lia. lia.
Qed.

Lemma sample_loop_can_return n : ∀ (d : nat) keys urls picked,
  sampler_inv SDSS_RUNS BANDS RERUN keys urls picked →
  n ≤ Z.of_nat (size (addressable SDSS_RUNS)) →
  n - Z.of_nat (size picked) ≤ Z.of_nat d →
  ∃ draws r, sample_loop n draws urls picked = Returned r
             ∧ (length draws ≤ d)%nat.
Proof.
  induction d as [|d IH]; intros keys urls picked Hinv Hn Hd.
  - exists [], (urls, picked). rewrite sample_loop_unfold.
    rewrite bool_decide_eq_false_2 by lia. done.
  - destruct (decide (Z.of_nat (size picked) < n)) as [Hlt|Hge].
    + destruct (fresh_draw picked)
        as (r1 & r2 & run & camcol & mf & field & Hc & Hr & Hfresh).
      { by destruct Hinv as (_ & _ & _ & Hsub). }
      { lia. }
      destruct (IH (keys ++ [(run, camcol, field)])
                  (urls ++ key_urls (run, camcol, field))
                  ({[ (run, camcol, field) ]} ∪ picked))
        as (draws & r & Hloop & Hlen).
      * apply sampler_inv_accept with mf;
          eauto using random_choice_elem, random_randint_range.
      * done.
      * rewrite size_union by (by apply disjoint_singleton_l).
        rewrite size_singleton. lia.
      * exists ((r1, r2) :: draws), r. split; [|simpl; lia].
        rewrite sample_loop_unfold, bool_decide_eq_true_2 by done.
        rewrite Hc, Hr, bool_decide_eq_false_2 by done. done.
    + exists [], (urls, picked). rewrite sample_loop_unfold.
      rewrite bool_decide_eq_false_2 by done. split; [done|simpl; lia].
Qed.

End SamplerDraws.

(** X12 — The sampler's use of randomness.  A call that returns for
    [n_fields] fields took at least [n_fields] pairs of draws, and it
    looked at no draw after the one on which the loop ended: the same
    list comes back however the stream of draws goes on. *)
Theorem sampler_consumption SDSS_RUNS BANDS RERUN n_fields draws urls :
  generate_urls SDSS_RUNS BANDS RERUN n_fields draws = Returned urls →
  n_fields ≤ Z.of_nat (length draws)
  ∧ ∀ more,
      generate_urls SDSS_RUNS BANDS RERUN n_fields (draws ++ more)
      = Returned urls.
Proof.
  unfold generate_urls.
  destruct (sample_loop SDSS_RUNS BANDS RERUN n_fields draws [] ∅)
    as [[urls' picked]|e|urls' picked] eqn:Hloop; try discriminate.
  intros [= ->]. split.
  - apply sample_loop_draws in Hloop. rewrite size_empty in Hloop. lia.
  - intros more. rewrite sample_loop_extend, Hloop; [done|].
    rewrite Hloop. intros [].
Qed.

Lemma sampler_consumption_witness :
  generate_urls [(100, 1, 50)] ["r"%string] 301 2 [(0, 0); (0, 0); (7, 41)]%nat
  = Returned (demo_two_urls)
  ∧ 2 ≤ Z.of_nat (length [(0, 0); (0, 0); (7, 41)]%nat)
  ∧ generate_urls [(100, 1, 50)] ["r"%string] 301 2
      ([(0, 0); (0, 0); (7, 41)] ++ [(5, 5)])%nat
    = Returned (demo_two_urls).
Proof.
  assert (generate_urls [(100, 1, 50)] ["r"%string] 301 2
            [(0, 0); (0, 0); (7, 41)]%nat
          = Returned demo_two_urls) as Hgen by (vm_compute; reflexivity).
  split; [exact Hgen|].
  destruct (sampler_consumption _ _ _ _ _ _ Hgen) as [Hlen Hmore].
  split; [exact Hlen|exact (Hmore [(5, 5)%nat])].
Defined.

(** X13 — When the sampler raises.  An exception out of [generate_urls]
    means that at least one field was asked for and that the pool is
    at fault: either it is empty, and [random.choice] raised
    [IndexError], or it has an entry with [max_field < 11], and
    [random.randint] raised [ValueError] on the empty range.  With a
    non-empty pool whose entries all have [max_field >= 11] the sampler
    never raises. *)
Theorem sampler_raises_on_bad_pool SDSS_RUNS BANDS RERUN n_fields draws e :
  generate_urls SDSS_RUNS BANDS RERUN n_fields draws = Raised e →
  0 < n_fields
  ∧ ((SDSS_RUNS = [] ∧ e = IndexError)
     ∨ (∃ run camcol max_field,
          (run, camcol, max_field) ∈ SDSS_RUNS ∧ max_field < 11
          ∧ e = ValueError))
  ∧ ¬ (SDSS_RUNS ≠ [] ∧ pool_ranges_valid SDSS_RUNS).
Proof.
  unfold generate_urls.
  destruct (sample_loop SDSS_RUNS BANDS RERUN n_fields draws [] ∅)
    as [[urls' picked]|e'|urls' picked] eqn:Hloop; try discriminate.
  intros [= ->]. apply sample_loop_raised in Hloop as [Hn Hpool].
  split; [done|]. split; [done|]. intros [Hne Hvalid].
  destruct Hpool as [[-> _]|(run & camcol & mf & Hin & Hmf & _)]; [done|].
  unfold pool_ranges_valid in Hvalid. rewrite Forall_forall in Hvalid.
  apply Hvalid in Hin. simpl in Hin. lia.
Qed.

Lemma sampler_raises_on_bad_pool_witness :
  generate_urls [(100, 1, 50); (200, 2, 10)] ["r"%string] 301 2
    [(0, 3); (1, 0)]%nat
  = Raised ValueError
  ∧ 0 < 2.
Proof.
  assert (generate_urls [(100, 1, 50); (200, 2, 10)] ["r"%string] 301 2
            [(0, 3); (1, 0)]%nat
          = Raised ValueError) as Hgen by (vm_compute; reflexivity).
  split; [exact Hgen|].
  exact (proj1 (sampler_raises_on_bad_pool _ _ _ _ _ _ Hgen)).
Defined.

(** X14 — The sampler can succeed exactly up to the size of the pool.
    For every [n_fields] up to the number of keys the pool can
    address there are draws, no more than [n_fields] pairs of them, on
    which [generate_urls] returns. *)
Theorem sampler_can_return SDSS_RUNS BANDS RERUN n_fields :
  n_fields ≤ Z.of_nat (size (addressable SDSS_RUNS)) →
  ∃ draws urls,
    generate_urls SDSS_RUNS BANDS RERUN n_fields draws = Returned urls
    ∧ Z.of_nat (length draws) ≤ Z.max 0 n_fields.
Proof.
  intros Hn.
  destruct (sample_loop_can_return SDSS_RUNS BANDS RERUN n_fields
              (Z.to_nat n_fields) [] [] ∅ (sampler_inv_init _ _ _) Hn)
    as (draws & [urls picked] & Hloop & Hlen).
  { rewrite size_empty. lia. }
  exists draws, urls. unfold generate_urls. rewrite Hloop. split; [done|lia].
Qed.

Lemma sampler_can_return_witness :
  1 ≤ Z.of_nat (size (addressable [(100, 1, 50)]))
  ∧ ∃ draws urls,
      generate_urls [(100, 1, 50)] ["r"%string] 301 1 draws = Returned urls
      ∧ Z.of_nat (length draws) ≤ Z.max 0 1.
Proof.
  assert (1 ≤ Z.of_nat (size (addressable [(100, 1, 50)]))) as Hn.
  { pose proof (addressable_nonempty [(100, 1, 50)]) as H.
    assert ([(100, 1, 50)] ≠ @nil (Z * Z * Z)) as Hne by discriminate.
    assert (pool_ranges_valid [(100, 1, 50)]) as Hv.
    { constructor; [simpl; lia|constructor]. }
    specialize (H Hne Hv). lia. }
  split; [exact Hn|].
  exact (sampler_can_return [(100, 1, 50)] ["r"%string] 301 1 Hn).
Defined.

(** ** Strings *)

Lemma str_app_cons a s t : String a s +:+ t = String a (s +:+ t).
Proof. reflexivity. Qed.

Lemma str_app_nil_l t : EmptyString +:+ t = t.
Proof. reflexivity. Qed.

Lemma str_app_nil_r s : s +:+ EmptyString = s.
Proof. induction s as [|a s IH]; [done|]. by rewrite str_app_cons, IH. Qed.

Lemma str_app_assoc s t u : (s +:+ t) +:+ u = s +:+ t +:+ u.
Proof.
  induction s as [|a s IH]; [done|]. by rewrite !str_app_cons, IH.
Qed.

Lemma str_length_app s t :
  String.length (s +:+ t) = (String.length s + String.length t)%nat.
Proof.
  induction s as [|a s IH]; [done|]. rewrite str_app_cons. simpl. by rewrite IH.
Qed.

(** Cancellation on the right. *)
Lemma str_app_inj_len s1 s2 t1 t2 :
  String.length t1 = String.length t2 →
  s1 +:+ t1 = s2 +:+ t2 → s1 = s2 ∧ t1 = t2.
Proof.
  intros Hlen. revert s2.
  induction s1 as [|a s1 IH]; intros [|b s2] Heq;
    rewrite ?str_app_cons, ?str_app_nil_l in Heq.
  - done.
  - apply (f_equal String.length) in Heq. simpl in Heq.
    rewrite str_length_app in Heq. lia.
  - apply (f_equal String.length) in Heq. simpl in Heq.
    rewrite str_length_app in Heq. lia.
  - injection Heq as -> Heq. apply IH in Heq as [-> ->]. done.
Qed.

Lemma str_app_inj_r s1 s2 t : s1 +:+ t = s2 +:+ t → s1 = s2.
Proof. intros Heq. by apply str_app_inj_len in Heq as [? _]. Qed.

Lemma occurs_app c s t : occurs c (s +:+ t) = occurs c s || occurs c t.
Proof.
  induction s as [|a s IH]; [done|].
  rewrite str_app_cons. simpl. rewrite IH. by rewrite orb_assoc.
Qed.

(** Splitting at the first occurrence of [c]. *)
Lemma str_sep_inj_l c s1 s2 t1 t2 :
  occurs c s1 = false → occurs c s2 = false →
  s1 +:+ String c t1 = s2 +:+ String c t2 → s1 = s2 ∧ t1 = t2.
Proof.
  revert s2. induction s1 as [|a s1 IH]; intros [|b s2] H1 H2 Heq;
    rewrite ?str_app_cons, ?str_app_nil_l in Heq; simpl in H1, H2.
  - by injection Heq as ->.
  - injection Heq as <- _. by rewrite Ascii.eqb_refl in H2.
  - injection Heq as -> _. by rewrite Ascii.eqb_refl in H1.
  - injection Heq as -> Heq. apply orb_false_elim in H1 as [_ H1].
    apply orb_false_elim in H2 as [_ H2].
    by destruct (IH _ H1 H2 Heq) as [-> ->].
Qed.

(** Splitting at the last occurrence of [c]. *)
Lemma str_sep_inj_r c s1 s2 t1 t2 :
  occurs c t1 = false → occurs c t2 = false →
  s1 +:+ String c t1 = s2 +:+ String c t2 → s1 = s2 ∧ t1 = t2.
Proof.
  intros H1 H2. revert s2. induction s1 as [|a s1 IH]; intros [|b s2] Heq;
    rewrite ?str_app_cons, ?str_app_nil_l in Heq.
  - by injection Heq as ->.
  - injection Heq as <- ->. rewrite occurs_app in H1. simpl in H1.
    rewrite Ascii.eqb_refl, orb_true_r in H1. done.
  - injection Heq as -> <-. rewrite occurs_app in H2. simpl in H2.
    rewrite Ascii.eqb_refl, orb_true_r in H2. done.
  - injection Heq as -> Heq. by destruct (IH _ Heq) as [-> ->].
Qed.

(** ** [str.split] and [os.path.join] *)

Lemma split_nonempty sep s : split sep s ≠ [].
Proof. destruct s as [|c s]; simpl; [done|]. by repeat case_match. Qed.

(** No segment contains the separator. *)
Lemma split_segments sep s :
  Forall (λ seg, occurs sep seg = false) (split sep s).
Proof.
  induction s as [|c s IH]; simpl.
  - by repeat constructor.
  - destruct (Ascii.eqb c sep) eqn:Hc.
    + by constructor.
    + destruct (split sep s) as [|h t] eqn:Hsp;
        [by destruct (split_nonempty sep s)|].
      inversion_clear IH as [|?? Hh Ht]. constructor; [|done].
      simpl. by rewrite Hc.
Qed.

Lemma split_no_sep sep s : occurs sep s = false → split sep s = [s].
Proof.
  induction s as [|c s IH]; simpl; [done|].
  intros [Hc Hs]%orb_false_elim. rewrite Hc, IH by done. done.
Qed.

Lemma split_single sep s h : split sep s = [h] → s = h.
Proof.
  revert h. induction s as [|c s IH]; intros h; simpl.
  - by intros [= <-].
  - destruct (Ascii.eqb c sep).
    + intros [= _ Hnil]. by destruct (split_nonempty sep s).
    + destruct (split sep s) as [|h' t'] eqn:Hsp;
        [by destruct (split_nonempty sep s)|].
      intros [= <- ->]. f_equal. by apply IH.
Qed.

Lemma ends_with_slash_cons c s :
  ends_with_slash s = true → ends_with_slash (String c s) = true.
Proof. destruct s; [done|]. simpl. done. Qed.

(** The string is its last segment after a prefix that is empty or
    ends in the separator. *)
Lemma split_last s :
  ∃ pre, s = pre +:+ List.last (split "/" s) EmptyString
         ∧ (pre = EmptyString ∨ ends_with_slash pre = true).
Proof.
  induction s as [|c s (pre & Hs & Hpre)].
  - exists EmptyString. by split; [|left].
  - simpl split. destruct (Ascii.eqb c "/") eqn:Hc.
    + apply Ascii.eqb_eq in Hc as ->.
      destruct (split "/" s) as [|h t] eqn:Hsp;
        [by destruct (split_nonempty "/" s)|].
      exists (String "/" pre). split.
      * rewrite str_app_cons. by f_equal.
      * right. destruct Hpre as [->|Hpre]; [done|].
        by apply ends_with_slash_cons.
    + destruct (split "/" s) as [|h [|h' t']] eqn:Hsp.
      * by destruct (split_nonempty "/" s).
      * exists EmptyString. split; [|by left].
        apply split_single in Hsp as ->. done.
      * exists (String c pre). split.
        -- rewrite str_app_cons. f_equal. exact Hs.
        -- right. destruct Hpre as [->|Hpre];
             [|by apply ends_with_slash_cons].
           exfalso. rewrite str_app_nil_l in Hs.
           pose proof (split_segments "/" s) as Hseg.
           rewrite Hsp in Hseg. rewrite Forall_forall in Hseg.
           assert (occurs "/" s = false) as Hno.
           { rewrite Hs. apply Hseg.
             change (List.last (h :: h' :: t') EmptyString)
               with (List.last (h' :: t') EmptyString).
             right. clear. induction t' as [|x t' IH] in h' |- *.
             - left.
             - change (List.last (h' :: x :: t') EmptyString)
                 with (List.last (x :: t') EmptyString).
               right. apply IH. }
           apply split_no_sep in Hno. congruence.
Qed.

(** [split] undone at the last separator. *)
Lemma split_last_app a b :
  occurs "/" b = false →
  List.last (split "/" (a +:+ String "/" b)) EmptyString = b.
Proof.
  intros Hb. induction a as [|c a IH].
  - rewrite str_app_nil_l. simpl. rewrite split_no_sep by done. done.
  - rewrite str_app_cons. simpl split.
    destruct (split "/" (a +:+ String "/" b)) as [|h t] eqn:Hsp;
      [by destruct (split_nonempty "/" (a +:+ String "/" b))|].
    destruct (Ascii.eqb c "/"); [done|].
    destruct t as [|h' t'].
    + exfalso. pose proof (split_segments "/" (a +:+ String "/" b)) as Hseg.
      rewrite Hsp in Hseg. inversion_clear Hseg as [|?? Hocc _].
      apply split_single in Hsp as <-. rewrite occurs_app in Hocc.
      simpl in Hocc. by rewrite orb_true_r in Hocc.
    + exact IH.
Qed.


Lemma filename_no_slash url : occurs "/" (filename_of url) = false.
Proof.
  unfold filename_of. pose proof (split_segments "/" url) as Hseg.
  destruct (split "/" url) as [|h t] eqn:Hsp;
    [by destruct (split_nonempty "/" url)|].
  clear Hsp. induction t as [|h' t IH] in h, Hseg |- *.
  - by inversion_clear Hseg.
  - inversion_clear Hseg. by apply (IH h').
Qed.

Lemma starts_with_slash_occurs s :
  occurs "/" s = false → starts_with_slash s = false.
Proof. destruct s as [|c s]; [done|]. simpl. by intros [? _]%orb_false_elim. Qed.

Lemma os_path_join_relative a b :
  starts_with_slash b = false → os_path_join a b = dir_prefix a +:+ b.
Proof.
  intros Hb. unfold os_path_join, dir_prefix. rewrite Hb.
  case_match; [done|]. by rewrite str_app_assoc.
Qed.

Lemma filepath_of_prefix dest_dir url :
  filepath_of dest_dir url = dir_prefix dest_dir +:+ filename_of url.
Proof.
  apply os_path_join_relative, starts_with_slash_occurs, filename_no_slash.
Qed.

(** ** Decimal numerals *)

Lemma pretty_N_char_digit x : Ascii.is_nat (pretty_N_char x) ≠ None.
Proof. unfold pretty_N_char. by repeat case_match. Qed.

Lemma eqb_digit_other x c :
  Ascii.is_nat c = None → Ascii.eqb (pretty_N_char x) c = false.
Proof.
  intros Hc. apply Ascii.eqb_neq. intros <-.
  by apply (pretty_N_char_digit x).
Qed.

Lemma occurs_cons c d s :
  occurs c (String d s) = Ascii.eqb d c || occurs c s.
Proof. reflexivity. Qed.

Lemma occurs_one c d : d ≠ c → occurs c (String d EmptyString) = false.
Proof.
  intros Hd. rewrite occurs_cons. cbn [occurs]. rewrite orb_false_r.
  by apply Ascii.eqb_neq.
Qed.

Lemma occurs_pretty_N_go c x s :
  Ascii.is_nat c = None → occurs c (pretty_N_go x s) = occurs c s.
Proof.
  intros Hc. revert s. induction (N.lt_wf_0 x) as [x _ IH]; intros s.
  destruct (decide (x = 0)%N) as [->|Hx]; [by rewrite pretty_N_go_0|].
  rewrite pretty_N_go_step by lia. rewrite IH by (apply N.div_lt; lia).
  by rewrite occurs_cons, eqb_digit_other.
Qed.

Lemma occurs_pretty_N c (x : N) :
  Ascii.is_nat c = None → occurs c (pretty x) = false.
Proof.
  intros Hc. unfold pretty, pretty_N. case_decide.
  - apply occurs_one. by intros <-.
  - by rewrite occurs_pretty_N_go.
Qed.

Lemma occurs_pretty_Z_nonneg c (x : Z) :
  Ascii.is_nat c = None → 0 ≤ x → occurs c (pretty x) = false.
Proof.
  intros Hc Hx. destruct x as [|p|p]; [| |lia].
  - apply occurs_one. by intros <-.
  - by apply (occurs_pretty_N c (N.pos p)).
Qed.

Lemma occurs_pretty_Z c (x : Z) :
  Ascii.is_nat c = None → c ≠ "-"%char → occurs c (pretty x) = false.
Proof.
  intros Hc Hd. destruct x as [|p|p].
  - by apply (occurs_pretty_Z_nonneg c 0).
  - by apply (occurs_pretty_Z_nonneg c (Z.pos p)).
  - change (pretty (Z.neg p)) with ("-" +:+ pretty (N.pos p)).
    rewrite occurs_app, (occurs_pretty_N c (N.pos p)) by done.
    rewrite orb_false_r. apply occurs_one. congruence.
Qed.

Lemma occurs_zeros c n : c ≠ "0"%char → occurs c (zeros n) = false.
Proof.
  intros Hc. induction n as [|n IH]; [done|]. cbn [zeros].
  rewrite occurs_cons, IH, orb_false_r. apply Ascii.eqb_neq. congruence.
Qed.

Lemma is_nat_not_zero c : Ascii.is_nat c = None → c ≠ "0"%char.
Proof. by intros Hc ->. Qed.

Lemma occurs_fmt_0d_nonneg c w x :
  Ascii.is_nat c = None → 0 ≤ x → occurs c (fmt_0d w x) = false.
Proof.
  intros Hc Hx. unfold fmt_0d. rewrite (proj2 (Z.ltb_ge _ _)) by done.
  unfold zero_pad. rewrite occurs_app, occurs_zeros by by apply is_nat_not_zero.
  by rewrite occurs_pretty_Z_nonneg.
Qed.

Lemma occurs_fmt_0d c w x :
  Ascii.is_nat c = None → c ≠ "-"%char → occurs c (fmt_0d w x) = false.
Proof.
  intros Hc Hd. unfold fmt_0d, zero_pad. case_match.
  - rewrite !occurs_app, occurs_zeros, occurs_pretty_Z
      by (done || by apply is_nat_not_zero).
    rewrite !orb_false_r. apply occurs_one. congruence.
  - rewrite !occurs_app, occurs_zeros, occurs_pretty_Z
      by (done || by apply is_nat_not_zero). done.
Qed.

(** A positive numeral has no leading zero. *)
Lemma pretty_N_go_head x s :
  (0 < x)%N → ∃ c r, pretty_N_go x s = String c r ∧ c ≠ "0"%char.
Proof.
  revert s. induction (N.lt_wf_0 x) as [x _ IH]; intros s Hx.
  rewrite pretty_N_go_step by done.
  destruct (decide (x `div` 10 = 0)%N) as [Hd|Hd].
  - rewrite Hd, pretty_N_go_0. eexists _, _. split; [done|].
    apply N.div_small_iff in Hd; [|done]. rewrite N.mod_small by done.
    assert (x = 1 ∨ x = 2 ∨ x = 3 ∨ x = 4 ∨ x = 5 ∨ x = 6
            ∨ x = 7 ∨ x = 8 ∨ x = 9)%N as Hcases by lia.
    repeat (destruct Hcases as [->|Hcases]; [by compute|]).
    subst x. by compute.
  - apply IH; [apply N.div_lt; lia|by apply N.neq_0_lt_0].
Qed.

Lemma pretty_Z_head (x : Z) :
  0 ≤ x →
  pretty x = "0"%string
  ∨ ∃ c r, pretty x = String c r ∧ c ≠ "0"%char.
Proof.
  intros Hx. destruct x as [|p|p]; [by left| |lia]. right.
  change (pretty (Z.pos p)) with (pretty_N_go (N.pos p) EmptyString).
  by apply pretty_N_go_head.
Qed.

Lemma zeros_app_inj a b p q :
  (p = "0"%string ∨ ∃ c r, p = String c r ∧ c ≠ "0"%char) →
  (q = "0"%string ∨ ∃ c r, q = String c r ∧ c ≠ "0"%char) →
  zeros a +:+ p = zeros b +:+ q → p = q.
Proof.
  intros Hp Hq. revert b. induction a as [|a IH]; intros [|b] Heq; simpl in Heq;
    rewrite ?str_app_cons, ?str_app_nil_l in Heq.
  - done.
  - destruct Hp as [->|(c & r & -> & Hc)]; [|congruence].
    injection Heq as Heq. destruct b; [|done].
    rewrite str_app_nil_l in Heq. subst q.
    by destruct Hq as [?|(? & ? & ? & ?)].
  - destruct Hq as [->|(c & r & -> & Hc)]; [|congruence].
    injection Heq as Heq. destruct a; [|done].
    rewrite str_app_nil_l in Heq. subst p.
    by destruct Hp as [?|(? & ? & ? & ?)].
  - injection Heq as Heq. by apply IH in Heq.
Qed.

(** [f"{x:0wd}"] is injective on the non-negative integers. *)
Lemma fmt_0d_inj w x y :
  0 ≤ x → 0 ≤ y → fmt_0d w x = fmt_0d w y → x = y.
Proof.
  intros Hx Hy. unfold fmt_0d, zero_pad.
  rewrite !(proj2 (Z.ltb_ge _ _)) by done. intros Heq.
  apply zeros_app_inj in Heq; [by apply (inj pretty)|by apply pretty_Z_head..].
Qed.

(** ** The URL template *)

Lemma str_lit c t : String c EmptyString +:+ t = String c t.
Proof. reflexivity. Qed.

Lemma frame_url_name RERUN run camcol field band :
  frame_url RERUN run camcol field band
  = ("https://data.sdss.org/sas/dr17/eboss/photoObj/frames/"
     +:+ fmt_d RERUN +:+ "/" +:+ fmt_d run +:+ "/" +:+ fmt_d camcol)
    +:+ String "/" (frame_name run camcol field band).
Proof.
  unfold frame_url, frame_name. rewrite !str_app_assoc. reflexivity.
Qed.

Lemma occurs_frame_name c run camcol field band :
  Ascii.is_nat c = None → c ≠ "-"%char →
  occurs c "frame-.fits.bz2" = false →
  occurs c band = false →
  occurs c (frame_name run camcol field band) = false.
Proof.
  intros Hc Hd Hlit Hband. unfold frame_name, fmt_d.
  rewrite !occurs_app, Hband, !occurs_fmt_0d, occurs_pretty_Z by done.
  rewrite (occurs_one c "-") by done.
  change "frame-.fits.bz2"%string with ("frame-" +:+ ".fits.bz2") in Hlit.
  rewrite occurs_app in Hlit. apply orb_false_elim in Hlit as [-> ->]. done.
Qed.

(** The file name of a frame URL is the template's last component. *)
Lemma filename_frame_url RERUN run camcol field band :
  occurs "/" band = false →
  filename_of (frame_url RERUN run camcol field band)
  = frame_name run camcol field band.
Proof.
  intros Hband. unfold filename_of. rewrite frame_url_name.
  apply split_last_app, occurs_frame_name; done.
Qed.

Lemma frame_name_inj run1 camcol1 field1 band1 run2 camcol2 field2 band2 :
  0 ≤ run1 → 0 ≤ run2 → 0 ≤ camcol1 → 0 ≤ camcol2 →
  0 ≤ field1 → 0 ≤ field2 →
  frame_name run1 camcol1 field1 band1 = frame_name run2 camcol2 field2 band2 →
  run1 = run2 ∧ camcol1 = camcol2 ∧ field1 = field2 ∧ band1 = band2.
Proof.
  intros Hr1 Hr2 Hc1 Hc2 Hf1 Hf2. unfold frame_name, fmt_d. intros Heq.
  apply (inj (String.append _)) in Heq.
  rewrite <- !str_app_assoc in Heq. apply str_app_inj_r in Heq.
  rewrite !(str_app_assoc _ "-"), !str_lit in Heq.
  apply str_sep_inj_r in Heq as [Heq Hfield];
    [|by apply occurs_fmt_0d_nonneg..].
  apply str_sep_inj_r in Heq as [Heq Hcam];
    [|by apply occurs_pretty_Z_nonneg..].
  apply str_sep_inj_r in Heq as [Heq Hrun];
    [|by apply occurs_fmt_0d_nonneg..].
  apply fmt_0d_inj in Hfield; [|done..]. apply fmt_0d_inj in Hrun; [|done..].
  apply (inj pretty) in Hcam. done.
Qed.

Lemma frame_url_inj RERUN run1 camcol1 field1 band1 run2 camcol2 field2 band2 :
  0 ≤ field1 → 0 ≤ field2 →
  frame_url RERUN run1 camcol1 field1 band1
  = frame_url RERUN run2 camcol2 field2 band2 →
  run1 = run2 ∧ camcol1 = camcol2 ∧ field1 = field2 ∧ band1 = band2.
Proof.
  intros Hf1 Hf2. unfold frame_url, fmt_d. intros Heq.
  do 2 apply (inj (String.append _)) in Heq.
  rewrite !(str_lit "/") in Heq. injection Heq as Heq.
  apply str_sep_inj_l in Heq as [Hrun Heq];
    [|by apply occurs_pretty_Z..].
  apply (inj pretty) in Hrun as ->.
  change ("/frame-" +:+ ?x) with (String "/" ("frame-" +:+ x)) in Heq.
  apply str_sep_inj_l in Heq as [Hcam Heq];
    [|by apply occurs_pretty_Z..].
  apply (inj pretty) in Hcam as ->.
  apply (inj (String.append _)) in Heq.
  rewrite <- !str_app_assoc in Heq. apply str_app_inj_r in Heq.
  rewrite !(str_app_assoc _ "-"), !str_lit in Heq.
  apply str_sep_inj_r in Heq as [Heq Hfield];
    [|by apply occurs_fmt_0d_nonneg..].
  apply fmt_0d_inj in Hfield as ->; [|done..].
  do 2 apply str_app_inj_r in Heq. done.
Qed.

(** ** Distinct keys, distinct URLs, distinct files *)

Lemma NoDup_flat_map_key_urls (f : string → string) BANDS RERUN keys :
  (∀ run1 camcol1 field1 band1 run2 camcol2 field2 band2,
     (run1, camcol1, field1) ∈ keys → (run2, camcol2, field2) ∈ keys →
     band1 ∈ BANDS → band2 ∈ BANDS →
     f (frame_url RERUN run1 camcol1 field1 band1)
     = f (frame_url RERUN run2 camcol2 field2 band2) →
     (run1, camcol1, field1) = (run2, camcol2, field2) ∧ band1 = band2) →
  NoDup BANDS → NoDup keys →
  NoDup (map f (flat_map (key_urls BANDS RERUN) keys)).
Proof.
  intros Hinj Hbands Hkeys.
  induction Hkeys as [|[[run camcol] field] keys Hnotin Hkeys IH]; simpl.
  - constructor.
  - rewrite map_app. apply NoDup_app. split; [|split].
    + unfold key_urls. rewrite map_map. apply (NoDup_fmap_2_strong _); [|done].
      intros b1 b2 Hb1 Hb2 Heq.
      by destruct (Hinj run camcol field b1 run camcol field b2)
        as [_ ?]; [left|left|..].
    + intros y Hy Hy'. unfold key_urls in Hy. rewrite map_map in Hy.
      apply list_elem_of_fmap in Hy as (b1 & -> & Hb1).
      apply list_elem_of_fmap in Hy' as (url & Heq & Hurl).
      apply list_elem_of_In, in_flat_map in Hurl
        as ([[run2 camcol2] field2] & Hk2 & Hurl).
      apply list_elem_of_In in Hk2. unfold key_urls in Hurl.
      apply list_elem_of_In, list_elem_of_fmap in Hurl as (b2 & -> & Hb2).
      destruct (Hinj run camcol field b1 run2 camcol2 field2 b2)
        as [Hk _]; [left|by right|done..|].
      by rewrite Hk in Hnotin.
    + apply IH. intros ???????? H1 H2. apply Hinj; by right.
Qed.

Lemma generate_urls_keys SDSS_RUNS BANDS RERUN n_fields draws urls :
  generate_urls SDSS_RUNS BANDS RERUN n_fields draws = Returned urls →
  ∃ keys, NoDup keys
          ∧ (∀ k, k ∈ keys → k ∈ addressable SDSS_RUNS)
          ∧ urls = flat_map (key_urls BANDS RERUN) keys.
Proof.
  unfold generate_urls.
  destruct (sample_loop SDSS_RUNS BANDS RERUN n_fields draws [] ∅)
    as [[urls' picked]|e|urls' picked] eqn:Hloop; try discriminate.
  intros [= ->]. destruct (decide (0 ≤ n_fields)) as [Hn|Hn].
  - destruct (sample_loop_returned SDSS_RUNS BANDS RERUN n_fields draws
                [] [] ∅ urls picked (sampler_inv_init _ _ _))
      as (keys & (Hnd & -> & -> & Hsub) & _); [rewrite size_empty; lia|done|].
    exists keys. split; [done|]. split; [|done].
    intros k Hk. apply Hsub. by apply elem_of_list_to_set.
  - rewrite sample_loop_unfold, bool_decide_eq_false_2 in Hloop
      by (rewrite size_empty; lia).
    injection Hloop as <- <-. exists []. split; [constructor|]. split; [|done].
    by intros k Hk%elem_of_nil.
Qed.

(** X15 — Where a download goes.  The file name taken from a URL is
    what follows its last ["/"] (the whole URL if it has none), so it
    holds no ["/"] itself.  Joining it to [DEST_DIR] therefore never
    takes the branch of [os.path.join] that discards the directory:
    the destination is [DEST_DIR], a ["/"] if [DEST_DIR] is not empty
    and does not end in one, then the file name.  Two URLs share a
    destination exactly when they share that last component, whatever
    comes before it. *)
Theorem destination_in_dest_dir dest_dir url :
  occurs "/" (filename_of url) = false
  ∧ (∃ pre, url = pre +:+ filename_of url
            ∧ (pre = EmptyString ∨ ends_with_slash pre = true))
  ∧ filepath_of dest_dir url = dir_prefix dest_dir +:+ filename_of url
  ∧ (∀ url', filepath_of dest_dir url = filepath_of dest_dir url'
             ↔ filename_of url = filename_of url').
Proof.
  split; [apply filename_no_slash|]. split; [apply split_last|].
  split; [apply filepath_of_prefix|].
  intros url'. rewrite !filepath_of_prefix. split; [|by intros ->].
  apply (inj (String.append _)).
Qed.

(** X16 — The sampler's URLs are pairwise distinct strings.  If
    [BANDS] has no repeated band, no URL occurs twice in the list
    [generate_urls] returns: the template maps distinct keys and bands
    to distinct text. *)
Theorem generated_urls_distinct SDSS_RUNS BANDS RERUN n_fields draws urls :
  NoDup BANDS →
  generate_urls SDSS_RUNS BANDS RERUN n_fields draws = Returned urls →
  NoDup urls.
Proof.
  intros Hbands Hgen.
  apply generate_urls_keys in Hgen as (keys & Hnd & Haddr & ->).
  rewrite <- (map_id (flat_map _ _)).
  apply NoDup_flat_map_key_urls; [|done..].
  intros run1 camcol1 field1 band1 run2 camcol2 field2 band2 Hk1 Hk2 _ _ Heq.
  apply Haddr, elem_of_addressable in Hk1
    as (? & ? & mf1 & m1 & _ & [= -> -> ->] & Hm1).
  apply Haddr, elem_of_addressable in Hk2
    as (? & ? & mf2 & m2 & _ & [= -> -> ->] & Hm2).
  apply frame_url_inj in Heq as (-> & -> & -> & ->); [done|lia..].
Qed.

Lemma generated_urls_distinct_witness :
  NoDup ["g"; "r"]%string
  ∧ generate_urls [(100, 1, 50)] ["g"; "r"]%string 301 2
      [(0, 0); (0, 1)]%nat
    = Returned demo_four_urls
  ∧ NoDup demo_four_urls.
Proof.
  assert (NoDup ["g"; "r"]%string) as Hb by (apply (bool_decide_unpack _); vm_compute; exact I).
  assert (generate_urls [(100, 1, 50)] ["g"; "r"]%string 301 2
            [(0, 0); (0, 1)]%nat
          = Returned demo_four_urls) as Hgen by (vm_compute; reflexivity).
  split; [exact Hb|]. split; [exact Hgen|].
  exact (generated_urls_distinct _ _ _ _ _ _ Hb Hgen).
Defined.

(** X17 — No two downloads of a run share a destination file.  If
    [BANDS] has no repeated band and no band containing ["/"], and the
    run and camcol numbers of the pool are not negative, the
    destination paths of the URLs [generate_urls] returns are pairwise
    distinct, and each file is named
    [frame-{band}-{run:06d}-{camcol}-{field:04d}.fits.bz2]. *)
Theorem generated_paths_distinct SDSS_RUNS BANDS RERUN n_fields draws urls
    dest_dir :
  NoDup BANDS →
  Forall (λ band, occurs "/" band = false) BANDS →
  Forall (λ r, 0 ≤ r.1.1 ∧ 0 ≤ r.1.2) SDSS_RUNS →
  generate_urls SDSS_RUNS BANDS RERUN n_fields draws = Returned urls →
  NoDup (map (filepath_of dest_dir) urls)
  ∧ ∀ url, url ∈ urls →
      ∃ run camcol field band,
        (run, camcol, field) ∈ addressable SDSS_RUNS ∧ band ∈ BANDS
        ∧ url = frame_url RERUN run camcol field band
        ∧ filename_of url = frame_name run camcol field band.
Proof.
  intros Hbands Hslash Hpool Hgen. rewrite Forall_forall in Hslash.
  rewrite Forall_forall in Hpool.
  apply generate_urls_keys in Hgen as (keys & Hnd & Haddr & ->). split.
  - apply NoDup_flat_map_key_urls; [|done..].
    intros run1 camcol1 field1 band1 run2 camcol2 field2 band2
      Hk1 Hk2 Hb1 Hb2 Heq.
    apply Haddr, elem_of_addressable in Hk1
      as (? & ? & mf1 & m1 & Hin1 & [= -> -> ->] & Hm1).
    apply Haddr, elem_of_addressable in Hk2
      as (? & ? & mf2 & m2 & Hin2 & [= -> -> ->] & Hm2).
    apply Hpool in Hin1 as [??]. apply Hpool in Hin2 as [??]. simpl in *.
    rewrite !filepath_of_prefix in Heq. apply (inj (String.append _)) in Heq.
    rewrite !filename_frame_url in Heq by auto.
    apply frame_name_inj in Heq as (-> & -> & -> & ->); [done|lia..].
  - intros url Hurl.
    apply list_elem_of_In, in_flat_map in Hurl
      as ([[run camcol] field] & Hk & Hurl).
    apply list_elem_of_In in Hk. unfold key_urls in Hurl.
    apply list_elem_of_In, list_elem_of_fmap in Hurl as (band & -> & Hband).
    exists run, camcol, field, band. split; [by apply Haddr|].
    split; [done|]. split; [done|]. apply filename_frame_url. auto.
Qed.

Lemma generated_paths_distinct_witness :
  NoDup Config.BANDS
  ∧ Forall (λ band, occurs "/" band = false) Config.BANDS
  ∧ Forall (λ r, 0 ≤ r.1.1 ∧ 0 ≤ r.1.2) Config.SDSS_RUNS
  ∧ generate_urls Config.SDSS_RUNS Config.BANDS Config.RERUN 2
      [(0, 0); (152, 490); (151, 138)]%nat
    = Returned demo_pipeline_urls
  ∧ NoDup (map (filepath_of Demo.dir) demo_pipeline_urls).
Proof.
  assert (NoDup Config.BANDS) as Hb
    by (apply (bool_decide_unpack _); vm_compute; exact I).
  assert (Forall (λ band, occurs "/" band = false) Config.BANDS) as Hs
    by (apply (bool_decide_unpack _); vm_compute; exact I).
  assert (Forall (λ r, 0 ≤ r.1.1 ∧ 0 ≤ r.1.2) Config.SDSS_RUNS) as Hp
    by (apply (bool_decide_unpack _); vm_compute; exact I).
  assert (generate_urls Config.SDSS_RUNS Config.BANDS Config.RERUN 2
            [(0, 0); (152, 490); (151, 138)]%nat
          = Returned demo_pipeline_urls) as Hgen by (vm_compute; reflexivity).
  split; [exact Hb|]. split; [exact Hs|]. split; [exact Hp|].
  split; [exact Hgen|].
  exact (proj1 (generated_paths_distinct _ _ _ _ _ _ Demo.dir Hb Hs Hp Hgen)).
Defined.

(** X18 — Downloads do not touch one another's files.  In a run that
    [main] starts from the sampler's URLs (with [BANDS] free of
    repeats and of ["/"], and a pool with non-negative run and camcol
    numbers), resuming one coroutine leaves the destination file of
    every other coroutine as it was: unchanged if present, absent if
    absent. *)
Theorem downloads_independent SDSS_RUNS BANDS RERUN NUM_FIELDS MAX_CONCURRENT
    draws fs0 dest_dir s0 sched s i j ev s' url c :
  NoDup BANDS →
  Forall (λ band, occurs "/" band = false) BANDS →
  Forall (λ r, 0 ≤ r.1.1 ∧ 0 ≤ r.1.2) SDSS_RUNS →
  main_start SDSS_RUNS BANDS RERUN NUM_FIELDS MAX_CONCURRENT draws fs0
  = Returned (inr s0) →
  run dest_dir sched s0 = Some s →
  step dest_dir j ev s = Some s' →
  coros s !! i = Some (url, c) →
  i ≠ j →
  fs (shared s') !! filepath_of dest_dir url
  = fs (shared s) !! filepath_of dest_dir url.
Proof.
  intros Hbands Hslash Hpool Hstart Hrun Hstep Hi Hij.
  unfold main_start in Hstart.
  destruct (generate_urls SDSS_RUNS BANDS RERUN NUM_FIELDS draws)
    as [urls| |] eqn:Hgen; try discriminate.
  injection Hstart as Hinit.
  assert (reachable dest_dir MAX_CONCURRENT urls fs0 s) as Hreach
    by (by exists s0, sched).
  destruct (step_transition _ _ _ _ _ _ _ _ Hreach Hstep)
    as (url_j & c_j & c_j' & Hj & _ & Ht & _).
  eapply transition_fs_frame; [exact Ht|by eapply reachable_locals|].
  assert (NoDup (map (filepath_of dest_dir) urls)) as Hnd.
  { pose proof (generate_urls_keys _ _ _ _ _ _ Hgen) as (keys & Hk & Haddr & ->).
    apply NoDup_flat_map_key_urls; [|done..].
    intros run1 camcol1 field1 band1 run2 camcol2 field2 band2
      Hk1 Hk2 Hb1 Hb2 Heq.
    rewrite Forall_forall in Hslash. rewrite Forall_forall in Hpool.
    apply Haddr, elem_of_addressable in Hk1
      as (? & ? & mf1 & m1 & Hin1 & [= -> -> ->] & Hm1).
    apply Haddr, elem_of_addressable in Hk2
      as (? & ? & mf2 & m2 & Hin2 & [= -> -> ->] & Hm2).
    apply Hpool in Hin1 as [??]. apply Hpool in Hin2 as [??]. simpl in *.
    rewrite !filepath_of_prefix in Heq. apply (inj (String.append _)) in Heq.
    rewrite !filename_frame_url in Heq by auto.
    apply frame_name_inj in Heq as (-> & -> & -> & ->); [done|lia..]. }
  rewrite <- (inv_urls _ _ _ _ (reachable_inv _ _ _ _ _ Hreach)) in Hnd.
  intros Heq. apply Hij. eapply NoDup_lookup; [exact Hnd|..].
  - rewrite !list_lookup_fmap, Hi. reflexivity.
  - rewrite !list_lookup_fmap, Hj. simpl. by rewrite Heq.
Qed.

Lemma downloads_independent_witness :
  coros demo_pipeline_requested !! 0%nat
  = Some (Demo.url1, Created)
  ∧ fs (shared (default demo_pipeline_requested
                  (step Demo.dir 1 (EvResponse 200 None)
                     demo_pipeline_requested)))
    !! filepath_of Demo.dir Demo.url1
    = fs (shared demo_pipeline_requested)
      !! filepath_of Demo.dir Demo.url1.
Proof.
  assert (NoDup Config.BANDS) as Hb
    by (apply (bool_decide_unpack _); vm_compute; exact I).
  assert (Forall (λ band, occurs "/" band = false) Config.BANDS) as Hs
    by (apply (bool_decide_unpack _); vm_compute; exact I).
  assert (Forall (λ r, 0 ≤ r.1.1 ∧ 0 ≤ r.1.2) Config.SDSS_RUNS) as Hp
    by (apply (bool_decide_unpack _); vm_compute; exact I).
  assert (main_start Config.SDSS_RUNS Config.BANDS Config.RERUN 2 1
            [(0, 0); (152, 490); (151, 138)]%nat ∅
          = Returned (inr demo_pipeline_start)) as Hstart
    by (vm_compute; reflexivity).
  assert (run Demo.dir [(1, EvGrant); (1, EvStart)]%nat demo_pipeline_start
          = Some demo_pipeline_requested) as Hrun
    by (vm_compute; reflexivity).
  assert (step Demo.dir 1 (EvResponse 200 None) demo_pipeline_requested
          = Some (default demo_pipeline_requested
                    (step Demo.dir 1 (EvResponse 200 None)
                       demo_pipeline_requested))) as Hstep
    by (vm_compute; reflexivity).
  assert (coros demo_pipeline_requested !! 0%nat
          = Some (Demo.url1, Created)) as Hi
    by (vm_compute; reflexivity).
  assert (0%nat ≠ 1%nat) as Hij by discriminate.
  split; [exact Hi|].
  exact (downloads_independent _ _ _ _ _ _ _ _ _ _ _ _ _ _ _ _ _
           Hb Hs Hp Hstart Hrun Hstep Hi Hij).
Defined.

Section Completion.

Variable dest_dir : string.
Variable MAX_CONCURRENT : Z.
Variable file_urls : list string.
Variable fs0 : gmap string (list byte).

Lemma sum_list_with_insert (f : coro → nat) (cs : list (string * coro))
    i url c c' :
  cs !! i = Some (url, c) →
  (sum_list_with (λ t, f t.2) (<[i := (url, c')]> cs) + f c
   = sum_list_with (λ t, f t.2) cs + f c')%nat.
Proof.
  revert i. induction cs as [|t cs IH]; intros [|i] Hi; try done.
  - injection Hi as ->. cbn. lia.
  - change (<[S i:=(url, c')]> (t :: cs)) with (t :: <[i:=(url, c')]> cs).
    cbn [sum_list_with]. specialize (IH i Hi). lia.
Qed.

Lemma step_lowers_work i url c ev s w' c' :
  reachable dest_dir MAX_CONCURRENT file_urls fs0 s →
  coros s !! i = Some (url, c) →
  transition dest_dir url c ev (shared s) w' c' →
  (steps_left c' < steps_left c)%nat →
  ∃ s', step dest_dir i ev s = Some s' ∧ (work_left s' < work_left s)%nat.
Proof.
  intros Hreach Hi Ht Hlt. eexists. split.
  - by eapply reachable_step_transition.
  - unfold work_left. cbn [coros].
    pose proof (sum_list_with_insert steps_left _ _ _ _ c' Hi). lia.
Qed.

Lemma holder_progress s i url c :
  reachable dest_dir MAX_CONCURRENT file_urls fs0 s →
  coros s !! i = Some (url, c) → holds_permit c = true →
  ∃ ev s', step dest_dir i ev s = Some s'
           ∧ (work_left s' < work_left s)%nat.
Proof.
  intros Hreach Hi Hc.
  destruct c as [| |fn fp|fn fp size| |]; try discriminate.
  - destruct (fs (shared s) !! filepath_of dest_dir url) as [content|] eqn:Hex.
    + exists EvStart.
      eapply step_lowers_work;
        [done|done|apply T_skip; by rewrite Hex|cbn; lia].
    + exists EvStart.
      eapply step_lowers_work; [done|done|by apply T_request|cbn; lia].
  - exists (EvResponse 404 None).
    eapply step_lowers_work; [done|done|apply T_missing|cbn; lia].
  - exists EvEndOfBody.
    eapply step_lowers_work; [done|done|apply T_done|cbn; lia].
Qed.

Lemma progress_step s :
  1 ≤ MAX_CONCURRENT →
  reachable dest_dir MAX_CONCURRENT file_urls fs0 s →
  gather_done s = false →
  ∃ i ev s', step dest_dir i ev s = Some s'
             ∧ (work_left s' < work_left s)%nat.
Proof.
  intros Hmax Hreach Hdone.
  destruct (reachable_inv _ _ _ _ _ Hreach)
    as [Hwf Htgt Hurls Hsum Hsem Hnn Hlive Hloc].
  destruct (forallb_false_lookup _ _ Hdone) as (i & [url c] & Hi & Hc).
  cbn in Hc.
  destruct (holds_permit c) eqn:Hhold.
  { destruct (holder_progress _ _ _ _ Hreach Hi Hhold) as (ev & s' & H).
    by exists i, ev, s'. }
  destruct c as [| | | | |e]; try discriminate.
  - destruct (decide (0 < sem_value (shared s))) as [Hpos|Hzero].
    + exists i, EvGrant.
      eapply step_lowers_work; [done|done|by apply T_grant|cbn; lia].
    + assert (1 ≤ holders s)%nat as Hh by lia.
      destruct (count_where_pos _ _ Hh) as (j & url' & c' & Hj & Hc').
      destruct (holder_progress _ _ _ _ Hreach Hj Hc') as (ev & s' & H).
      by exists j, ev, s'.
  - rewrite Forall_forall in Hlive.
    destruct (Hlive (url, CoRaised e) (list_elem_of_lookup_2 _ _ _ Hi) e).
    reflexivity.
Qed.

Lemma can_complete_within (n : nat) : ∀ s,
  1 ≤ MAX_CONCURRENT →
  reachable dest_dir MAX_CONCURRENT file_urls fs0 s →
  (work_left s ≤ n)%nat →
  ∃ sched s', run dest_dir sched s = Some s' ∧ gather_done s' = true
              ∧ (length sched ≤ n)%nat.
Proof.
  induction n as [|n IH]; intros s Hmax Hreach Hn;
    destruct (gather_done s) eqn:Hdone;
    try (exists [], s; repeat split; [done|simpl; lia]).
  - destruct (progress_step s Hmax Hreach Hdone) as (? & ? & ? & _ & ?). lia.
  - destruct (progress_step s Hmax Hreach Hdone)
      as (i & ev & s1 & Hstep & Hlt).
    destruct (IH s1 Hmax) as (sched & s' & Hrun & Hdone' & Hlen).
    { by eapply reachable_step. }
    { lia. }
    exists ((i, ev) :: sched), s'. split; [|split; [done|simpl; lia]].
    cbn. rewrite Hstep. done.
Qed.

Lemma work_left_init s0 :
  main_init MAX_CONCURRENT file_urls fs0 = inr s0 →
  work_left s0 = (3 * length file_urls)%nat.
Proof.
  unfold main_init. destruct (Semaphore MAX_CONCURRENT); [done|].
  intros [= <-]. unfold work_left. cbn [coros].
  induction file_urls as [|u urls IH]; cbn; [done|]. cbn in IH. lia.
Qed.

End Completion.

(** X19 — Every run can be brought to its end.  With at least one
    permit, from any state of a run some schedule of resumptions ends
    [gather]: every coroutine returns.  Three resumptions per task not
    yet started, two per task holding a fresh permit and one per task
    waiting on the network are enough, so at most three per URL from
    the start. *)
Theorem run_can_complete dest_dir MAX_CONCURRENT file_urls fs0 s :
  1 ≤ MAX_CONCURRENT →
  reachable dest_dir MAX_CONCURRENT file_urls fs0 s →
  ∃ sched s',
    run dest_dir sched s = Some s' ∧ gather_done s' = true
    ∧ (length sched ≤ work_left s)%nat
    ∧ (work_left s ≤ 3 * length file_urls)%nat.
Proof.
  intros Hmax Hreach.
  destruct (can_complete_within dest_dir MAX_CONCURRENT file_urls fs0
              (work_left s) s Hmax Hreach) as (sched & s' & Hrun & Hdone & Hlen);
    [done|].
  exists sched, s'. split; [done|]. split; [done|]. split; [done|].
  rewrite <- (inv_urls _ _ _ _ (reachable_inv _ _ _ _ _ Hreach)).
  rewrite length_fmap. unfold work_left. clear.
  induction (coros s) as [|[url c] cs IH]; cbn; [lia|].
  destruct c; cbn; lia.
Qed.

Lemma run_can_complete_witness :
  1 ≤ 1
  ∧ reachable Demo.dir 1 Demo.urls ∅ Demo.streaming
  ∧ ∃ sched s',
      run Demo.dir sched Demo.streaming = Some s' ∧ gather_done s' = true
      ∧ (length sched ≤ work_left Demo.streaming)%nat
      ∧ (work_left Demo.streaming ≤ 3 * length Demo.urls)%nat.
Proof.
  assert (reachable Demo.dir 1 Demo.urls ∅ Demo.streaming) as Hreach.
  { apply demo_reachable; [lia|]. vm_compute. eexists. reflexivity. }
  assert (1 ≤ 1) as Hmax by lia.
  split; [exact Hmax|]. split; [exact Hreach|].
  exact (run_can_complete _ _ _ _ _ Hmax Hreach).
Defined.
